(** * cppmh / printemps: a shallow embedding of the solver core

    The development follows the source one module at a time, the
    definitions first and their properties after them:

    - [MultiArray]      : [AbstractMultiArray] (index arithmetic, labels)
    - [Binary64]        : the doubles whose rounding matters
    - [Memory]          : [printemps/solver/memory.h]
    - [IncumbentHolder] : [IncumbentHolder] and its [try_update_incumbent]
    - [TabuSearchPrint] : the marks of [tabu_search_print.h]
    - [Solver]          : [cppmh/solver/solver.h], the function [solve]
    - [QapSolver]       : the command line of [qap_solver/main.cpp]
    - [Model]           : the evaluation kernel [Model::evaluate]
    - [Examples]        : the models of the tests and small solver runs

    Conventions.  A C++ [int] is a [Z]; signed overflow is undefined
    behaviour in C++ and is not modelled (the index arithmetic stays below
    the number of elements, see [suffix_products_bound]).  A C++ [double]
    is a binary64 number ([SpecFloat.spec_float], with the operations of
    [Floats.SpecFloat] at precision 53 and rounding to nearest, ties to
    even) where a result of the code depends on the rounding: in
    [Memory::bias] and in the rates of the initial modification.  The
    other doubles (objectives, penalties, penalty coefficients, times) are
    exact rationals ([Q]), and [HUGE_VALF] is a value of its own: the
    statements about them are about the comparisons and the arithmetic the
    code performs, not about its rounding.  A [std::vector] is a [list];
    indexed reads and writes use stdpp's lookup, insert and alter, which
    read nothing and change nothing out of range where C++ has undefined
    behaviour.  Code that is not among
    the sources is a parameter of the definitions that call it, or is
    modelled from the specification where a definition says so. *)

From Stdlib Require Import ZArith QArith Qminmax Qabs Qround Qpower List
  String Ascii Lia Lqa Bool.
From Stdlib Require Floats.SpecFloat.
From stdpp Require Import base list gmap.

Import ListNotations.

#[local] Open Scope Z_scope.

(** ** Helpers of the C++ standard library *)

(** [std::partial_sum(first, last, out, op)]:
    [out[0] = in[0]], [out[i] = op(out[i-1], in[i])]. *)
Fixpoint partial_sum_from {A : Type} (op : A -> A -> A) (acc : A) (l : list A)
  : list A :=
  match l with
  | [] => []
  | x :: t => let acc' := op acc x in acc' :: partial_sum_from op acc' t
  end.

Definition partial_sum {A : Type} (op : A -> A -> A) (l : list A) : list A :=
  match l with
  | [] => []
  | x :: t => x :: partial_sum_from op x t
  end.

(** [std::accumulate(first, last, init, op)]. *)
Definition accumulate {A B : Type} (op : B -> A -> B) (l : list A) (init : B)
  : B :=
  fold_left op l init.

(** [std::inner_product(first1, last1, first2, init)]: the second range is
    read as far as the first one goes. *)
Fixpoint inner_product (l1 l2 : list Z) (init : Z) : Z :=
  match l1, l2 with
  | a :: t1, b :: t2 => inner_product t1 t2 (init + a * b)
  | _, _ => init
  end.

(** The integer conversions of C++.  An [int] that meets a value of an
    unsigned type of [bits] bits is converted to it, the operations on the
    type wrap around, and a value that is stored in an [int] is wrapped to
    32 bits. *)
Definition to_unsigned (bits : Z) (x : Z) : Z := x mod 2 ^ bits.

Definition to_int (x : Z) : Z := (x + 2 ^ 31) mod 2 ^ 32 - 2 ^ 31.

(** ** Moves *)

(** A variable or a constraint is referred to by the index of its proxy and
    its flat index within the proxy. *)
Definition Index : Type := (nat * nat)%type.

(** [model::Move]: the alterations (variable, new value) in order, and the
    constraints the move touches. *)
Record Move : Type := {
  alterations             : list (Index * Z);
  related_constraint_ptrs : list Index
}.

(** [proxies[proxy_index][flat_index]] on a vector of value proxies. *)
Definition lookup2 {A : Type} (l : list (list A)) (v : Index) : option A :=
  match l !! v.1 with
  | Some proxy => proxy !! v.2
  | None => None
  end.

(** * AbstractMultiArray *)

Module MultiArray.

Record AbstractMultiArray : Type := {
  m_id                   : Z;
  m_number_of_dimensions : nat;
  m_number_of_elements   : Z;
  m_max_digits           : nat;
  m_shape                : list Z;
  m_strides              : list Z
}.

(** [compute_strides]: [m_strides.at(m_number_of_dimensions - 1) = 1] throws
    [std::out_of_range] when there is no dimension ([None]); otherwise the
    partial products of the reversed shape, its last entry left out, are
    written behind the 1 of the reversed strides. *)
Definition compute_strides (shape : list Z) : option (list Z) :=
  match shape with
  | [] => None
  | _ :: _ => Some (rev (1 :: partial_sum Z.mul (removelast (rev shape))))
  end.

(** [AbstractMultiArray::flat_index]. *)
Definition flat_index (a : AbstractMultiArray) (index : list Z) : Z :=
  inner_product index (m_strides a) 0.

(** The loop of [multi_dimensional_index]; C++ [/] and [%] on [int]
    truncate towards zero. *)
Fixpoint index_loop (strides : list Z) (remain : Z) : list Z :=
  match strides with
  | [] => []
  | s :: t => Z.quot remain s :: index_loop t (Z.rem remain s)
  end.

(** [AbstractMultiArray::multi_dimensional_index]. *)
Definition multi_dimensional_index (a : AbstractMultiArray) (k : Z) : list Z :=
  index_loop (m_strides a) k.

(** [std::to_string(int)].  An [int] has at most ten decimal digits, which
    bounds the recursion. *)
Definition digit_to_ascii (d : Z) : ascii := ascii_of_nat (Z.to_nat (48 + d)).

Fixpoint decimal_digits (fuel : nat) (n : Z) : string :=
  match fuel with
  | O => EmptyString
  | S f =>
      if n <? 10 then String (digit_to_ascii n) EmptyString
      else (decimal_digits f (n / 10)
              ++ String (digit_to_ascii (n mod 10)) EmptyString)%string
  end.

Definition to_string (n : Z) : string :=
  if n <? 0 then String "-"%char (decimal_digits 10 (- n))
  else decimal_digits 10 n.

(** Modelled from the spec: [utility::max] is not under src/; it returns the
    largest entry of the vector (the largest shape entry). *)
Definition utility_max (l : list Z) : Z :=
  match l with
  | [] => 0
  | x :: t => fold_left Z.max t x
  end.

Definition with_strides (a : AbstractMultiArray) : option AbstractMultiArray :=
  match compute_strides (m_shape a) with
  | None => None
  | Some strides =>
      Some {| m_id := m_id a;
              m_number_of_dimensions := m_number_of_dimensions a;
              m_number_of_elements := m_number_of_elements a;
              m_max_digits := m_max_digits a;
              m_shape := m_shape a;
              m_strides := strides |}
  end.

(** [AbstractMultiArray(const int a_ID)]. *)
Definition make_scalar (id : Z) : option AbstractMultiArray :=
  with_strides {| m_id := id;
                  m_number_of_dimensions := 1;
                  m_number_of_elements := 1;
                  m_max_digits := 1;
                  m_shape := [1];
                  m_strides := [] |}.

(** [AbstractMultiArray(const int a_ID, const int a_NUMBER_OF_ELEMENTS)]. *)
Definition make_vector (id n : Z) : option AbstractMultiArray :=
  with_strides {| m_id := id;
                  m_number_of_dimensions := 1;
                  m_number_of_elements := n;
                  m_max_digits := String.length (to_string n);
                  m_shape := [n];
                  m_strides := [] |}.

(** [AbstractMultiArray(const int a_ID, const std::vector<int> &a_SHAPE)]. *)
Definition make_shaped (id : Z) (shape : list Z) : option AbstractMultiArray :=
  with_strides {| m_id := id;
                  m_number_of_dimensions := List.length shape;
                  m_number_of_elements := accumulate Z.mul shape 1;
                  m_max_digits := String.length (to_string (utility_max shape));
                  m_shape := shape;
                  m_strides := [] |}.

(** What the three constructors establish. *)
Definition constructed (a : AbstractMultiArray) : Prop :=
  compute_strides (m_shape a) = Some (m_strides a) /\
  m_number_of_elements a = accumulate Z.mul (m_shape a) 1 /\
  m_number_of_dimensions a = List.length (m_shape a) /\
  m_max_digits a = String.length (to_string (utility_max (m_shape a))).

Fixpoint repeat_char (c : ascii) (n : nat) : string :=
  match n with
  | O => EmptyString
  | S m => String c (repeat_char c m)
  end.

(** Modelled from the spec: [utility::to_string(value, format)] is not under
    src/; it prints the value with the printf format it is given (the
    callers pass "%d", "%.3f" and the like).  [indices_label] builds the
    format "%<w>d": the decimal representation, right-aligned in a field of
    at least [w] characters and filled with blanks on the left. *)
Definition utility_to_string (width : nat) (v : Z) : string :=
  let s := to_string v in
  (repeat_char " " (width - String.length s) ++ s)%string.

(** The loop of [indices_label] over the dimensions. *)
Fixpoint label_loop (width : nat) (index : list Z) : string :=
  match index with
  | [] => EmptyString
  | i :: t =>
      (utility_to_string width i
         ++ (match t with [] => EmptyString | _ :: _ => ", " end)
         ++ label_loop width t)%string
  end.

(** [AbstractMultiArray::indices_label]. *)
Definition indices_label (a : AbstractMultiArray) (k : Z) : string :=
  if m_number_of_elements a =? 1 then EmptyString
  else ("[" ++ label_loop (m_max_digits a) (multi_dimensional_index a k)
            ++ "]")%string.

(** The label as the specification words it: every index zero-padded to the
    fixed width. *)
Definition zero_padded (width : nat) (v : Z) : string :=
  let s := to_string v in
  (repeat_char "0" (width - String.length s) ++ s)%string.

Fixpoint spec_label_loop (width : nat) (index : list Z) : string :=
  match index with
  | [] => EmptyString
  | i :: t =>
      (zero_padded width i
         ++ (match t with [] => EmptyString | _ :: _ => ", " end)
         ++ spec_label_loop width t)%string
  end.

Definition spec_indices_label (a : AbstractMultiArray) (k : Z) : string :=
  ("[" ++ spec_label_loop (m_max_digits a) (multi_dimensional_index a k)
       ++ "]")%string.

(** A proxy of variables, expressions or constraints: the array metadata and
    the names of its elements in flat order; an element the user has not
    named carries the empty name. *)
Record Proxy : Type := {
  proxy_array : AbstractMultiArray;
  proxy_names : list string
}.

(** Modelled from the spec: [Model::setup_unique_name] is not under src/
    (its test is).  Every element whose name is still empty is given the
    name of its proxy followed by [indices_label] of its flat index; a
    name set by the user is kept. *)
Definition setup_unique_name (base : string) (p : Proxy) : Proxy :=
  {| proxy_array := proxy_array p;
     proxy_names :=
       imap (fun j name =>
               if String.eqb name EmptyString
               then (base ++ indices_label (proxy_array p) (Z.of_nat j))%string
               else name)
            (proxy_names p) |}.

(** [Model::create_variables(name, shape)] as far as the names go. *)
Definition create_proxy (id : Z) (shape : list Z) : option Proxy :=
  match make_shaped id shape with
  | None => None
  | Some a =>
      Some {| proxy_array := a;
              proxy_names :=
                repeat EmptyString (Z.to_nat (m_number_of_elements a)) |}
  end.

(** [element.set_name(name)] on the element with flat index [j]. *)
Definition set_name (j : nat) (name : string) (p : Proxy) : Proxy :=
  {| proxy_array := proxy_array p;
     proxy_names := <[j := name]> (proxy_names p) |}.

(** The products of the suffixes of a list, the empty suffix last. *)
Definition product (l : list Z) : Z := fold_right Z.mul 1 l.

Fixpoint suffix_products (l : list Z) : list Z :=
  match l with
  | [] => [1]
  | _ :: t => product l :: suffix_products t
  end.

Definition in_shape (index shape : list Z) : Prop :=
  Forall2 (fun i s => 0 <= i < s) index shape.

(** [AbstractMultiArray::update_multi_dimensional_index]: the loop writes
    the entries [0 .. m_number_of_dimensions - 1] of the vector it is given
    and leaves the others.  Reading [m_strides[i]] or writing the entry [i]
    of the vector out of range is undefined behaviour in C++; here such a
    step changes nothing. *)
Definition update_multi_dimensional_index (a : AbstractMultiArray)
  (a_multi_dimensional_index : list Z) (a_FLAT_INDEX : Z) : list Z :=
  (fold_left
     (fun '(index, remain) i =>
        match m_strides a !! i with
        | Some s => (<[i := Z.quot remain s]> index, Z.rem remain s)
        | None => (index, remain)
        end)
     (seq 0 (m_number_of_dimensions a))
     (a_multi_dimensional_index, a_FLAT_INDEX)).1.

(** The value a string of decimal digits denotes, read from the left, and
    the string behind the blanks it starts with. *)
Fixpoint digits_value (acc : Z) (s : string) : Z :=
  match s with
  | EmptyString => acc
  | String c t => digits_value (acc * 10 + (Z.of_nat (nat_of_ascii c) - 48)) t
  end.

Fixpoint skip_blanks (s : string) : string :=
  match s with
  | String " " t => skip_blanks t
  | _ => s
  end.

Definition starts_nonblank (s : string) : Prop :=
  match s with
  | EmptyString => True
  | String c _ => c <> " "%char
  end.

End MultiArray.

(** * Binary64 *)

(** The doubles of the code whose rounding matters are the binary64
    numbers of [Floats.SpecFloat]; their operations are [SFadd], [SFmul]
    and [SFdiv] at precision 53 and maximal exponent 1024, which round to
    nearest, ties to even. *)
Module Binary64.
Import SpecFloat.

(** The conversion of an [int] or a [long] to [double]. *)
Definition binary64_of_Z (z : Z) : spec_float :=
  binary_normalize 53 1024 z 0 false.

(** The real number a double stands for (0 for the infinities and NaN). *)
Definition to_Q (x : spec_float) : Q :=
  match x with
  | S754_finite s m e =>
      ((if s then -1 else 1) * inject_Z (Z.pos m) * 2 ^ e)%Q
  | _ => 0%Q
  end.

(** The positive normal numbers: a mantissa of 53 bits and an exponent in
    range. *)
Definition normal (x : spec_float) : Prop :=
  match x with
  | S754_finite false m e => 2 ^ 52 <= Z.pos m < 2 ^ 53 /\ -1074 <= e <= 971
  | _ => False
  end.

(** The doubles from 0 to 1. *)
Definition in_unit_interval (x : spec_float) : Prop :=
  match x with
  | S754_zero _ => True
  | S754_finite false _ _ => (to_Q x <= 1)%Q
  | _ => False
  end.

Definition is_finite (x : spec_float) : bool :=
  match x with
  | S754_zero _ | S754_finite _ _ _ => true
  | _ => false
  end.

(** [std::floor(x)] and [static_cast<int>(x)], which truncates towards
    zero, as integers.  The conversion to [int] of a NaN, of an infinity
    and of a number out of the range of [int] is undefined behaviour in
    C++; here the first two give 0 and the range is not checked. *)
Definition floor (x : spec_float) : Z :=
  match x with
  | S754_finite s m e => Z.shiftl (cond_Zopp s (Z.pos m)) e
  | _ => 0
  end.

Definition truncate (x : spec_float) : Z :=
  match x with
  | S754_finite s m e => cond_Zopp s (Z.shiftl (Z.pos m) e)
  | _ => 0
  end.

(** The unit roundoff [2 ^ -53], and a range of magnitudes far inside the
    one of the normal numbers. *)
Definition u : Q := (2 ^ (-53))%Q.

Definition in_range (x : Q) : Prop := (2 ^ (-1000) <= x <= 2 ^ 1000)%Q.

(** Where a real number [N / D] lies between the integers [m] and [m + 1],
    as the round bit [r] and the sticky bit [s] of a shifted mantissa
    tell: on [m], below the middle, on it, or above. *)
Definition inbetween (N D m : Z) (r s : bool) : Prop :=
  match r, s with
  | false, false => N = m * D
  | false, true => m * D < N /\ 2 * N < (2 * m + 1) * D
  | true, false => 2 * N = (2 * m + 1) * D
  | true, true => (2 * m + 1) * D < 2 * N /\ N < (m + 1) * D
  end.

Definition inbetween_record (N D : Z) (mrs : shr_record) : Prop :=
  0 <= shr_m mrs /\ inbetween N D (shr_m mrs) (shr_r mrs) (shr_s mrs).

End Binary64.

(** * Memory *)

Module Memory.
Import Binary64(binary64_of_Z).

Definition INITIAL_LAST_UPDATE_ITERATION : Z := -1000.

Record Memory : Type := {
  m_variable_names         : list string;
  m_last_update_iterations : list (list Z);
  m_update_counts          : list (list Z);
  m_total_update_counts    : Z
}.

(** [Memory::initialize]. *)
Definition initialize : Memory :=
  {| m_variable_names := [];
     m_last_update_iterations := [];
     m_update_counts := [];
     m_total_update_counts := 0 |}.

(** Modelled from the spec: [Model::generate_variable_parameter_proxies] is
    not under src/; it returns one value proxy per variable proxy, of the
    same number of elements, every element holding the given value. *)
Definition generate_variable_parameter_proxies (sizes : list nat) (value : Z)
  : list (list Z) :=
  map (fun n => repeat value n) sizes.

(** [Memory::setup], the model given by the names of its variable proxies
    and their numbers of elements. *)
Definition setup (names : list string) (sizes : list nat) : Memory :=
  {| m_variable_names := names;
     m_last_update_iterations :=
       generate_variable_parameter_proxies sizes INITIAL_LAST_UPDATE_ITERATION;
     m_update_counts := generate_variable_parameter_proxies sizes 0;
     m_total_update_counts := m_total_update_counts initialize |}.

(** [Memory::bias], in binary64 as the code computes it:
    [update_count.flat_indexed_values(j)] is converted to [double] for the
    division, every quotient, square and partial sum is rounded.  The
    loops run over the first [m_variable_names.size()] proxies of
    [m_update_counts]. *)
Definition bias (m : Memory) : SpecFloat.spec_float :=
  fold_left
    (fun result update_count =>
       fold_left
         (fun result count =>
            let frequency :=
              SpecFloat.SFdiv 53 1024 (binary64_of_Z count)
                (binary64_of_Z (m_total_update_counts m)) in
            SpecFloat.SFadd 53 1024 result
              (SpecFloat.SFmul 53 1024 frequency frequency))
         update_count result)
    (firstn (length (m_variable_names m)) (m_update_counts m))
    (SpecFloat.S754_zero false).

(** The body of the loop of [Memory::update(a_MOVE, a_ITERATION)].  An index
    out of range is undefined behaviour in C++; here it changes nothing. *)
Definition update_alteration (iteration : Z) (m : Memory)
  (alteration : Index * Z) : Memory :=
  let proxy_index := alteration.1.1 in
  let flat_index := alteration.1.2 in
  {| m_variable_names := m_variable_names m;
     m_last_update_iterations :=
       alter (fun proxy => <[flat_index := iteration]> proxy) proxy_index
             (m_last_update_iterations m);
     m_update_counts :=
       alter (fun proxy => alter Z.succ flat_index proxy) proxy_index
             (m_update_counts m);
     m_total_update_counts := m_total_update_counts m + 1 |}.

(** [Memory::update(a_MOVE, a_ITERATION)]. *)
Definition update (m : Memory) (move : Move) (iteration : Z) : Memory :=
  fold_left (update_alteration iteration) (alterations move) m.

(** How often a move names a variable in its alterations. *)
Definition occurrences (v : Index) (move : Move) : nat :=
  length (filter (fun a => a.1 = v) (alterations move)).

(** The update counts of all variables, and their number. *)
Definition all_counts (m : Memory) : list Z := concat (m_update_counts m).

Definition number_of_entries (m : Memory) : nat := length (all_counts m).

Definition sum_Z (l : list Z) : Z := fold_right Z.add 0 l.

(** The sum of the squares of the counts. *)
Definition sum_squares (l : list Z) : Z :=
  fold_right Z.add 0 (map (fun c => c * c) l).

(** What [setup] establishes and [update] keeps: the total is the sum of the
    counts, no count is negative, and there is a proxy of counts and of
    iterations per name. *)
Definition consistent (m : Memory) : Prop :=
  m_total_update_counts m = sum_Z (all_counts m) /\
  Forall (fun c => 0 <= c) (all_counts m) /\
  length (m_variable_names m) = length (m_update_counts m).

(** The bias as the specification words it: the sum over all variables of
    the squared share of the updates. *)
Definition spec_bias (m : Memory) : Q :=
  fold_right Qplus 0%Q
    (map (fun count =>
            (inject_Z count / inject_Z (m_total_update_counts m)) ^ 2)%Q
         (all_counts m)).

(** [Memory::reset_last_update_iterations]. *)
Definition reset_last_update_iterations (m : Memory) : Memory :=
  {| m_variable_names := m_variable_names m;
     m_last_update_iterations :=
       map (fun proxy => map (fun _ => INITIAL_LAST_UPDATE_ITERATION) proxy)
           (m_last_update_iterations m);
     m_update_counts := m_update_counts m;
     m_total_update_counts := m_total_update_counts m |}.

(** [draw % (2 * a_RANDOM_WIDTH) - a_RANDOM_WIDTH] stored in
    [int randomness], the draw taken from the generator [get_rand_mt]
    points to.  The draw is a [std::uint_fast32_t], an unsigned type of
    [bits] bits (32 or 64).  A remainder by zero is undefined behaviour in
    C++; the width is not 0 where the code takes it. *)
Definition randomness (bits : Z) (r : Z) (a_RANDOM_WIDTH : Z) : Z :=
  to_int (to_unsigned bits
            (r mod to_unsigned bits (2 * a_RANDOM_WIDTH)
             - to_unsigned bits a_RANDOM_WIDTH)).

Section Random.

(** [std::mt19937]: the state of the generator and a draw from it. *)
Context {Generator : Type}.
Variable draw : Generator -> Z * Generator.
Variable bits : Z.

(** The body of the loop of
    [Memory::update(a_MOVE, a_ITERATION, a_RANDOM_WIDTH, get_rand_mt)]. *)
Definition update_alteration_random (iteration a_RANDOM_WIDTH : Z)
  (state : Memory * Generator) (alteration : Index * Z)
  : Memory * Generator :=
  let m := state.1 in
  let proxy_index := alteration.1.1 in
  let flat_index := alteration.1.2 in
  let '(r, g) := draw state.2 in
  ({| m_variable_names := m_variable_names m;
      m_last_update_iterations :=
        alter (fun proxy =>
                 <[flat_index := iteration + randomness bits r a_RANDOM_WIDTH]>
                   proxy)
              proxy_index (m_last_update_iterations m);
      m_update_counts :=
        alter (fun proxy => alter Z.succ flat_index proxy) proxy_index
              (m_update_counts m);
      m_total_update_counts := m_total_update_counts m + 1 |}, g).

(** [Memory::update(a_MOVE, a_ITERATION, a_RANDOM_WIDTH, get_rand_mt)]. *)
Definition update_random (m : Memory) (move : Move)
  (iteration a_RANDOM_WIDTH : Z) (g : Generator) : Memory * Generator :=
  if a_RANDOM_WIDTH =? 0 then (update m move iteration, g)
  else fold_left (update_alteration_random iteration a_RANDOM_WIDTH)
                 (alterations move) (m, g).

End Random.

(** A sequence of calls of [Memory::update(a_MOVE, a_ITERATION)]. *)
Definition updates (m : Memory) (calls : list (Move * Z)) : Memory :=
  fold_left (fun m call => update m call.1 call.2) calls m.

End Memory.

(** * IncumbentHolder *)

(** [model::SolutionScore]: the struct is not under src/; the fields are the
    ones the specification lists and the code of the holder and of the
    solver reads.  All objectives are as minimization. *)
Module SolutionScore.

Record SolutionScore : Type := {
  objective                  : Q;
  total_violation            : Q;
  local_penalty              : Q;
  global_penalty             : Q;
  local_augmented_objective  : Q;
  global_augmented_objective : Q;
  is_feasible                : bool;
  is_objective_improvable    : bool;
  is_constraint_improvable   : bool
}.

End SolutionScore.

Export SolutionScore.

Definition Qltb (x y : Q) : bool :=
  match (x ?= y)%Q with
  | Lt => true
  | _ => false
  end.

Module IncumbentHolder.

(** An incumbent objective is a score's objective, or [HUGE_VALF] (plus
    infinity), the [DEFAULT_OBJECTIVE] before any incumbent is stored. *)
Inductive Objective : Type :=
| Finite (value : Q)
| HUGE_VALF.

Definition DEFAULT_FOUND_FEASIBLE_SOLUTION : bool := false.
Definition DEFAULT_OBJECTIVE : Objective := HUGE_VALF.
Definition STATUS_NO_UPDATED : Z := 0.
Definition STATUS_LOCAL_AUGMENTED_INCUMBENT_UPDATE : Z := 1.
Definition STATUS_GLOBAL_AUGMENTED_INCUMBENT_UPDATE : Z := 2.
Definition STATUS_FEASIBLE_INCUMBENT_UPDATE : Z := 4.

(** [a_SCORE.x < m_x_incumbent_objective]. *)
Definition less (x : Q) (incumbent : Objective) : bool :=
  match incumbent with
  | HUGE_VALF => true
  | Finite y => Qltb x y
  end.

(** [new <= old] on incumbent objectives. *)
Definition objective_le (new old : Objective) : Prop :=
  match new, old with
  | _, HUGE_VALF => True
  | HUGE_VALF, Finite _ => False
  | Finite x, Finite y => (x <= y)%Q
  end.

Section Holder.

(** [model::Solution<T_Variable, T_Expression>]. *)
Context {Solution : Type}.

Record IncumbentHolder : Type := {
  m_found_feasible_solution              : bool;
  m_local_augmented_incumbent_solution   : Solution;
  m_global_augmented_incumbent_solution  : Solution;
  m_feasible_incumbent_solution          : Solution;
  m_local_augmented_incumbent_objective  : Objective;
  m_global_augmented_incumbent_objective : Objective;
  m_feasible_incumbent_objective         : Objective;
  m_local_augmented_incumbent_score      : SolutionScore;
  m_global_augmented_incumbent_score     : SolutionScore;
  m_feasible_incumbent_score             : SolutionScore
}.

(** [IncumbentHolder::initialize]: the solutions and the scores are left as
    they are. *)
Definition initialize (h : IncumbentHolder) : IncumbentHolder :=
  {| m_found_feasible_solution := DEFAULT_FOUND_FEASIBLE_SOLUTION;
     m_local_augmented_incumbent_solution :=
       m_local_augmented_incumbent_solution h;
     m_global_augmented_incumbent_solution :=
       m_global_augmented_incumbent_solution h;
     m_feasible_incumbent_solution := m_feasible_incumbent_solution h;
     m_local_augmented_incumbent_objective := DEFAULT_OBJECTIVE;
     m_global_augmented_incumbent_objective := DEFAULT_OBJECTIVE;
     m_feasible_incumbent_objective := DEFAULT_OBJECTIVE;
     m_local_augmented_incumbent_score := m_local_augmented_incumbent_score h;
     m_global_augmented_incumbent_score :=
       m_global_augmented_incumbent_score h;
     m_feasible_incumbent_score := m_feasible_incumbent_score h |}.

(** The constructor: default-constructed members, then [initialize]. *)
Definition new (solution : Solution) (score : SolutionScore)
  : IncumbentHolder :=
  initialize
    {| m_found_feasible_solution := false;
       m_local_augmented_incumbent_solution := solution;
       m_global_augmented_incumbent_solution := solution;
       m_feasible_incumbent_solution := solution;
       m_local_augmented_incumbent_objective := HUGE_VALF;
       m_global_augmented_incumbent_objective := HUGE_VALF;
       m_feasible_incumbent_objective := HUGE_VALF;
       m_local_augmented_incumbent_score := score;
       m_global_augmented_incumbent_score := score;
       m_feasible_incumbent_score := score |}.

(** The three assignments of [try_update_incumbent]. *)
Definition store_local (a_SOLUTION : Solution) (a_SCORE : SolutionScore)
  (h : IncumbentHolder) : IncumbentHolder :=
  {| m_found_feasible_solution := m_found_feasible_solution h;
     m_local_augmented_incumbent_solution := a_SOLUTION;
     m_global_augmented_incumbent_solution :=
       m_global_augmented_incumbent_solution h;
     m_feasible_incumbent_solution := m_feasible_incumbent_solution h;
     m_local_augmented_incumbent_objective :=
       Finite (local_augmented_objective a_SCORE);
     m_global_augmented_incumbent_objective :=
       m_global_augmented_incumbent_objective h;
     m_feasible_incumbent_objective := m_feasible_incumbent_objective h;
     m_local_augmented_incumbent_score := a_SCORE;
     m_global_augmented_incumbent_score :=
       m_global_augmented_incumbent_score h;
     m_feasible_incumbent_score := m_feasible_incumbent_score h |}.

Definition store_global (a_SOLUTION : Solution) (a_SCORE : SolutionScore)
  (h : IncumbentHolder) : IncumbentHolder :=
  {| m_found_feasible_solution := m_found_feasible_solution h;
     m_local_augmented_incumbent_solution :=
       m_local_augmented_incumbent_solution h;
     m_global_augmented_incumbent_solution := a_SOLUTION;
     m_feasible_incumbent_solution := m_feasible_incumbent_solution h;
     m_local_augmented_incumbent_objective :=
       m_local_augmented_incumbent_objective h;
     m_global_augmented_incumbent_objective :=
       Finite (global_augmented_objective a_SCORE);
     m_feasible_incumbent_objective := m_feasible_incumbent_objective h;
     m_local_augmented_incumbent_score := m_local_augmented_incumbent_score h;
     m_global_augmented_incumbent_score := a_SCORE;
     m_feasible_incumbent_score := m_feasible_incumbent_score h |}.

Definition store_feasible (a_SOLUTION : Solution) (a_SCORE : SolutionScore)
  (h : IncumbentHolder) : IncumbentHolder :=
  {| m_found_feasible_solution := m_found_feasible_solution h;
     m_local_augmented_incumbent_solution :=
       m_local_augmented_incumbent_solution h;
     m_global_augmented_incumbent_solution :=
       m_global_augmented_incumbent_solution h;
     m_feasible_incumbent_solution := a_SOLUTION;
     m_local_augmented_incumbent_objective :=
       m_local_augmented_incumbent_objective h;
     m_global_augmented_incumbent_objective :=
       m_global_augmented_incumbent_objective h;
     m_feasible_incumbent_objective := Finite (objective a_SCORE);
     m_local_augmented_incumbent_score := m_local_augmented_incumbent_score h;
     m_global_augmented_incumbent_score :=
       m_global_augmented_incumbent_score h;
     m_feasible_incumbent_score := a_SCORE |}.

Definition set_found_feasible_solution (h : IncumbentHolder)
  : IncumbentHolder :=
  {| m_found_feasible_solution := true;
     m_local_augmented_incumbent_solution :=
       m_local_augmented_incumbent_solution h;
     m_global_augmented_incumbent_solution :=
       m_global_augmented_incumbent_solution h;
     m_feasible_incumbent_solution := m_feasible_incumbent_solution h;
     m_local_augmented_incumbent_objective :=
       m_local_augmented_incumbent_objective h;
     m_global_augmented_incumbent_objective :=
       m_global_augmented_incumbent_objective h;
     m_feasible_incumbent_objective := m_feasible_incumbent_objective h;
     m_local_augmented_incumbent_score := m_local_augmented_incumbent_score h;
     m_global_augmented_incumbent_score :=
       m_global_augmented_incumbent_score h;
     m_feasible_incumbent_score := m_feasible_incumbent_score h |}.

(** [IncumbentHolder::try_update_incumbent(a_SOLUTION, a_SCORE)]: the status
    and the holder after the call.  The overload that takes the model
    presents [a_model->export_solution()] in the same way. *)
Definition try_update_incumbent (h : IncumbentHolder) (a_SOLUTION : Solution)
  (a_SCORE : SolutionScore) : Z * IncumbentHolder :=
  let status := STATUS_NO_UPDATED in
  let '(status, h) :=
    if less (local_augmented_objective a_SCORE)
            (m_local_augmented_incumbent_objective h)
    then (status + STATUS_LOCAL_AUGMENTED_INCUMBENT_UPDATE,
          store_local a_SOLUTION a_SCORE h)
    else (status, h) in
  let '(status, h) :=
    if less (global_augmented_objective a_SCORE)
            (m_global_augmented_incumbent_objective h)
    then (status + STATUS_GLOBAL_AUGMENTED_INCUMBENT_UPDATE,
          store_global a_SOLUTION a_SCORE h)
    else (status, h) in
  if is_feasible a_SCORE then
    let h := set_found_feasible_solution h in
    if less (objective a_SCORE) (m_feasible_incumbent_objective h)
    then (status + STATUS_FEASIBLE_INCUMBENT_UPDATE,
          store_feasible a_SOLUTION a_SCORE h)
    else (status, h)
  else (status, h).


(** A sequence of calls of [try_update_incumbent]. *)
Definition try_updates (h : IncumbentHolder)
  (calls : list (Solution * SolutionScore)) : IncumbentHolder :=
  fold_left (fun h call => (try_update_incumbent h call.1 call.2).2) calls h.

(** The feasible incumbent is a presented solution with a feasible score of
    the least objective, once a feasible score has been presented; the
    global augmented incumbent is a presented solution of the least global
    augmented objective. *)
Definition stores (calls : list (Solution * SolutionScore))
  (h : IncumbentHolder) : Prop :=
  m_found_feasible_solution h = existsb (fun c => is_feasible c.2) calls /\
  (m_found_feasible_solution h = false ->
   m_feasible_incumbent_objective h = HUGE_VALF) /\
  (m_found_feasible_solution h = true ->
   exists score,
     In (m_feasible_incumbent_solution h, score) calls /\
     is_feasible score = true /\
     m_feasible_incumbent_objective h = Finite (objective score) /\
     forall c, In c calls -> is_feasible c.2 = true ->
               (objective score <= objective c.2)%Q) /\
  (calls = [] -> m_global_augmented_incumbent_objective h = HUGE_VALF) /\
  (calls <> [] ->
   exists score,
     In (m_global_augmented_incumbent_solution h, score) calls /\
     m_global_augmented_incumbent_objective h
       = Finite (global_augmented_objective score) /\
     forall c, In c calls ->
               (global_augmented_objective score
                  <= global_augmented_objective c.2)%Q).

End Holder.

Arguments IncumbentHolder : clear implicits.

Section ModelOverload.

Context {Solution Model : Type}.

(** [a_model->export_solution()]. *)
Variable export_solution : Model -> Solution.

(** [if (!is_solution_updated) { solution = a_model->export_solution();
    is_solution_updated = true; }] on the local variables [solution] and
    [is_solution_updated]; the third component counts the calls of
    [export_solution]. *)
Definition export_once (a_model : Model) (local : Solution * bool * nat)
  : Solution * bool * nat :=
  let '(solution, is_solution_updated, calls) := local in
  if negb is_solution_updated
  then (export_solution a_model, true, S calls)
  else local.

(** [IncumbentHolder::try_update_incumbent(a_model, a_SCORE)]: the status,
    the holder after the call and the number of calls of
    [export_solution]; [default] is the default-constructed solution. *)
Definition try_update_incumbent_model (default : Solution)
  (h : IncumbentHolder Solution) (a_model : Model) (a_SCORE : SolutionScore)
  : Z * IncumbentHolder Solution * nat :=
  let local := (default, false, 0%nat) in
  let status := STATUS_NO_UPDATED in
  let '(status, local, h) :=
    if less (local_augmented_objective a_SCORE)
            (m_local_augmented_incumbent_objective h)
    then let local := export_once a_model local in
         (status + STATUS_LOCAL_AUGMENTED_INCUMBENT_UPDATE, local,
          store_local local.1.1 a_SCORE h)
    else (status, local, h) in
  let '(status, local, h) :=
    if less (global_augmented_objective a_SCORE)
            (m_global_augmented_incumbent_objective h)
    then let local := export_once a_model local in
         (status + STATUS_GLOBAL_AUGMENTED_INCUMBENT_UPDATE, local,
          store_global local.1.1 a_SCORE h)
    else (status, local, h) in
  if is_feasible a_SCORE then
    let h := set_found_feasible_solution h in
    if less (objective a_SCORE) (m_feasible_incumbent_objective h)
    then let local := export_once a_model local in
         (status + STATUS_FEASIBLE_INCUMBENT_UPDATE,
          store_feasible local.1.1 a_SCORE h, local.2)
    else (status, h, local.2)
  else (status, h, local.2).

End ModelOverload.

End IncumbentHolder.

(** * The table of the tabu search *)

Module TabuSearchPrint.
Import IncumbentHolder.

(** [tabu_search::print_table_body], the marks: the characters printed in
    front of the current objective, of the global augmented incumbent
    objective and of the feasible incumbent objective; nothing is printed
    when printing is not enabled. *)
Record Marks : Type := {
  mark_current                    : ascii;
  mark_global_augmented_incumbent : ascii;
  mark_feasible_incumbent         : ascii
}.

Definition print_table_body_marks (a_STATUS : Z) (a_IS_ENABLED_PRINT : bool)
  : option Marks :=
  if negb a_IS_ENABLED_PRINT then None
  else
    let marks := {| mark_current := " ";
                    mark_global_augmented_incumbent := " ";
                    mark_feasible_incumbent := " " |} in
    let marks :=
      if negb (Z.land a_STATUS STATUS_GLOBAL_AUGMENTED_INCUMBENT_UPDATE =? 0)
      then {| mark_current := "!";
              mark_global_augmented_incumbent := "!";
              mark_feasible_incumbent := mark_feasible_incumbent marks |}
      else marks in
    let marks :=
      if negb (Z.land a_STATUS STATUS_FEASIBLE_INCUMBENT_UPDATE =? 0)
      then {| mark_current := "*";
              mark_global_augmented_incumbent :=
                mark_global_augmented_incumbent marks;
              mark_feasible_incumbent := "*" |}
      else marks in
    Some marks.

End TabuSearchPrint.

(** * The solver *)

Module Solution.

(** [model::Solution<T_Variable, T_Expression>]: the struct is not under
    src/; these are the members [solve] reads. *)
Record Solution : Type := {
  variable_value_proxies  : list (list Z);
  violation_value_proxies : list (list Q);
  is_feasible             : bool
}.

End Solution.

Module Solver.
Import IncumbentHolder.
Import Solution(Solution, variable_value_proxies, violation_value_proxies).
Import Binary64(binary64_of_Z).

Abbreviation Holder := (IncumbentHolder Solution).

(** [tabu_search::RestartMode]; [Other] stands for a value that is neither
    enumerator. *)
Inductive RestartMode : Type := Global | Local | Other.

(** The members of [Option] the modelled part of [solve] reads. *)
Record Option : Type := {
  iteration_max                             : Z;
  time_max                                  : Q;
  target_objective_value                    : Q;
  initial_penalty_coefficient               : Q;
  penalty_coefficient_relaxing_rate         : Q;
  penalty_coefficient_tightening_rate       : Q;
  penalty_coefficient_updating_balance      : Q;
  penalty_coefficient_reset_count_threshold : Z;
  is_enabled_grouping_penalty_coefficient   : bool;
  is_enabled_lagrange_dual                  : bool;
  is_enabled_local_search                   : bool;
  restart_mode                              : RestartMode
}.

(** The members of the result of a search ([lagrange_dual::solve],
    [local_search::solve], [tabu_search::solve]) that [solve] reads to
    update the incumbents and the penalty coefficients. *)
Record SearchResult : Type := {
  incumbent_holder : Holder
}.

Inductive Error : Type :=
| AlreadySolved        (* "This model has already been solved." *)
| InvalidRestartMode   (* "The specified restart mode is invalid." *)
| SetupError.          (* an exception of [Model::setup] *)

(** Lines 583-596: the count of successive loops without update and the
    reset flag.  [update_status && STATUS_GLOBAL_AUGMENTED_INCUMBENT_UPDATE]
    is the logical conjunction of two integers. *)
Definition update_not_update_count (update_status not_update_count : Z)
  (master_option : Option) : Z * bool :=
  if negb (update_status =? 0)
     && negb (STATUS_GLOBAL_AUGMENTED_INCUMBENT_UPDATE =? 0)
  then (0, false)
  else
    let not_update_count := not_update_count + 1 in
    if not_update_count
       =? penalty_coefficient_reset_count_threshold master_option
    then (0, true)
    else (not_update_count, false).

(** [violation_values[flat_index]] of the proxy [id]; reading outside the
    vectors is undefined behaviour in C++, here it reads 0. *)
Definition violation_at (violations : list (list Q)) (id flat_index : nat)
  : Q :=
  match lookup2 violations (id, flat_index) with
  | Some v => v
  | None => 0%Q
  end.

(** Lines 636-644. *)
Definition total_penalty (violations : list (list Q)) : Q :=
  fold_left (fun total proxy =>
               fold_left (fun total element => (total + element)%Q)
                         proxy total)
            violations 0%Q.

Definition total_squared_violation (violations : list (list Q)) : Q :=
  fold_left (fun total proxy =>
               fold_left (fun total element => (total + element * element)%Q)
                         proxy total)
            violations 0%Q.

(** Modelled from the spec: [utility::max] on a vector of doubles is not
    under src/; it returns the largest element. *)
Definition utility_max (l : list Q) : Q :=
  match l with
  | [] => 0%Q
  | x :: t => fold_left Qmax t x
  end.

(** Lines 656-669: the increment of one coefficient. *)
Definition tightened (master_option : Option) (gap : Q)
  (violations : list (list Q)) (id flat_index : nat) (element : Q) : Q :=
  let balance := penalty_coefficient_updating_balance master_option in
  let delta_penalty_constant :=
    (Qmax 0 gap / total_penalty violations)%Q in
  let delta_penalty_proportional :=
    (Qmax 0 gap / total_squared_violation violations
       * violation_at violations id flat_index)%Q in
  (element
   + penalty_coefficient_tightening_rate master_option
     * (balance * delta_penalty_constant
        + (1 - balance) * delta_penalty_proportional))%Q.

(** The increase of a coefficient as the specification words it. *)
Definition increase (o : Option) (gap : Q) (violations : list (list Q))
  (v : Q) : Q :=
  (penalty_coefficient_tightening_rate o
   * (penalty_coefficient_updating_balance o
        * (gap / total_penalty violations)
      + (1 - penalty_coefficient_updating_balance o)
        * (gap * v / total_squared_violation violations)))%Q.

(** Lines 649-687: one proxy of local penalty coefficients is tightened,
    grouped when the option says so, and bounded. *)
Definition tighten_proxy (master_option : Option) (gap : Q)
  (violations : list (list Q)) (id : nat) (proxy : list Q) : list Q :=
  let proxy := imap (tightened master_option gap violations id) proxy in
  let proxy :=
    if is_enabled_grouping_penalty_coefficient master_option
    then let max_penalty := utility_max proxy in
         map (fun _ => max_penalty) proxy
    else proxy in
  map (fun element =>
         Qmin element (initial_penalty_coefficient master_option)) proxy.

(** Lines 693-708. *)
Definition relax_proxy (EPSILON : Q) (master_option : Option)
  (violations : list (list Q)) (id : nat) (proxy : list Q) : list Q :=
  imap (fun flat_index element =>
          if Qltb (violation_at violations id flat_index) EPSILON
          then (element * penalty_coefficient_relaxing_rate master_option)%Q
          else element)
       proxy.

(** Lines 616-618: the gap of two incumbent objectives, when it is finite.
    With only the local objective at [HUGE_VALF] the gap is minus infinity,
    which exceeds nothing.  The global objective of a holder is finite once
    [try_update_incumbent] has been called on it. *)
Definition gap_of (global local : Objective) : option Q :=
  match global, local with
  | Finite g, Finite l => Some (g - l)%Q
  | _, _ => None
  end.

(** Lines 620-709: the local penalty coefficients after a loop. *)
Definition update_local_penalty_coefficients (EPSILON : Q)
  (master_option : Option) (penalty_coefficient_reset_flag : bool)
  (gap : option Q) (result_local_solution : Solution)
  (local_penalty_coefficient_proxies global_penalty_coefficient_proxies
     : list (list Q)) : list (list Q) :=
  let violations := violation_value_proxies result_local_solution in
  if penalty_coefficient_reset_flag then
    global_penalty_coefficient_proxies
  else
    match gap with
    | Some gap =>
        if Qltb EPSILON gap && negb (Solution.is_feasible result_local_solution)
        then imap (tighten_proxy master_option gap violations)
                  local_penalty_coefficient_proxies
        else imap (relax_proxy EPSILON master_option violations)
                  local_penalty_coefficient_proxies
    | None =>
        imap (relax_proxy EPSILON master_option violations)
             local_penalty_coefficient_proxies
    end.

(** [incumbent_holder.feasible_incumbent_objective()
     <= master_option.target_objective_value]. *)
Definition reaches_target (feasible : Objective) (target : Q) : bool :=
  match feasible with
  | Finite f => Qle_bool f target
  | HUGE_VALF => false
  end.

(** The update of the main holder after a search (lines 292-304, 403-415,
    579-606): the global augmented incumbent of the search is presented,
    then its feasible incumbent when it has found one.  The status returned
    is the one of the first call, which the loop inspects. *)
Definition present_global (h : Holder) (result : SearchResult) : Z * Holder :=
  try_update_incumbent h
    (m_global_augmented_incumbent_solution (incumbent_holder result))
    (m_global_augmented_incumbent_score (incumbent_holder result)).

Definition present_feasible (h : Holder) (result : SearchResult) : Holder :=
  if m_found_feasible_solution (incumbent_holder result)
  then (try_update_incumbent h
          (m_feasible_incumbent_solution (incumbent_holder result))
          (m_feasible_incumbent_score (incumbent_holder result))).2
  else h.

(** What a search presents to the main holder, in the order of the calls:
    its global augmented incumbent with its score, then its feasible
    incumbent with its score when it has found one. *)
Definition presented (result : SearchResult)
  : list (Solution * SolutionScore) :=
  (m_global_augmented_incumbent_solution (incumbent_holder result),
   m_global_augmented_incumbent_score (incumbent_holder result))
  :: (if m_found_feasible_solution (incumbent_holder result)
      then [(m_feasible_incumbent_solution (incumbent_holder result),
             m_feasible_incumbent_score (incumbent_holder result))]
      else []).

(** Lines 1028-1031: the incumbent that is exported. *)
Definition select_incumbent (h : Holder) : Solution :=
  if m_found_feasible_solution h
  then m_feasible_incumbent_solution h
  else m_global_augmented_incumbent_solution h.

Section Solve.

(** [constant::EPSILON] (constant.h is not under src/). *)
Variable EPSILON : Q.

(** The state [solve] works on besides what is modelled here: the model but
    its solved latch, the memory, the random generator, the clock, the
    solution pool, and the tabu tenure, the number of initial modifications
    and the iteration limit adjusted for the next loop. *)
Context {Rest NamedSolution : Type}.

(** [Model]: the solved latch and the rest. *)
Record Model : Type := {
  is_solved : bool;
  rest      : Rest
}.

Definition set_is_solved (value : bool) (m : Model) : Model :=
  {| is_solved := value; rest := rest m |}.

(** The code [solve] calls that is not under src/. *)
Variable adjusted_target_objective_value : Rest -> Option -> Q.
Variable setup : Option -> Rest -> Rest * option Error.
Variable generate_constraint_parameter_proxies : Rest -> Q -> list (list Q).
Variable update : Rest -> Rest.
Variable export_solution : Rest -> Solution.
Variable evaluate : Rest -> list (list Q) -> list (list Q) -> SolutionScore.
Variable default_solution : Solution.
Variable default_score : SolutionScore.
Variable lagrange_dual_applicable : Rest -> bool.
Variable elapsed_time : Rest -> Q.
Variable lagrange_dual_solve local_search_solve tabu_search_solve :
  Rest -> Option -> list (list Q) -> list (list Q) -> list (list Z) ->
  Holder -> SearchResult * Rest.
Variable prepare_next_loop : Rest -> bool -> Rest.
Variable import_variable_values : Rest -> list (list Z) -> Rest.
Variable convert_to_named_solution : Rest -> Solution -> NamedSolution.

Record Result : Type := {
  solution             : NamedSolution;
  penalty_coefficients : list (list Q)
}.

(** The variables of the loop of tabu searches. *)
Record LoopState : Type := {
  loop_rest                          : Rest;
  loop_incumbent_holder              : Holder;
  current_solution                   : Solution;
  local_penalty_coefficient_proxies  : list (list Q);
  global_penalty_coefficient_proxies : list (list Q);
  iteration                          : Z;
  not_update_count                   : Z;
  penalty_coefficient_reset_flag     : bool
}.

(** Lines 504-1016: one tabu search loop. *)
Definition loop_body (master_option : Option) (st : LoopState)
  : Error * Rest + LoopState :=
  let initial_variable_value_proxies :=
    variable_value_proxies (current_solution st) in
  let '(result, rest1) :=
    tabu_search_solve (loop_rest st) master_option
      (local_penalty_coefficient_proxies st)
      (global_penalty_coefficient_proxies st)
      initial_variable_value_proxies (loop_incumbent_holder st) in
  let result_local_solution :=
    m_local_augmented_incumbent_solution (incumbent_holder result) in
  let result_global_solution :=
    m_global_augmented_incumbent_solution (incumbent_holder result) in
  let restart :=
    match restart_mode master_option with
    | Global =>
        inr (bool_decide (variable_value_proxies result_global_solution
                          <> variable_value_proxies (current_solution st)),
             result_global_solution)
    | Local =>
        inr (bool_decide (variable_value_proxies result_local_solution
                          <> variable_value_proxies (current_solution st)),
             result_local_solution)
    | Other => inl InvalidRestartMode
    end in
  match restart with
  | inl e => inl (e, rest1)
  | inr (is_changed, current_solution) =>
      let '(update_status, h) :=
        present_global (loop_incumbent_holder st) result in
      let '(not_update_count, penalty_coefficient_reset_flag) :=
        update_not_update_count update_status (not_update_count st)
                                master_option in
      let h := present_feasible h result in
      let gap :=
        gap_of (m_global_augmented_incumbent_objective h)
               (m_local_augmented_incumbent_objective
                  (incumbent_holder result)) in
      let local_penalty_coefficient_proxies :=
        update_local_penalty_coefficients EPSILON master_option
          penalty_coefficient_reset_flag gap result_local_solution
          (local_penalty_coefficient_proxies st)
          (global_penalty_coefficient_proxies st) in
      inr {| loop_rest := prepare_next_loop rest1 is_changed;
             loop_incumbent_holder := h;
             current_solution := current_solution;
             local_penalty_coefficient_proxies :=
               local_penalty_coefficient_proxies;
             global_penalty_coefficient_proxies :=
               global_penalty_coefficient_proxies st;
             iteration := iteration st + 1;
             not_update_count := not_update_count;
             penalty_coefficient_reset_flag :=
               penalty_coefficient_reset_flag |}
  end.

(** Lines 473-502: the conditions that end the loop. *)
Definition terminated (master_option : Option) (st : LoopState) : bool :=
  Qltb (time_max master_option) (elapsed_time (loop_rest st))
  || (iteration_max master_option <=? iteration st)
  || reaches_target
       (m_feasible_incumbent_objective (loop_incumbent_holder st))
       (target_objective_value master_option).

(** The [while (true)] loop.  Every pass adds one to [iteration], so
    [iteration_max - iteration] passes are enough to end it. *)
Fixpoint outer_loop (fuel : nat) (master_option : Option) (st : LoopState)
  : Error * Rest + LoopState :=
  if terminated master_option st then inr st
  else
    match fuel with
    | O => inr st
    | S fuel =>
        match loop_body master_option st with
        | inl e => inl e
        | inr st => outer_loop fuel master_option st
        end
    end.

(** Lines 226-342 and 347-455: an optional search before the loop. *)
Definition run_search
  (search : Rest -> Option -> list (list Q) -> list (list Q) ->
            list (list Z) -> Holder -> SearchResult * Rest)
  (master_option : Option) (st : LoopState) : LoopState :=
  let '(result, rest1) :=
    search (loop_rest st) master_option
      (local_penalty_coefficient_proxies st)
      (global_penalty_coefficient_proxies st)
      (variable_value_proxies (current_solution st))
      (loop_incumbent_holder st) in
  let h := (present_global (loop_incumbent_holder st) result).2 in
  let h := present_feasible h result in
  {| loop_rest := rest1;
     loop_incumbent_holder := h;
     current_solution :=
       m_global_augmented_incumbent_solution (incumbent_holder result);
     local_penalty_coefficient_proxies := local_penalty_coefficient_proxies st;
     global_penalty_coefficient_proxies :=
       global_penalty_coefficient_proxies st;
     iteration := iteration st;
     not_update_count := not_update_count st;
     penalty_coefficient_reset_flag := penalty_coefficient_reset_flag st |}.

Definition with_target (target : Q) (o : Option) : Option :=
  {| iteration_max := iteration_max o;
     time_max := time_max o;
     target_objective_value := target;
     initial_penalty_coefficient := initial_penalty_coefficient o;
     penalty_coefficient_relaxing_rate := penalty_coefficient_relaxing_rate o;
     penalty_coefficient_tightening_rate :=
       penalty_coefficient_tightening_rate o;
     penalty_coefficient_updating_balance :=
       penalty_coefficient_updating_balance o;
     penalty_coefficient_reset_count_threshold :=
       penalty_coefficient_reset_count_threshold o;
     is_enabled_grouping_penalty_coefficient :=
       is_enabled_grouping_penalty_coefficient o;
     is_enabled_lagrange_dual := is_enabled_lagrange_dual o;
     is_enabled_local_search := is_enabled_local_search o;
     restart_mode := restart_mode o |}.

(** Lines 182-221: the state before the searches. *)
Definition initial_state (master_option : Option) (r : Rest) : LoopState :=
  let penalty_coefficient_proxies :=
    generate_constraint_parameter_proxies
      r (initial_penalty_coefficient master_option) in
  let r := update r in
  let current_solution := export_solution r in
  let current_solution_score :=
    evaluate r penalty_coefficient_proxies penalty_coefficient_proxies in
  {| loop_rest := r;
     loop_incumbent_holder :=
       (try_update_incumbent (new default_solution default_score)
          current_solution current_solution_score).2;
     current_solution := current_solution;
     local_penalty_coefficient_proxies := penalty_coefficient_proxies;
     global_penalty_coefficient_proxies := penalty_coefficient_proxies;
     iteration := 0;
     not_update_count := 0;
     penalty_coefficient_reset_flag := false |}.

(** Lines 1028-1090: the result. *)
Definition export_result (st : LoopState) : Rest * Result :=
  let incumbent := select_incumbent (loop_incumbent_holder st) in
  let r := import_variable_values (loop_rest st)
                                  (variable_value_proxies incumbent) in
  let r := update r in
  let incumbent := export_solution r in
  (r, {| solution := convert_to_named_solution r incumbent;
         penalty_coefficients := local_penalty_coefficient_proxies st |}).

(** The state in which the loop of tabu searches ends. *)
Definition search (master_option : Option) (r : Rest)
  : Error * Rest + LoopState :=
  let st := initial_state master_option r in
  let st :=
    if is_enabled_lagrange_dual master_option
       && lagrange_dual_applicable (loop_rest st)
    then run_search lagrange_dual_solve master_option st
    else st in
  let st :=
    if is_enabled_local_search master_option
    then run_search local_search_solve master_option st
    else st in
  outer_loop (Z.to_nat (iteration_max master_option)) master_option st.

(** The history of a solve: the solutions presented to the main holder
    with their scores, in the order of the calls of [try_update_incumbent]
    on it.  The first is the initial solution of the model (line 213); every
    search that is run adds what it presents. *)
Definition run_search_presented
  (search : Rest -> Option -> list (list Q) -> list (list Q) ->
            list (list Z) -> Holder -> SearchResult * Rest)
  (master_option : Option) (st : LoopState)
  : list (Solution * SolutionScore) :=
  presented
    (search (loop_rest st) master_option
       (local_penalty_coefficient_proxies st)
       (global_penalty_coefficient_proxies st)
       (variable_value_proxies (current_solution st))
       (loop_incumbent_holder st)).1.

Fixpoint outer_loop_presented (fuel : nat) (master_option : Option)
  (st : LoopState) : list (Solution * SolutionScore) :=
  if terminated master_option st then []
  else
    match fuel with
    | O => []
    | S fuel =>
        match loop_body master_option st with
        | inl _ => []
        | inr st' =>
            run_search_presented tabu_search_solve master_option st
            ++ outer_loop_presented fuel master_option st'
        end
    end.

Definition search_presented (master_option : Option) (r : Rest)
  : list (Solution * SolutionScore) :=
  let penalty_coefficient_proxies :=
    generate_constraint_parameter_proxies
      r (initial_penalty_coefficient master_option) in
  let st0 := initial_state master_option r in
  let initial :=
    [(export_solution (update r),
      evaluate (update r) penalty_coefficient_proxies
               penalty_coefficient_proxies)] in
  let lagrange_dual :=
    is_enabled_lagrange_dual master_option
    && lagrange_dual_applicable (loop_rest st0) in
  let st1 :=
    if lagrange_dual
    then run_search lagrange_dual_solve master_option st0 else st0 in
  let st2 :=
    if is_enabled_local_search master_option
    then run_search local_search_solve master_option st1 else st1 in
  initial
  ++ (if lagrange_dual
      then run_search_presented lagrange_dual_solve master_option st0
      else [])
  ++ (if is_enabled_local_search master_option
      then run_search_presented local_search_solve master_option st1
      else [])
  ++ outer_loop_presented (Z.to_nat (iteration_max master_option))
       master_option st2.

(** [solve] from line 47 on, the model marked as solved. *)
Definition solve_marked (m : Model) (a_OPTION : Option)
  : Model * (Error + Result) :=
  let master_option :=
    with_target (adjusted_target_objective_value (rest m) a_OPTION)
                a_OPTION in
  match setup master_option (rest m) with
  | (r, Some e) => ({| is_solved := is_solved m; rest := r |}, inl e)
  | (r, None) =>
      match search master_option r with
      | inl (e, r) => ({| is_solved := is_solved m; rest := r |}, inl e)
      | inr st =>
          let '(r, result) := export_result st in
          ({| is_solved := is_solved m; rest := r |}, inr result)
      end
  end.

(** [solver::solve(a_model, a_OPTION)]: the model after the call, and the
    exception thrown or the result returned. *)
Definition solve (a_model : Model) (a_OPTION : Option)
  : Model * (Error + Result) :=
  if is_solved a_model then (a_model, inl AlreadySolved)
  else solve_marked (set_is_solved true a_model) a_OPTION.

End Solve.

(** ** What [solve] prepares for the next loop *)

(** Lines 72-85: the target objective value [solve] works with; [sign] is
    [model->sign()], 1 for a minimization and -1 for a maximization.  The
    second test reads the rate computed from the value the user gave. *)
Definition adjust_target_objective_value
  (DEFAULT_TARGET_OBJECTIVE EPSILON sign : Q) (is_defined_objective : bool)
  (target_objective_value : Q) : Q :=
  let target_objective_changed_rate :=
    (target_objective_value / DEFAULT_TARGET_OBJECTIVE - 1)%Q in
  let target_objective_value :=
    if Qltb EPSILON (Qabs target_objective_changed_rate)
    then (target_objective_value * sign)%Q
    else target_objective_value in
  if Qltb (Qabs target_objective_changed_rate) EPSILON
  then if negb is_defined_objective then 0%Q else target_objective_value
  else target_objective_value.

(** The members of [Option::tabu_search] that [solve] reads to prepare the
    next loop.  The rates of the initial modification are binary64
    numbers: the number of initial modifications depends on the rounding
    of their products. *)
Module TabuSearch.

Record TabuSearchOption : Type := {
  iteration_max                               : Z;
  initial_tabu_tenure                         : Z;
  is_enabled_automatic_tabu_tenure_adjustment : bool;
  is_enabled_initial_modification             : bool;
  initial_modification_fixed_rate             : SpecFloat.spec_float;
  initial_modification_randomize_rate         : SpecFloat.spec_float;
  is_enabled_automatic_iteration_adjustment   : bool;
  iteration_increase_rate                     : Q
}.

End TabuSearch.

Import TabuSearch(TabuSearchOption, initial_tabu_tenure,
  is_enabled_automatic_tabu_tenure_adjustment,
  is_enabled_initial_modification, initial_modification_fixed_rate,
  initial_modification_randomize_rate,
  is_enabled_automatic_iteration_adjustment, iteration_increase_rate).

(** [status & flag] as a condition. *)
Definition has_flag (status flag : Z) : bool := negb (Z.land status flag =? 0).

(** Lines 714-736: the initial tabu tenure of the next loop.  [current] is
    [next_inital_tabu_tenure] as the loop found it, which is also
    [option.tabu_search.initial_tabu_tenure]; the biases are compared as
    doubles. *)
Definition next_initial_tabu_tenure (master : TabuSearchOption) (current : Z)
  (total_update_status : Z) (bias previous_bias : SpecFloat.spec_float)
  (number_of_not_fixed_variables : Z) : Z :=
  if is_enabled_automatic_tabu_tenure_adjustment master then
    if has_flag total_update_status STATUS_GLOBAL_AUGMENTED_INCUMBENT_UPDATE
    then Z.min (initial_tabu_tenure master) number_of_not_fixed_variables
    else if SpecFloat.SFltb previous_bias bias
    then Z.min (current + 1) number_of_not_fixed_variables
    else if SpecFloat.SFltb bias previous_bias
    then Z.max (current - 1) 1
    else current
  else initial_tabu_tenure master.

Section InitialModification.

Context {Generator : Type}.
Variable draw : Generator -> Z * Generator.
Variable bits : Z.

(** Lines 741-773: the number of initial modifications of the next loop and
    the generator after the draw, if one is made.  The fixed rate is read
    from [master_option] and the randomize rate from [option]; both
    products are products of doubles, the [int] factor converted, and the
    first is passed to [std::floor] before the conversion to [int].  In
    [number_of_initial_modification += draw % (2 * width) - width] the
    [int] operands are converted to the unsigned type of the draw and the
    sum is wrapped back to [int]. *)
Definition next_number_of_initial_modification
  (master option : TabuSearchOption) (current : Z) (total_update_status : Z)
  (is_changed : bool) (next_inital_tabu_tenure : Z) (g : Generator)
  : Z * Generator :=
  if has_flag total_update_status STATUS_FEASIBLE_INCUMBENT_UPDATE
  then (0, g)
  else if has_flag total_update_status
                   STATUS_GLOBAL_AUGMENTED_INCUMBENT_UPDATE
  then (0, g)
  else if is_enabled_initial_modification master && negb is_changed then
    let nominal_number_of_initial_modification :=
      Binary64.floor
        (SpecFloat.SFmul 53 1024 (initial_modification_fixed_rate master)
           (binary64_of_Z next_inital_tabu_tenure)) in
    let initial_modification_random_width :=
      Binary64.truncate
        (SpecFloat.SFmul 53 1024 (initial_modification_randomize_rate option)
           (binary64_of_Z nominal_number_of_initial_modification)) in
    let '(number_of_initial_modification, g) :=
      if 0 <? initial_modification_random_width
      then let '(r, g) := draw g in
           (to_int
              (to_unsigned bits
                 (to_unsigned bits nominal_number_of_initial_modification
                  + to_unsigned bits
                      (r mod to_unsigned bits
                               (2 * initial_modification_random_width)
                       - to_unsigned bits
                           initial_modification_random_width))), g)
      else (nominal_number_of_initial_modification, g) in
    (Z.max 1 number_of_initial_modification, g)
  else (current, g).

End InitialModification.


(** Lines 1046-1066: the proxies by the names of the model,
    [named[names[i]] = proxies[i]] for [i] below the number of proxies of
    the model.  An index outside [names] or [proxies] is undefined
    behaviour in C++; here such a step changes nothing. *)
Definition named_proxies {A : Type} (size : nat) (names : list string)
  (proxies : list (list A)) : gmap string (list A) :=
  fold_left
    (fun named i =>
       match names !! i, proxies !! i with
       | Some name, Some proxy => <[name := proxy]> named
       | _, _ => named
       end)
    (seq 0 size) ∅.

Definition named_penalty_coefficients (constraint_proxies_size : nat)
  (constraint_names : list string)
  (local_penalty_coefficient_proxies : list (list Q))
  : gmap string (list Q) :=
  named_proxies constraint_proxies_size constraint_names
                local_penalty_coefficient_proxies.

Definition named_update_counts (variable_proxies_size : nat)
  (variable_names : list string) (update_counts : list (list Z))
  : gmap string (list Z) :=
  named_proxies variable_proxies_size variable_names update_counts.

End Solver.

(** * The QAP solver: the command line *)

Module QapSolver.

(** The two names [main] reads from the command line. *)
Record CommandLine : Type := {
  qap_file_name    : string;
  option_file_name : string
}.

Inductive Outcome : Type :=
| Usage                          (* the usage is printed, [exit(1)] *)
| OutOfRange                     (* [args[i + 1]] is read behind the end *)
| Parsed (arguments   : CommandLine).

(** The loop [while (i < static_cast<int>(args.size()))] of [main].  Every
    pass adds at least one to [i], so [args.size()] passes are enough.
    Reading [args[i + 1]] behind the end of the vector is undefined
    behaviour in C++ ([None]). *)
Fixpoint parse_loop (fuel : nat) (args : list string) (i : nat)
  (a   : CommandLine) : option CommandLine :=
  match fuel with
  | O => Some a
  | S fuel =>
      match args !! i with
      | None => Some a
      | Some argument =>
          if String.eqb argument "-p" then
            match args !! (i + 1)%nat with
            | None => None
            | Some name =>
                parse_loop fuel args (i + 2)
                  {| qap_file_name := qap_file_name a;
                     option_file_name := name |}
            end
          else
            parse_loop fuel args (i + 1)
              {| qap_file_name := argument;
                 option_file_name := option_file_name a |}
      end
  end.

(** [main] up to the end of the loop: [argv[1] == nullptr] when the program
    is called without argument. *)
Definition parse_arguments (argv : list string) : Outcome :=
  match argv !! 1%nat with
  | None => Usage
  | Some _ =>
      match parse_loop (length argv) argv 1
              {| qap_file_name := ""; option_file_name := "" |} with
      | Some a => Parsed a
      | None => OutOfRange
      end
  end.

(** What a command line is made of: the name of a file, or "-p" and the
    name of an option file. *)
Inductive Item : Type :=
| File (name : string)
| OptionFile (name : string).

Definition words (item : Item) : list string :=
  match item with
  | File name => [name]
  | OptionFile name => ["-p"%string; name]
  end.

(** The names the last items of each kind give, [a] where there is none. *)
Definition read_item (a   : CommandLine) (item : Item)   : CommandLine :=
  match item with
  | File name =>
      {| qap_file_name := name; option_file_name := option_file_name a |}
  | OptionFile name =>
      {| qap_file_name := qap_file_name a; option_file_name := name |}
  end.

End QapSolver.

(** * The evaluation kernel of the model *)

Module Model.

Definition sumQ (l : list Q) : Q := fold_right Qplus 0%Q l.

Inductive ConstraintSense : Type := LessEqual | Equal | GreaterEqual.

(** Modelled from the spec: [model::Expression] is not under src/.  A sparse
    linear form: the coefficient of each variable, the constant term, and
    the cached current value; or an opaque callback, which computes the
    value from the values of the variables and the move. *)
Record Expression : Type := {
  sensitivities  : gmap Index Q;
  constant_value : Q;
  value          : Q;
  callback       : option (list (list Z) -> Move -> Q)
}.

(** Modelled from the spec: [model::Constraint] is not under src/.  The
    inner expression, the sense, the enabled flag, and the cached constraint
    and violation values. *)
Record Constraint : Type := {
  expression       : Expression;
  sense            : ConstraintSense;
  is_enabled       : bool;
  constraint_value : Q;
  violation_value  : Q
}.

(** Modelled from the spec: [model::Model] is not under src/.  The values of
    the variables, the objective and its direction, and the constraints,
    each family by proxy and flat index. *)
Record Model : Type := {
  variable_values    : list (list Z);
  objective          : Expression;
  is_minimization    : bool;
  constraint_proxies : list (list Constraint)
}.

(** Internally every objective is minimized. *)
Definition sign (m : Model) : Q := if is_minimization m then 1 else -1.

Definition coefficient (e : Expression) (v : Index) : Q :=
  default 0%Q (sensitivities e !! v).

Definition current_value (m : Model) (v : Index) : Z :=
  default 0 (lookup2 (variable_values m) v).

(** The violation of a constraint value: [max(0, value)] for [<=],
    [|value|] for [=], [max(0, -value)] for [>=]. *)
Definition violation (s : ConstraintSense) (x : Q) : Q :=
  match s with
  | LessEqual => Qmax 0 x
  | Equal => Qabs x
  | GreaterEqual => Qmax 0 (- x)
  end.

(** The change of an expression under a move: the sum over the alterations
    [(v, v')] of [(v' - v)] times the coefficient of [v]. *)
Definition delta (m : Model) (e : Expression) (move : Move) : Q :=
  sumQ (map (fun a => coefficient e a.1
                      * inject_Z (a.2 - current_value m a.1))%Q
            (alterations move)).

(** The value of an expression under a move: the cached value plus the
    change, or the callback evaluated anew. *)
Definition evaluate_expression (m : Model) (e : Expression) (cached : Q)
  (move : Move) : Q :=
  match callback e with
  | Some f => f (variable_values m) move
  | None => (cached + delta m e move)%Q
  end.

Definition new_objective (m : Model) (move : Move) : Q :=
  (sign m * evaluate_expression m (objective m) (value (objective m)) move)%Q.

Definition new_constraint_value (m : Model) (c : Constraint) (move : Move)
  : Q :=
  evaluate_expression m (expression c) (constraint_value c) move.

Definition new_violation (m : Model) (c : Constraint) (move : Move) : Q :=
  violation (sense c) (new_constraint_value m c move).

(** The elements of a family with their references, the index of the proxy
    translated by [h]. *)
Definition indexed {A : Type} (h : nat -> nat) (l : list (list A))
  : list (Index * A) :=
  concat (imap (fun i proxy => imap (fun j c => ((h i, j), c)) proxy) l).

(** The enabled constraints with their references. *)
Definition indexed_constraints (m : Model) : list (Index * Constraint) :=
  indexed id (constraint_proxies m).

Definition enabled_constraints (m : Model) : list (Index * Constraint) :=
  filter (fun gc => is_enabled gc.2 = true) (indexed_constraints m).

(** The constraint a reference of a move points to, when it is enabled. *)
Definition enabled_constraint_at (m : Model) (g : Index)
  : option Constraint :=
  match lookup2 (constraint_proxies m) g with
  | Some c => if is_enabled c then Some c else None
  | None => None
  end.

(** The penalty coefficient of a constraint. *)
Definition weight (weights : list (list Q)) (g : Index) : Q :=
  default 0%Q (lookup2 weights g).

Section Evaluate.

(** How the kernel decides [is_objective_improvable] from the model and the
    move.  The specification does not define the flag, and model.h is not
    under src/; the test of [evaluate] fixes its value on six moves. *)
Variable objective_improvable : Model -> Move -> bool.

(** Modelled from the spec: [Model::evaluate(move, local, global)] is not
    under src/ (its test is).  The objective is the old one plus the change
    under the move; the violations of all enabled constraints are summed,
    plainly and weighted; a solution is feasible when the total violation
    is zero; the constraints are improvable when the violation of one of
    them goes down. *)
Definition evaluate (m : Model) (move : Move)
  (local_weights global_weights : list (list Q)) : SolutionScore :=
  let constraints := enabled_constraints m in
  let objective := new_objective m move in
  let total_violation :=
    sumQ (map (fun gc => new_violation m gc.2 move) constraints) in
  let local_penalty :=
    sumQ (map (fun gc => weight local_weights gc.1
                         * new_violation m gc.2 move)%Q constraints) in
  let global_penalty :=
    sumQ (map (fun gc => weight global_weights gc.1
                         * new_violation m gc.2 move)%Q constraints) in
  {| SolutionScore.objective := objective;
     total_violation := total_violation;
     local_penalty := local_penalty;
     global_penalty := global_penalty;
     local_augmented_objective := (objective + local_penalty)%Q;
     global_augmented_objective := (objective + global_penalty)%Q;
     is_feasible := Qeq_bool total_violation 0;
     is_objective_improvable := objective_improvable m move;
     is_constraint_improvable :=
       existsb (fun gc => Qltb (new_violation m gc.2 move)
                               (violation_value gc.2)) constraints |}.

(** The change of the violation of the constraint a move refers to; a
    disabled constraint is skipped. *)
Definition violation_diff (m : Model) (move : Move) (g : Index) : Q :=
  match enabled_constraint_at m g with
  | Some c => (new_violation m c move - violation_value c)%Q
  | None => 0%Q
  end.

(** Modelled from the spec: the overload
    [Model::evaluate(move, score_before, local, global)] is not under src/.
    It updates [score_before] by the changes the move makes: the objective
    by the change of the objective expression (a callback objective is
    evaluated anew), the violation and the penalties by the changes of the
    violations of the constraints the move refers to. *)
Definition evaluate_delta (m : Model) (move : Move)
  (score_before : SolutionScore)
  (local_weights global_weights : list (list Q)) : SolutionScore :=
  let related := related_constraint_ptrs move in
  let objective :=
    match callback (Model.objective m) with
    | Some f => (sign m * f (variable_values m) move)%Q
    | None => (SolutionScore.objective score_before
               + sign m * delta m (Model.objective m) move)%Q
    end in
  let total_violation :=
    (total_violation score_before
     + sumQ (map (violation_diff m move) related))%Q in
  let local_penalty :=
    (local_penalty score_before
     + sumQ (map (fun g => weight local_weights g
                           * violation_diff m move g) related))%Q in
  let global_penalty :=
    (global_penalty score_before
     + sumQ (map (fun g => weight global_weights g
                           * violation_diff m move g) related))%Q in
  {| SolutionScore.objective := objective;
     total_violation := total_violation;
     local_penalty := local_penalty;
     global_penalty := global_penalty;
     local_augmented_objective := (objective + local_penalty)%Q;
     global_augmented_objective := (objective + global_penalty)%Q;
     is_feasible := Qeq_bool total_violation 0;
     is_objective_improvable := objective_improvable m move;
     is_constraint_improvable :=
       existsb (fun g => Qltb (violation_diff m move g) 0) related |}.

End Evaluate.

(** Modelled from the spec: [Model::update()] is not under src/.  It
    recomputes the cached values of the objective and of the constraints
    from the values of the variables. *)
Definition expression_value (m : Model) (e : Expression) : Q :=
  match callback e with
  | Some f =>
      f (variable_values m)
        {| alterations := []; related_constraint_ptrs := [] |}
  | None =>
      map_fold (fun v a total => (total + a * inject_Z (current_value m v))%Q)
               (constant_value e) (sensitivities e)
  end.

Definition update_expression (m : Model) (e : Expression) : Expression :=
  {| sensitivities := sensitivities e;
     constant_value := constant_value e;
     value := expression_value m e;
     callback := callback e |}.

Definition update_constraint (m : Model) (c : Constraint) : Constraint :=
  let e := update_expression m (expression c) in
  {| expression := e;
     sense := sense c;
     is_enabled := is_enabled c;
     constraint_value := value e;
     violation_value := violation (sense c) (value e) |}.

Definition update (m : Model) : Model :=
  {| variable_values := variable_values m;
     objective := update_expression m (objective m);
     is_minimization := is_minimization m;
     constraint_proxies :=
       map (map (update_constraint m)) (constraint_proxies m) |}.

(** Modelled from the spec: [Model::update(move)] commits the alterations
    and refreshes the cached values. *)
Definition update_move (m : Model) (move : Move) : Model :=
  update
    {| variable_values :=
         fold_left (fun values a =>
                      alter (fun proxy => <[a.1.2 := a.2]> proxy) a.1.1 values)
                   (alterations move) (variable_values m);
       objective := objective m;
       is_minimization := is_minimization m;
       constraint_proxies := constraint_proxies m |}.

(** The empty move [{}]. *)
Definition empty_move : Move :=
  {| alterations := []; related_constraint_ptrs := [] |}.

(** The caches are up to date.  Violation parity: the cached violation of
    every enabled constraint is the violation of its cached constraint
    value; and the cached value of a callback constraint is the value of
    the callback at the current values. *)
Definition consistent (m : Model) : Prop :=
  forall gc, In gc (enabled_constraints m) ->
    (violation_value gc.2
     == violation (sense gc.2) (constraint_value gc.2))%Q /\
    forall f, callback (expression gc.2) = Some f ->
      (constraint_value gc.2 == f (variable_values m) empty_move)%Q.

(** A valid move: its set of constraint references has no duplicate and
    holds every enabled constraint that is a callback or in which an
    altered variable has a non-zero coefficient. *)
Definition valid_move (m : Model) (move : Move) : Prop :=
  NoDup (related_constraint_ptrs move) /\
  forall gc,
    In gc (enabled_constraints m) ->
    ~ In gc.1 (related_constraint_ptrs move) ->
    callback (expression gc.2) = None /\
    forall a, In a (alterations move) ->
      (coefficient (expression gc.2) a.1 == 0)%Q.

(** Field-wise equality of scores. *)
Definition score_eq (s1 s2 : SolutionScore) : Prop :=
  (SolutionScore.objective s1 == SolutionScore.objective s2)%Q /\
  (total_violation s1 == total_violation s2)%Q /\
  (local_penalty s1 == local_penalty s2)%Q /\
  (global_penalty s1 == global_penalty s2)%Q /\
  (local_augmented_objective s1 == local_augmented_objective s2)%Q /\
  (global_augmented_objective s1 == global_augmented_objective s2)%Q /\
  is_feasible s1 = is_feasible s2 /\
  is_objective_improvable s1 = is_objective_improvable s2 /\
  is_constraint_improvable s1 = is_constraint_improvable s2.

End Model.

(** * Concrete instances *)

Module Examples.
Import IncumbentHolder Solver.
Import Solution(Solution, variable_value_proxies, violation_value_proxies).

(** A memory of two variables after one update of each. *)
Definition two_updates : Memory.Memory :=
  Memory.update (Memory.setup ["x"%string] [2%nat])
         {| alterations := [((0%nat, 0%nat), 1); ((0%nat, 1%nat), 1)];
            related_constraint_ptrs := [] |} 0.

(** The doubles 0.5 and 0.3. *)
Definition half : SpecFloat.spec_float :=
  SpecFloat.S754_finite false 4503599627370496 (-53).

Definition three_tenths : SpecFloat.spec_float :=
  SpecFloat.S754_finite false 5404319552844595 (-54).

(** A memory of three variables after one update of each. *)
Definition three_updates : Memory.Memory :=
  Memory.update (Memory.setup ["x"%string] [3%nat])
         {| alterations :=
              [((0%nat, 0%nat), 1); ((0%nat, 1%nat), 1); ((0%nat, 2%nat), 1)];
            related_constraint_ptrs := [] |} 0.

(** A model of one constraint proxy; the state besides the latch is the
    vector of variable values. *)
Definition solution_of (values : list (list Z)) : Solution :=
  {| variable_value_proxies := values;
     violation_value_proxies := [[1; 0]]%Q;
     Solution.is_feasible := false |}.

Definition score_of (objective penalty : Q) : SolutionScore :=
  {| objective := objective;
     total_violation := 1;
     local_penalty := penalty;
     global_penalty := penalty;
     local_augmented_objective := objective + penalty;
     global_augmented_objective := objective + penalty;
     is_feasible := false;
     is_objective_improvable := false;
     is_constraint_improvable := false |}.

Definition EPSILON : Q := 1 / 100000.

Definition option_of (grouping : bool) : Option :=
  {| iteration_max := 1;
     time_max := 10;
     target_objective_value := -100;
     initial_penalty_coefficient := 100;
     penalty_coefficient_relaxing_rate := 1 / 2;
     penalty_coefficient_tightening_rate := 1;
     penalty_coefficient_updating_balance := 1 / 2;
     penalty_coefficient_reset_count_threshold := 3;
     is_enabled_grouping_penalty_coefficient := grouping;
     is_enabled_lagrange_dual := false;
     is_enabled_local_search := false;
     restart_mode := Global |}.

(** The holder after the initial solution (objective 3, penalty 2) has been
    presented. *)
Definition holder_5 : Holder :=
  (try_update_incumbent (new (solution_of [[0]]) (score_of 0 0))
     (solution_of [[0]]) (score_of 3 2)).2.

(** A search that finds nothing: it returns the holder it was given. *)
Definition idle_search (r : list (list Z)) (o : Option)
  (local global : list (list Q)) (initial : list (list Z)) (h : Holder)
  : SearchResult * list (list Z) :=
  ({| incumbent_holder := h |}, r).

(** A search that returns a given holder. *)
Definition search_returning (found : Holder) (r : list (list Z)) (o : Option)
  (local global : list (list Q)) (initial : list (list Z)) (h : Holder)
  : SearchResult * list (list Z) :=
  ({| incumbent_holder := found |}, r).

(** The holder of a search whose best solution under the local penalty
    coefficients has the local augmented objective 3 and is infeasible, and
    which has not improved the global augmented incumbent. *)
Definition holder_local_3 : Holder :=
  {| m_found_feasible_solution := false;
     m_local_augmented_incumbent_solution := solution_of [[1]];
     m_global_augmented_incumbent_solution := solution_of [[0]];
     m_feasible_incumbent_solution := solution_of [[0]];
     m_local_augmented_incumbent_objective := Finite 3;
     m_global_augmented_incumbent_objective := Finite 5;
     m_feasible_incumbent_objective := HUGE_VALF;
     m_local_augmented_incumbent_score := score_of 2 1;
     m_global_augmented_incumbent_score := score_of 3 2;
     m_feasible_incumbent_score := score_of 0 0 |}.

(** The holder of a search whose global augmented incumbent is the old one
    with a score computed under relaxed local penalty coefficients. *)
Definition holder_relaxed : Holder :=
  {| m_found_feasible_solution := false;
     m_local_augmented_incumbent_solution := solution_of [[0]];
     m_global_augmented_incumbent_solution := solution_of [[0]];
     m_feasible_incumbent_solution := solution_of [[0]];
     m_local_augmented_incumbent_objective := Finite 4;
     m_global_augmented_incumbent_objective := Finite 5;
     m_feasible_incumbent_objective := HUGE_VALF;
     m_local_augmented_incumbent_score := score_of 3 1;
     m_global_augmented_incumbent_score :=
       {| objective := 3;
          total_violation := 1;
          local_penalty := 1;
          global_penalty := 2;
          local_augmented_objective := 4;
          global_augmented_objective := 5;
          is_feasible := false;
          is_objective_improvable := false;
          is_constraint_improvable := false |};
     m_feasible_incumbent_score := score_of 0 0 |}.

Definition state_of (local : list (list Q)) (count : Z)
  : @LoopState (list (list Z)) :=
  {| loop_rest := [[0]];
     loop_incumbent_holder := holder_5;
     current_solution := solution_of [[0]];
     local_penalty_coefficient_proxies := local;
     global_penalty_coefficient_proxies := [[100; 100]]%Q;
     iteration := 0;
     not_update_count := count;
     penalty_coefficient_reset_flag := false |}.

(** The model of the test of [Model::evaluate]: ten binary variables [x],
    the objective [p = x.dot(sequence(10)) + 1], the constraints
    [g: x.sum() <= 5] and [h: x(0) + x(1) <= 1], every variable at 1. *)
Definition expression_of (coefficients : list Q) (constant : Q)
  : Model.Expression :=
  {| Model.sensitivities :=
       list_to_map (imap (fun i a => ((0%nat, i), a)) coefficients);
     Model.constant_value := constant;
     Model.value := 0;
     Model.callback := None |}.

Definition less_equal (e : Model.Expression) : Model.Constraint :=
  {| Model.expression := e;
     Model.sense := Model.LessEqual;
     Model.is_enabled := true;
     Model.constraint_value := 0;
     Model.violation_value := 0 |}.

Definition test_model (minimization : bool) : Model.Model :=
  Model.update
    {| Model.variable_values := [repeat 1 10];
       Model.objective := expression_of [0; 1; 2; 3; 4; 5; 6; 7; 8; 9]%Q 1;
       Model.is_minimization := minimization;
       Model.constraint_proxies :=
         [[less_equal (expression_of (repeat 1%Q 10) (-5))];
          [less_equal (expression_of [1; 1]%Q (-1))]] |}.

(** The moves of the test: every variable to [value], with the constraints
    of the variables. *)
Definition move_all (n : nat) (value : Z) : Move :=
  {| alterations := imap (fun i _ => ((0%nat, i), value)) (repeat tt n);
     related_constraint_ptrs := [(0%nat, 0%nat); (1%nat, 0%nat)] |}.

(** A rule for [is_objective_improvable] that gives the flags the test
    expects: the new value of the objective expression is below the old
    objective as minimization. *)
Definition test_objective_improvable (m : Model.Model) (move : Move) : bool :=
  Qltb (Model.value (Model.objective m)
        + Model.delta m (Model.objective m) move)%Q
       (Model.sign m * Model.value (Model.objective m))%Q.

Definition test_local : list (list Q) := [[100]; [100]]%Q.
Definition test_global : list (list Q) := [[10000]; [10000]]%Q.

(** The fields of a score, the rationals in lowest terms. *)
Definition fields (s : SolutionScore)
  : Q * Q * Q * Q * Q * Q * bool * bool * bool :=
  (Qred (objective s), Qred (total_violation s), Qred (local_penalty s),
   Qred (global_penalty s), Qred (local_augmented_objective s),
   Qred (global_augmented_objective s),
   is_objective_improvable s, is_constraint_improvable s, is_feasible s).

(** The three blocks of the test of [evaluate]: every variable to 1, every
    variable to 0, the first five variables to 1; each move is evaluated by
    both overloads and then committed. *)
Definition test_run (minimization : bool)
  : list (Q * Q * Q * Q * Q * Q * bool * bool * bool) :=
  let evaluate := Model.evaluate test_objective_improvable in
  let evaluate_delta := Model.evaluate_delta test_objective_improvable in
  let m0 := test_model minimization in
  let score_before := evaluate m0 Model.empty_move test_local test_global in
  let after_0 := evaluate m0 (move_all 10 1) test_local test_global in
  let after_1 :=
    evaluate_delta m0 (move_all 10 1) score_before test_local test_global in
  let m1 := Model.update_move m0 (move_all 10 1) in
  let after_2 := evaluate m1 (move_all 10 0) test_local test_global in
  let after_3 :=
    evaluate_delta m1 (move_all 10 0) after_1 test_local test_global in
  let m2 := Model.update_move m1 (move_all 10 0) in
  let after_4 := evaluate m2 (move_all 5 1) test_local test_global in
  let after_5 :=
    evaluate_delta m2 (move_all 5 1) after_3 test_local test_global in
  map fields [after_0; after_1; after_2; after_3; after_4; after_5].

Definition loop_with
  (search : list (list Z) -> Option -> list (list Q) -> list (list Q) ->
            list (list Z) -> Holder -> SearchResult * list (list Z))
  (o : Option) (st : LoopState) : Error * list (list Z) + LoopState :=
  loop_body EPSILON search (fun r _ => r) o st.

Definition solve_with
  (search : list (list Z) -> Option -> list (list Q) -> list (list Q) ->
            list (list Z) -> Holder -> SearchResult * list (list Z))
  (m : Model) (o : Option) : Model * (Error + @Result Solution) :=
  solve EPSILON
    (fun _ o => target_objective_value o)
    (fun _ r => (r, None))
    (fun _ c => [[c; c]])
    (fun r => r)
    solution_of
    (fun _ _ _ => score_of 3 2)
    (solution_of [[0]]) (score_of 0 0)
    (fun _ => false)
    (fun _ => 0%Q)
    idle_search idle_search search
    (fun r _ => r)
    (fun _ values => values)
    (fun _ s => s)
    m o.

(** The searches of [solve_with] and their history. *)
Definition search_with
  (search : list (list Z) -> Option -> list (list Q) -> list (list Q) ->
            list (list Z) -> Holder -> SearchResult * list (list Z))
  (o : Option) (r : list (list Z)) : Error * list (list Z) + LoopState :=
  Solver.search EPSILON
    (fun _ c => [[c; c]])
    (fun r => r)
    solution_of
    (fun _ _ _ => score_of 3 2)
    (solution_of [[0]]) (score_of 0 0)
    (fun _ => false)
    (fun _ => 0%Q)
    idle_search idle_search search
    (fun r _ => r)
    o r.

Definition history_with
  (search : list (list Z) -> Option -> list (list Q) -> list (list Q) ->
            list (list Z) -> Holder -> SearchResult * list (list Z))
  (o : Option) (r : list (list Z)) : list (Solution * SolutionScore) :=
  Solver.search_presented EPSILON
    (fun _ c => [[c; c]])
    (fun r => r)
    solution_of
    (fun _ _ _ => score_of 3 2)
    (solution_of [[0]]) (score_of 0 0)
    (fun _ => false)
    (fun _ => 0%Q)
    idle_search idle_search search
    (fun r _ => r)
    o r.

(** The array of the variables [g] of the test of [setup_unique_name]:
    [create_variables("g", {20, 30})]. *)
Definition grid : MultiArray.AbstractMultiArray :=
  {| MultiArray.m_id := 0;
     MultiArray.m_number_of_dimensions := 2;
     MultiArray.m_number_of_elements := 600;
     MultiArray.m_max_digits := 2;
     MultiArray.m_shape := [20; 30];
     MultiArray.m_strides := [30; 1] |}.

(** An option whose restart mode is no enumerator. *)
Definition option_other : Option :=
  {| iteration_max := 1;
     time_max := 10;
     target_objective_value := -100;
     initial_penalty_coefficient := 100;
     penalty_coefficient_relaxing_rate := 1 / 2;
     penalty_coefficient_tightening_rate := 1;
     penalty_coefficient_updating_balance := 1 / 2;
     penalty_coefficient_reset_count_threshold := 3;
     is_enabled_grouping_penalty_coefficient := false;
     is_enabled_lagrange_dual := false;
     is_enabled_local_search := false;
     restart_mode := Other |}.

(** An option that lets no search run. *)
Definition option_idle : Option :=
  {| iteration_max := 0;
     time_max := 10;
     target_objective_value := -100;
     initial_penalty_coefficient := 100;
     penalty_coefficient_relaxing_rate := 1 / 2;
     penalty_coefficient_tightening_rate := 1;
     penalty_coefficient_updating_balance := 1 / 2;
     penalty_coefficient_reset_count_threshold := 3;
     is_enabled_grouping_penalty_coefficient := false;
     is_enabled_lagrange_dual := false;
     is_enabled_local_search := false;
     restart_mode := Global |}.

End Examples.

(** * Binary64: rounding to nearest

    What [Floats.SpecFloat] computes, in terms of the real numbers the
    doubles stand for: the operations on positive normal numbers return
    the exact result rounded, within the relative error [u]. *)

Module Binary64Facts.
Import SpecFloat Binary64.

Lemma digits2_pos_bounds (m : positive) :
  2 ^ (Z.pos (digits2_pos m) - 1) <= Z.pos m < 2 ^ Z.pos (digits2_pos m).
Proof.
  induction m as [p IH|p IH|]; cbn [digits2_pos].
  - rewrite Pos2Z.inj_succ.
    replace (Z.succ (Z.pos (digits2_pos p)) - 1)
      with (Z.succ (Z.pos (digits2_pos p) - 1)) by lia.
    rewrite !Z.pow_succ_r by lia. lia.
  - rewrite Pos2Z.inj_succ.
    replace (Z.succ (Z.pos (digits2_pos p)) - 1)
      with (Z.succ (Z.pos (digits2_pos p) - 1)) by lia.
    rewrite !Z.pow_succ_r by lia. lia.
  - cbn. lia.
Qed.

Lemma digits2_pos_unique (m : positive) (d : Z) :
  2 ^ (d - 1) <= Z.pos m < 2 ^ d -> Z.pos (digits2_pos m) = d.
Proof.
  intros [Hl Hu]. pose proof (digits2_pos_bounds m) as [Hl' Hu'].
  assert (0 < d).
  { destruct (Z.ltb_spec 0 d) as [|Hd]; [assumption|].
    assert (2 ^ d <= 2 ^ 0) by (apply Z.pow_le_mono_r; lia).
    change (2 ^ 0) with 1 in *. lia. }
  assert (d - 1 < Z.pos (digits2_pos m)).
  { apply (Z.pow_lt_mono_r_iff 2); lia. }
  assert (Z.pos (digits2_pos m) - 1 < d).
  { apply (Z.pow_lt_mono_r_iff 2); lia. }
  lia.
Qed.

Lemma inbetween_bounds (N D m : Z) (r s : bool) :
  0 < D -> inbetween N D m r s -> m * D <= N < (m + 1) * D.
Proof.
  intros HD. destruct r, s; cbn; nia.
Qed.

Lemma shr_1_inbetween (N D : Z) (mrs : shr_record) :
  0 < D -> inbetween_record N D mrs ->
  inbetween_record N (2 * D) (shr_1 mrs).
Proof.
  intros HD [Hm H]. destruct mrs as [m r s]. cbn [shr_m shr_r shr_s] in *.
  unfold inbetween_record.
  destruct m as [|[p|p|]|p]; try lia; cbn [shr_1 shr_m shr_r shr_s];
    (split; [lia|]);
    destruct r, s; cbn [orb inbetween] in *; nia.
Qed.

Lemma iter_pos_inbetween (N : Z) (p : positive) :
  forall (D : Z) (mrs : shr_record),
  0 < D -> inbetween_record N D mrs ->
  inbetween_record N (D * 2 ^ Z.pos p) (iter_pos shr_1 p mrs).
Proof.
  induction p as [p IH|p IH|]; intros D mrs HD H; cbn [iter_pos].
  - apply shr_1_inbetween in H; [|exact HD].
    apply IH in H; [|lia]. apply IH in H; [|nia].
    replace (D * 2 ^ Z.pos p~1)
      with (2 * D * 2 ^ Z.pos p * 2 ^ Z.pos p); [exact H|].
    replace (Z.pos p~1) with (Z.pos p + Z.pos p + 1) by lia.
    rewrite !Z.pow_add_r by lia. change (2 ^ 1) with 2. lia.
  - apply IH in H; [|lia]. apply IH in H; [|nia].
    replace (D * 2 ^ Z.pos p~0) with (D * 2 ^ Z.pos p * 2 ^ Z.pos p);
      [exact H|].
    replace (Z.pos p~0) with (Z.pos p + Z.pos p) by lia.
    rewrite !Z.pow_add_r by lia. lia.
  - apply shr_1_inbetween in H; [|exact HD].
    now replace (D * 2 ^ 1) with (2 * D) by lia.
Qed.

Lemma fexp_eq (e : Z) : fexp 53 1024 e = Z.max (e - 53) (-1074).
Proof. reflexivity. Qed.

Lemma shr_inbetween (N D : Z) (mrs : shr_record) (e n : Z) :
  0 < D -> inbetween_record N D mrs ->
  inbetween_record N (D * 2 ^ Z.max 0 n) (shr mrs e n).1 /\
  (shr mrs e n).2 = e + Z.max 0 n.
Proof.
  intros HD H. destruct n as [|p|p]; cbn [shr fst snd].
  - change (2 ^ Z.max 0 0) with 1. rewrite Z.mul_1_r. split; [exact H|].
    change (Z.max 0 0) with 0. lia.
  - replace (Z.max 0 (Z.pos p)) with (Z.pos p) by lia.
    split; [now apply iter_pos_inbetween|reflexivity].
  - replace (Z.max 0 (Z.neg p)) with 0 by lia.
    change (2 ^ 0) with 1. rewrite Z.mul_1_r. split; [exact H|lia].
Qed.

Lemma round_nearest_even_inbetween (N D : Z) (mrs : shr_record) :
  0 < D -> inbetween_record N D mrs ->
  let m2 := round_nearest_even (shr_m mrs) (loc_of_shr_record mrs) in
  shr_m mrs <= m2 <= shr_m mrs + 1 /\
  Z.abs (2 * m2 * D - 2 * N) <= D.
Proof.
  intros HD [Hm H]. destruct mrs as [m r s]. cbn [shr_m shr_r shr_s] in *.
  destruct r, s; cbn [loc_of_shr_record round_nearest_even inbetween] in *.
  - split; [lia|nia].
  - destruct (Z.even m); split; try lia; nia.
  - split; [lia|nia].
  - split; [lia|nia].
Qed.

Lemma Zdigits2_bounds (m d : Z) :
  0 < d -> 2 ^ (d - 1) <= m < 2 ^ d -> Zdigits2 m = d.
Proof.
  intros Hd H. assert (0 < 2 ^ (d - 1)) by (apply Z.pow_pos_nonneg; lia).
  destruct m as [|p|p]; try lia. cbn [Zdigits2].
  now apply digits2_pos_unique.
Qed.

Lemma Zdigits2_pos (m : Z) :
  0 < Zdigits2 m -> 2 ^ (Zdigits2 m - 1) <= Z.abs m < 2 ^ Zdigits2 m.
Proof.
  destruct m as [|p|p]; cbn [Zdigits2 Z.abs]; try lia;
    intros _; apply digits2_pos_bounds.
Qed.

(** Rounding to nearest, ties to even, of a positive number whose
    truncated mantissa [mx] has 53 digits or more, in the range of the
    normal numbers. *)
Lemma binary_round_aux_normal (s : bool) (mx ex N D : Z) (lx : location) :
  0 < D ->
  inbetween_record N D (shr_record_of_loc mx lx) ->
  53 <= Zdigits2 mx ->
  -1074 <= ex + Zdigits2 mx - 53 < 971 ->
  exists (m3 : positive) (e3 m2 : Z),
    binary_round_aux 53 1024 s mx ex lx = S754_finite s m3 e3 /\
    2 ^ 52 <= Z.pos m3 < 2 ^ 53 /\
    (e3 = ex + Zdigits2 mx - 53 /\ Z.pos m3 = m2 \/
     e3 = ex + Zdigits2 mx - 53 + 1 /\ m2 = 2 ^ 53 /\ Z.pos m3 = 2 ^ 52) /\
    2 ^ 52 * (D * 2 ^ (Zdigits2 mx - 53)) <= N /\
    Z.abs (2 * m2 * (D * 2 ^ (Zdigits2 mx - 53)) - 2 * N)
      <= D * 2 ^ (Zdigits2 mx - 53).
Proof.
  intros HD Hin Hd Hrange. set (d := Zdigits2 mx) in *.
  assert (Hmx : 0 <= mx).
  { destruct Hin as [Hm _]. now destruct lx as [|[]]. }
  pose proof (Zdigits2_pos mx ltac:(fold d; lia)) as Hmxd. fold d in Hmxd.
  rewrite Z.abs_eq in Hmxd by exact Hmx.
  unfold binary_round_aux, shr_fexp. fold d.
  rewrite fexp_eq.
  replace (Z.max (d + ex - 53) (-1074) - ex) with (d - 53) by lia.
  pose proof (shr_inbetween N D (shr_record_of_loc mx lx) ex (d - 53) HD Hin)
    as [H1 He1].
  destruct (shr (shr_record_of_loc mx lx) ex (d - 53)) as [mrs' e'].
  cbn [fst snd] in H1, He1.
  replace (Z.max 0 (d - 53)) with (d - 53) in * by lia.
  set (P := 2 ^ (d - 53)) in *.
  assert (HP : 0 < P) by (apply Z.pow_pos_nonneg; lia).
  assert (Hd1 : 2 ^ (d - 1) = 2 ^ 52 * P).
  { unfold P. rewrite <- Z.pow_add_r by lia. f_equal. lia. }
  assert (Hd2 : 2 ^ d = 2 ^ 53 * P).
  { unfold P. rewrite <- Z.pow_add_r by lia. f_equal. lia. }
  assert (HN : mx * D <= N < (mx + 1) * D).
  { destruct Hin as [_ Hin]. eapply inbetween_bounds; [exact HD|].
    replace mx with (shr_m (shr_record_of_loc mx lx)) at 1; [exact Hin|].
    now destruct lx as [|[]]. }
  assert (HN1 : shr_m mrs' * (D * P) <= N < (shr_m mrs' + 1) * (D * P)).
  { destruct H1 as [_ H1]. eapply inbetween_bounds; [nia|exact H1]. }
  assert (HNl : 2 ^ 52 * (D * P) <= N) by nia.
  assert (HNu : N < 2 ^ 53 * (D * P)) by nia.
  assert (Hm1 : 2 ^ 52 <= shr_m mrs' < 2 ^ 53) by nia.
  pose proof (round_nearest_even_inbetween N (D * P) mrs' ltac:(nia) H1)
    as [Hm2 Herr].
  cbv zeta in Hm2, Herr.
  set (m2 := round_nearest_even (shr_m mrs') (loc_of_shr_record mrs')) in *.
  destruct (Z.eq_dec m2 (2 ^ 53)) as [E|E].
  - rewrite E. change (Zdigits2 (2 ^ 53)) with 54.
    rewrite fexp_eq. replace (Z.max (54 + e' - 53) (-1074) - e') with 1 by lia.
    cbn [shr shr_record_of_loc iter_pos shr_1 shr_m].
    replace (e' + 1 <=? 1024 - 53) with true by lia.
    exists (2 ^ 52)%positive, (e' + 1), m2.
    split; [reflexivity|]. split; [lia|]. split; [right; lia|].
    split; [exact HNl|exact Herr].
  - assert (Hd3 : Zdigits2 m2 = 53) by (apply Zdigits2_bounds; lia).
    rewrite Hd3, fexp_eq.
    replace (Z.max (53 + e' - 53) (-1074) - e') with 0 by lia.
    cbn [shr shr_record_of_loc shr_m].
    destruct m2 as [|q|q] eqn:Em2; try lia.
    replace (e' <=? 1024 - 53) with true by lia.
    exists q, e', (Z.pos q).
    split; [reflexivity|]. split; [lia|]. split; [left; lia|].
    split; [exact HNl|exact Herr].
Qed.

(** ** Powers of two in [Q] *)

Lemma pow2_pos (e : Z) : (0 < 2 ^ e)%Q.
Proof. now apply Qpower_0_lt. Qed.

Lemma pow2_add (a b : Z) : (2 ^ (a + b) == 2 ^ a * 2 ^ b)%Q.
Proof. now apply Qpower_plus. Qed.

Lemma pow2_Z (k : Z) : 0 <= k -> (inject_Z (2 ^ k) == 2 ^ k)%Q.
Proof. intros H. now rewrite Zpower_Qpower. Qed.

Lemma pow2_le (a b : Z) : a <= b -> (2 ^ a <= 2 ^ b)%Q.
Proof. intros H. now apply Qpower_le_compat_l. Qed.

Lemma pow2_lt_inv (a b : Z) : (2 ^ a < 2 ^ b)%Q -> a < b.
Proof. intros H. now apply (Qpower_lt_compat_l_inv 2). Qed.

(** A mantissa of [d] digits times a power of two. *)
Lemma mantissa_bounds (m d e : Z) :
  0 < d -> 2 ^ (d - 1) <= m < 2 ^ d ->
  (2 ^ (d - 1 + e) <= inject_Z m * 2 ^ e < 2 ^ (d + e))%Q.
Proof.
  intros Hd [Hl Hu]. rewrite !pow2_add.
  pose proof (pow2_pos e).
  rewrite Zle_Qle, pow2_Z in Hl by lia. rewrite Zlt_Qlt, pow2_Z in Hu by lia.
  split.
  - apply Qmult_le_compat_r; [exact Hl|lra].
  - apply Qmult_lt_compat_r; [lra|exact Hu].
Qed.

Lemma pow2_le_inv (a b : Z) : (2 ^ a <= 2 ^ b)%Q -> a <= b.
Proof. intros H. now apply (Qpower_le_compat_l_inv 2). Qed.

Lemma in_range_intro (a b : Z) (x : Q) :
  -1000 <= a -> b <= 1000 -> (2 ^ a <= x <= 2 ^ b)%Q -> in_range x.
Proof.
  intros Ha Hb [Hl Hu]. pose proof (pow2_le (-1000) a Ha).
  pose proof (pow2_le b 1000 Hb). split; lra.
Qed.

Lemma u_bounds : (0 < u /\ u <= 1 # 4)%Q.
Proof. split; [reflexivity|discriminate]. Qed.

(** The nearest integer to a number of [2 ^ 52] or more is within the
    relative error [u]. *)
Lemma nearest_relative (N D m2 : Z) :
  0 < D -> 2 ^ 52 * D <= N -> Z.abs (2 * m2 * D - 2 * N) <= D ->
  let y := (inject_Z N / inject_Z D)%Q in
  (y * (1 - u) <= inject_Z m2 <= y * (1 + u))%Q.
Proof.
  intros HD HN Herr y.
  assert (HDq : (0 < inject_Z D)%Q) by now rewrite <- (Zlt_Qlt 0).
  assert (Hy : (y * inject_Z D == inject_Z N)%Q).
  { unfold y. field. lra. }
  assert (H1 : 2 * m2 * D - 2 * N <= D) by lia.
  assert (H2 : - D <= 2 * m2 * D - 2 * N) by lia.
  rewrite Zle_Qle in HN, H1, H2.
  unfold Z.sub in H1, H2.
  rewrite ?inject_Z_plus, ?inject_Z_opp, ?inject_Z_mult in HN.
  rewrite ?inject_Z_plus, ?inject_Z_opp, ?inject_Z_mult in H1.
  rewrite ?inject_Z_plus, ?inject_Z_opp, ?inject_Z_mult in H2.
  change (inject_Z 2) with 2%Q in *.
  set (B := inject_Z (2 ^ 52)) in *.
  assert (HB : (u * B == 1 # 2)%Q) by reflexivity.
  set (Dq := inject_Z D) in *. set (mq := inject_Z m2) in *.
  set (Nq := inject_Z N) in *. clearbody y Dq mq Nq B.
  assert (Hy52 : (B <= y)%Q).
  { apply (Qmult_le_r _ _ Dq); [exact HDq|]. lra. }
  assert (Hl : (y - (1 # 2) <= mq)%Q).
  { apply (Qmult_le_r _ _ Dq); [exact HDq|]. lra. }
  assert (Hu : (mq <= y + (1 # 2))%Q).
  { apply (Qmult_le_r _ _ Dq); [exact HDq|]. lra. }
  assert (Hyu : ((1 # 2) <= y * u)%Q).
  { pose proof u_bounds. nra. }
  split; lra.
Qed.

Lemma Qdiv_mult_cancel (a d : Q) : (0 < d -> a / d * d == a)%Q.
Proof. intros H. field. lra. Qed.

(** Rounding to nearest in terms of the number rounded: under the
    hypotheses of [binary_round_aux_normal] the result is a normal number
    within the relative error [u], and it is the number itself when that
    has a mantissa of 53 digits. *)
Lemma binary_round_aux_Q (mx ex N D : Z) (lx : location) :
  0 < D ->
  inbetween_record N D (shr_record_of_loc mx lx) ->
  53 <= Zdigits2 mx ->
  let x := (inject_Z N / inject_Z D * 2 ^ ex)%Q in
  in_range x ->
  let r := binary_round_aux 53 1024 false mx ex lx in
  normal r /\ (x * (1 - u) <= to_Q r <= x * (1 + u))%Q /\
  (forall k : Z, N = k * (D * 2 ^ (Zdigits2 mx - 53)) -> (to_Q r == x)%Q).
Proof.
  intros HD Hin Hd x [Hlo Hhi] r. set (d := Zdigits2 mx) in *.
  assert (Hmx : 0 <= mx).
  { destruct Hin as [Hm _]. now destruct lx as [|[]]. }
  pose proof (Zdigits2_pos mx ltac:(fold d; lia)) as Hmxd. fold d in Hmxd.
  rewrite Z.abs_eq in Hmxd by exact Hmx.
  assert (HN : mx * D <= N < (mx + 1) * D).
  { destruct Hin as [_ Hin]. eapply inbetween_bounds; [exact HD|].
    replace mx with (shr_m (shr_record_of_loc mx lx)) at 1; [exact Hin|].
    now destruct lx as [|[]]. }
  assert (HDq : (0 < inject_Z D)%Q) by now rewrite <- (Zlt_Qlt 0).
  pose proof (pow2_pos ex) as Hex.
  assert (Hx : (inject_Z mx * 2 ^ ex <= x /\ x < inject_Z (mx + 1) * 2 ^ ex)%Q).
  { destruct HN as [HNl HNu].
    rewrite Zle_Qle, inject_Z_mult in HNl.
    rewrite Zlt_Qlt, inject_Z_mult in HNu.
    unfold x. split.
    - apply Qmult_le_compat_r; [|lra].
      apply (Qmult_le_r _ _ (inject_Z D)); [exact HDq|].
      now rewrite Qdiv_mult_cancel.
    - apply Qmult_lt_compat_r; [exact Hex|].
      apply (Qmult_lt_r _ _ (inject_Z D)); [exact HDq|].
      now rewrite Qdiv_mult_cancel. }
  assert (Hrange : -1074 <= ex + d - 53 < 971).
  { pose proof (mantissa_bounds mx d ex ltac:(lia) Hmxd) as [Hl Hu].
    assert (Hu' : (inject_Z (mx + 1) * 2 ^ ex <= 2 ^ (d + ex))%Q).
    { rewrite pow2_add. apply Qmult_le_compat_r; [|lra].
      rewrite <- pow2_Z by lia. rewrite <- Zle_Qle. lia. }
    assert (d - 1 + ex <= 1000) by (apply pow2_le_inv; lra).
    assert (-1000 < d + ex) by (apply pow2_lt_inv; lra).
    lia. }
  destruct (binary_round_aux_normal false mx ex N D lx HD Hin Hd Hrange)
    as (m3 & e3 & m2 & Hr & Hm3 & He3 & HNl & Herr).
  fold d in He3, HNl, Herr. subst r. rewrite Hr.
  set (P := 2 ^ (d - 53)) in *.
  assert (HP : 0 < P) by (apply Z.pow_pos_nonneg; lia).
  assert (HPq : (inject_Z P == 2 ^ (d - 53))%Q) by (apply pow2_Z; lia).
  assert (HPq0 : (0 < inject_Z P)%Q) by now rewrite <- (Zlt_Qlt 0).
  assert (He1 : (2 ^ (ex + d - 53) == 2 ^ ex * inject_Z P)%Q).
  { rewrite HPq, <- pow2_add.
    now replace (ex + (d - 53)) with (ex + d - 53) by lia. }
  assert (Hv : (to_Q (S754_finite false m3 e3)
                == inject_Z m2 * 2 ^ (ex + d - 53))%Q).
  { cbn [to_Q]. destruct He3 as [[-> ->]|(-> & -> & ->)]; [ring|].
    rewrite pow2_add. change (2 ^ 1)%Q with 2%Q.
    change (inject_Z (2 ^ 53)) with (inject_Z (2 ^ 52) * 2)%Q. ring. }
  assert (Hxy : (x == inject_Z N / inject_Z (D * P) * 2 ^ (ex + d - 53))%Q).
  { unfold x. rewrite He1, inject_Z_mult. field. lra. }
  pose proof (nearest_relative N (D * P) m2 ltac:(nia)
                ltac:(rewrite Z.mul_assoc in HNl; lia)
                ltac:(rewrite !Z.mul_assoc; rewrite !Z.mul_assoc in Herr; lia))
    as Hrel.
  cbv zeta in Hrel.
  pose proof (pow2_pos (ex + d - 53)) as He1pos.
  split; [cbn; lia|]. split.
  - rewrite Hv, Hxy.
    set (y := (inject_Z N / inject_Z (D * P))%Q) in *.
    set (t := (2 ^ (ex + d - 53))%Q) in *. clearbody y t. nra.
  - intros k Hk. rewrite Hv, Hxy.
    assert (m2 = k) by nia. subst m2. rewrite Hk.
    rewrite !inject_Z_mult. field. lra.
Qed.

Lemma Zdigits2_ge (m : Z) : 2 ^ 52 <= m -> 53 <= Zdigits2 m.
Proof.
  intros H. destruct m as [|p|p]; try lia. cbn [Zdigits2].
  pose proof (digits2_pos_bounds p) as [_ Hu].
  destruct (Z.ltb_spec (Z.pos (digits2_pos p)) 53) as [Hlt|]; [|assumption].
  assert (2 ^ Z.pos (digits2_pos p) <= 2 ^ 52)
    by (apply Z.pow_le_mono_r; lia).
  lia.
Qed.

Lemma shl_align_spec (mx : positive) (ex ex' : Z) :
  (shl_align mx ex ex').2 = Z.min ex ex' /\
  Z.pos (shl_align mx ex ex').1
  = Z.pos mx * 2 ^ (ex - Z.min ex ex').
Proof.
  unfold shl_align. destruct (ex' - ex) as [|p|p] eqn:E; cbn [fst snd].
  - replace (Z.min ex ex') with ex by lia.
    rewrite Z.sub_diag. change (2 ^ 0) with 1. lia.
  - replace (Z.min ex ex') with ex by lia.
    rewrite Z.sub_diag. change (2 ^ 0) with 1. lia.
  - replace (Z.min ex ex') with ex' by lia. split; [reflexivity|].
    replace (ex - ex') with (Z.pos p) by lia.
    change (Pos.iter xO mx p) with (shift_pos p mx).
    rewrite shift_pos_correct. change (Z.pow_pos 2 p) with (2 ^ Z.pos p). lia.
Qed.

(** [binary_round]: the rounding of [mx * 2 ^ ex]. *)
Lemma binary_round_Q (mx : positive) (ex : Z) :
  let x := (inject_Z (Z.pos mx) * 2 ^ ex)%Q in
  in_range x ->
  let r := binary_round 53 1024 false mx ex in
  normal r /\ (x * (1 - u) <= to_Q r <= x * (1 + u))%Q /\
  (Z.pos mx < 2 ^ 53 -> (to_Q r == x)%Q).
Proof.
  intros x Hx r. subst r. unfold binary_round.
  pose proof (digits2_pos_bounds mx) as Hd.
  set (d := Z.pos (digits2_pos mx)) in *.
  assert (Hrange : -1000 < d + ex).
  { destruct Hx as [Hlo _]. unfold x in Hlo.
    pose proof (mantissa_bounds (Z.pos mx) d ex ltac:(lia) Hd) as [_ Hu].
    apply pow2_lt_inv; lra. }
  pose proof (shl_align_spec mx ex (fexp 53 1024 (d + ex))) as [He Hm].
  destruct (shl_align mx ex (fexp 53 1024 (d + ex))) as [mz ez].
  cbn [fst snd] in He, Hm. rewrite fexp_eq in He.
  set (k := ex - ez).
  assert (Hk : 0 <= k) by lia.
  assert (Hmz : Z.pos mz = Z.pos mx * 2 ^ k) by (unfold k; now rewrite He).
  assert (Hdz : Zdigits2 (Z.pos mz) = d + k).
  { apply Zdigits2_bounds; [lia|]. rewrite Hmz.
    replace (d + k - 1) with (d - 1 + k) by lia.
    rewrite !Z.pow_add_r by lia.
    assert (0 < 2 ^ k) by (apply Z.pow_pos_nonneg; lia). nia. }
  assert (Hxz : (inject_Z (Z.pos mz) / inject_Z 1 * 2 ^ ez == x)%Q).
  { assert (E : (2 ^ ex == 2 ^ k * 2 ^ ez)%Q).
    { rewrite <- pow2_add. now replace (k + ez) with ex by lia. }
    unfold x. rewrite Hmz, inject_Z_mult, pow2_Z, E by lia.
    change (inject_Z 1) with 1%Q. field. }
  assert (Hin : inbetween_record (Z.pos mz) 1
                  (shr_record_of_loc (Z.pos mz) loc_Exact)).
  { split; cbn; lia. }
  assert (Hd53 : 53 <= Zdigits2 (Z.pos mz)).
  { rewrite Hdz. lia. }
  pose proof (binary_round_aux_Q (Z.pos mz) ez (Z.pos mz) 1 loc_Exact
                ltac:(lia) Hin Hd53) as H.
  cbv zeta in H.
  assert (Hx' : in_range (inject_Z (Z.pos mz) / inject_Z 1 * 2 ^ ez)).
  { unfold in_range. now rewrite Hxz. }
  destruct (H Hx') as (Hn & Henc & Hexact). rewrite Hxz in Henc.
  split; [exact Hn|]. split; [exact Henc|].
  intros Hlt. rewrite <- Hxz. apply (Hexact (Z.pos mz)).
  rewrite Hdz.
  assert (d <= 53).
  { destruct (Z.leb_spec d 53) as [|Hgt]; [assumption|].
    assert (2 ^ 53 <= 2 ^ (d - 1)) by (apply Z.pow_le_mono_r; lia). lia. }
  replace (d + k - 53) with 0 by lia. change (2 ^ 0) with 1. lia.
Qed.

(** ** The operations on positive normal numbers *)

Lemma normal_to_Q (x : spec_float) :
  normal x ->
  exists (m : positive) (e : Z),
    x = S754_finite false m e /\ 2 ^ 52 <= Z.pos m < 2 ^ 53 /\
    -1074 <= e <= 971 /\ (to_Q x == inject_Z (Z.pos m) * 2 ^ e)%Q.
Proof.
  destruct x as [| | |[|] m e]; cbn [normal]; try easy.
  intros [Hm He]. exists m, e. split; [reflexivity|].
  split; [exact Hm|]. split; [exact He|]. cbn [to_Q]. ring.
Qed.

Lemma normal_pos (x : spec_float) : normal x -> (0 < to_Q x)%Q.
Proof.
  intros (m & e & -> & Hm & _ & ->)%normal_to_Q.
  apply Qmult_lt_0_compat; [|apply pow2_pos].
  now rewrite <- (Zlt_Qlt 0).
Qed.

(** The conversion of a positive integer of less than 54 bits is exact. *)
Lemma binary64_of_Z_Q (c : Z) :
  0 < c < 2 ^ 53 ->
  normal (binary64_of_Z c) /\ (to_Q (binary64_of_Z c) == inject_Z c)%Q.
Proof.
  intros [H0 H53]. destruct c as [|p|p]; try lia.
  unfold binary64_of_Z. cbn [binary_normalize].
  assert (Hc : (1 <= inject_Z (Z.pos p) <= 2 ^ 53)%Q).
  { rewrite <- pow2_Z by lia. change 1%Q with (inject_Z 1).
    rewrite <- !Zle_Qle. lia. }
  pose proof (binary_round_Q p 0) as H. cbv zeta in H.
  assert (E : (inject_Z (Z.pos p) * 2 ^ 0 == inject_Z (Z.pos p))%Q).
  { change (2 ^ 0)%Q with 1%Q. ring. }
  assert (Hr : in_range (inject_Z (Z.pos p) * 2 ^ 0)).
  { unfold in_range. rewrite E.
    pose proof (pow2_le (-1000) 0 ltac:(lia)).
    pose proof (pow2_le 53 1000 ltac:(lia)).
    change (2 ^ 0)%Q with 1%Q in *. lra. }
  destruct (H Hr) as (Hn & _ & Hexact).
  split; [exact Hn|]. now rewrite (Hexact H53), E.
Qed.

Lemma SFmul_Q (x y : spec_float) :
  normal x -> normal y -> in_range (to_Q x * to_Q y) ->
  normal (SFmul 53 1024 x y) /\
  (to_Q x * to_Q y * (1 - u) <= to_Q (SFmul 53 1024 x y)
   <= to_Q x * to_Q y * (1 + u))%Q.
Proof.
  intros (mx & ex & -> & Hmx & Hex & Hx)%normal_to_Q
         (my & ey & -> & Hmy & Hey & Hy)%normal_to_Q Hr.
  cbn [SFmul xorb].
  assert (Hin : inbetween_record (Z.pos (mx * my)) 1
                  (shr_record_of_loc (Z.pos (mx * my)) loc_Exact)).
  { split; cbn; lia. }
  assert (Hd : 53 <= Zdigits2 (Z.pos (mx * my))).
  { apply Zdigits2_ge. rewrite Pos2Z.inj_mul. nia. }
  assert (E : (inject_Z (Z.pos (mx * my)) / inject_Z 1 * 2 ^ (ex + ey)
               == to_Q (S754_finite false mx ex)
                  * to_Q (S754_finite false my ey))%Q).
  { rewrite Hx, Hy, Pos2Z.inj_mul, inject_Z_mult, pow2_add.
    change (inject_Z 1) with 1%Q. field. }
  pose proof (binary_round_aux_Q (Z.pos (mx * my)) (ex + ey)
                (Z.pos (mx * my)) 1 loc_Exact ltac:(lia) Hin Hd) as H.
  cbv zeta in H.
  assert (Hr' : in_range (inject_Z (Z.pos (mx * my)) / inject_Z 1
                          * 2 ^ (ex + ey))).
  { unfold in_range. now rewrite E. }
  destruct (H Hr') as (Hn & Henc & _). rewrite E in Henc. now split.
Qed.

Lemma SFadd_Q (x y : spec_float) :
  normal x -> normal y -> in_range (to_Q x + to_Q y) ->
  normal (SFadd 53 1024 x y) /\
  ((to_Q x + to_Q y) * (1 - u) <= to_Q (SFadd 53 1024 x y)
   <= (to_Q x + to_Q y) * (1 + u))%Q.
Proof.
  intros (mx & ex & -> & Hmx & Hex & Hx)%normal_to_Q
         (my & ey & -> & Hmy & Hey & Hy)%normal_to_Q Hr.
  cbn [SFadd cond_Zopp].
  pose proof (shl_align_spec mx ex (Z.min ex ey)) as [_ H1].
  pose proof (shl_align_spec my ey (Z.min ex ey)) as [_ H2].
  replace (Z.min ex (Z.min ex ey)) with (Z.min ex ey) in H1 by lia.
  replace (Z.min ey (Z.min ex ey)) with (Z.min ex ey) in H2 by lia.
  set (ez := Z.min ex ey) in *.
  set (a := (shl_align mx ex ez).1) in *.
  set (b := (shl_align my ey ez).1) in *.
  change (Z.pos a + Z.pos b) with (Z.pos (a + b)).
  cbn [binary_normalize].
  assert (E : (inject_Z (Z.pos (a + b)) * 2 ^ ez
               == to_Q (S754_finite false mx ex)
                  + to_Q (S754_finite false my ey))%Q).
  { rewrite Hx, Hy, Pos2Z.inj_add, inject_Z_plus, H1, H2, !inject_Z_mult.
    rewrite !pow2_Z by lia.
    assert (E1 : (2 ^ ex == 2 ^ (ex - ez) * 2 ^ ez)%Q).
    { rewrite <- pow2_add. now replace (ex - ez + ez) with ex by lia. }
    assert (E2 : (2 ^ ey == 2 ^ (ey - ez) * 2 ^ ez)%Q).
    { rewrite <- pow2_add. now replace (ey - ez + ez) with ey by lia. }
    rewrite E1, E2. ring. }
  pose proof (binary_round_Q (a + b) ez) as H. cbv zeta in H.
  assert (Hr' : in_range (inject_Z (Z.pos (a + b)) * 2 ^ ez)).
  { unfold in_range. now rewrite E. }
  destruct (H Hr') as (Hn & Henc & _). rewrite E in Henc. now split.
Qed.

Lemma new_location_inbetween (q r D : Z) :
  0 <= q -> 0 <= r < D ->
  inbetween_record (q * D + r) D (shr_record_of_loc q (new_location D r)).
Proof.
  intros Hq Hr. unfold new_location.
  destruct (Z.even D) eqn:Heven.
  - unfold new_location_even.
    destruct (Z.eqb_spec r 0) as [->|Hr0]; [split; cbn; lia|].
    destruct (Z.compare_spec (2 * r) D); split; cbn; lia.
  - unfold new_location_odd.
    destruct (Z.eqb_spec r 0) as [->|Hr0]; [split; cbn; lia|].
    assert (Hodd : Z.odd D = true) by now rewrite <- Z.negb_even, Heven.
    apply Z.odd_spec in Hodd as [k Hk].
    destruct (Z.compare_spec (2 * r + 1) D); split; cbn; lia.
Qed.

Lemma SFdiv_Q (x y : spec_float) :
  normal x -> normal y -> in_range (to_Q x / to_Q y) ->
  normal (SFdiv 53 1024 x y) /\
  (to_Q x / to_Q y * (1 - u) <= to_Q (SFdiv 53 1024 x y)
   <= to_Q x / to_Q y * (1 + u))%Q /\
  (x = y -> (to_Q (SFdiv 53 1024 x y) == 1)%Q).
Proof.
  intros Hnx Hny Hr.
  pose proof (normal_pos x Hnx) as Hxpos.
  pose proof (normal_pos y Hny) as Hypos.
  destruct (normal_to_Q x Hnx) as (mx & ex & -> & Hmx & Hex & Hx).
  destruct (normal_to_Q y Hny) as (my & ey & -> & Hmy & Hey & Hy).
  set (xq := to_Q (S754_finite false mx ex)) in *.
  set (yq := to_Q (S754_finite false my ey)) in *.
  assert (Hexp : -1001 < ex - ey < 1001).
  { pose proof (mantissa_bounds (Z.pos mx) 53 ex ltac:(lia) Hmx) as [Hxl Hxu].
    pose proof (mantissa_bounds (Z.pos my) 53 ey ltac:(lia) Hmy) as [Hyl Hyu].
    rewrite <- Hx in Hxl, Hxu. rewrite <- Hy in Hyl, Hyu.
    destruct Hr as [Hlo Hhi].
    assert (Et : (xq == xq / yq * yq)%Q) by (field; lra).
    set (t := (xq / yq)%Q) in *. clearbody t.
    pose proof (pow2_pos (-1000)).
    assert (H1 : (2 ^ (-1000 + (53 - 1 + ey)) < 2 ^ (53 + ex))%Q).
    { rewrite pow2_add. nra. }
    assert (H2 : (2 ^ (53 - 1 + ex) < 2 ^ (1000 + (53 + ey)))%Q).
    { rewrite (pow2_add 1000). pose proof (pow2_pos 1000). nra. }
    apply pow2_lt_inv in H1, H2. lia. }
  cbn [SFdiv xorb]. unfold SFdiv_core_binary. cbn [Zdigits2].
  rewrite (digits2_pos_unique mx 53), (digits2_pos_unique my 53) by lia.
  cbv zeta. rewrite fexp_eq.
  replace (Z.min (Z.max (53 + ex - (53 + ey) - 53) (-1074)) (ex - ey))
    with (ex - ey - 53) by lia.
  replace (ex - ey - (ex - ey - 53)) with 53 by lia.
  rewrite Z.shiftl_mul_pow2 by lia.
  pose proof (Z_div_mod (Z.pos mx * 2 ^ 53) (Z.pos my) ltac:(lia)) as Hdiv.
  destruct (Z.div_eucl (Z.pos mx * 2 ^ 53) (Z.pos my)) as [q r].
  destruct Hdiv as [Hdiv Hrem].
  assert (Hq : 2 ^ 52 <= q) by nia.
  pose proof (new_location_inbetween q r (Z.pos my) ltac:(lia) Hrem) as Hin.
  replace (q * Z.pos my + r) with (Z.pos mx * 2 ^ 53) in Hin by lia.
  pose proof (binary_round_aux_Q q (ex - ey - 53) (Z.pos mx * 2 ^ 53)
                (Z.pos my) (new_location (Z.pos my) r) ltac:(lia) Hin
                (Zdigits2_ge q Hq)) as H.
  cbv zeta in H.
  assert (E : (inject_Z (Z.pos mx * 2 ^ 53) / inject_Z (Z.pos my)
               * 2 ^ (ex - ey - 53) == xq / yq)%Q).
  { rewrite Hx, Hy, inject_Z_mult, pow2_Z by lia.
    assert (E1 : (2 ^ ex == 2 ^ (ex - ey - 53) * 2 ^ ey * 2 ^ 53)%Q).
    { rewrite <- !pow2_add.
      now replace (ex - ey - 53 + ey + 53) with ex by lia. }
    rewrite E1. pose proof (pow2_pos ey). pose proof (pow2_pos 53).
    assert (0 < inject_Z (Z.pos my))%Q by now rewrite <- (Zlt_Qlt 0).
    field. split; lra. }
  assert (Hr' : in_range (inject_Z (Z.pos mx * 2 ^ 53) / inject_Z (Z.pos my)
                          * 2 ^ (ex - ey - 53))).
  { unfold in_range. now rewrite E. }
  destruct (H Hr') as (Hn & Henc & Hexact). rewrite E in Henc.
  split; [exact Hn|]. split; [exact Henc|].
  intros [= <- <-]. rewrite (Hexact (2 ^ 52)).
  - rewrite E. subst xq yq. field. lra.
  - assert (q = 2 ^ 53) by nia. subst q. change (Zdigits2 (2 ^ 53)) with 54.
    change (2 ^ (54 - 53)) with 2. lia.
Qed.

(** ** Rounding in any range *)

Lemma Zdigits2_le (m J : Z) : 0 <= J -> 0 <= m < 2 ^ J -> Zdigits2 m <= J.
Proof.
  intros HJ [H0 H]. destruct m as [|p|p]; cbn [Zdigits2]; try lia.
  pose proof (digits2_pos_bounds p) as [Hl _].
  destruct (Z.leb_spec (Z.pos (digits2_pos p)) J) as [|Hgt]; [assumption|].
  assert (2 ^ J <= 2 ^ (Z.pos (digits2_pos p) - 1))
    by (apply Z.pow_le_mono_r; lia).
  lia.
Qed.

(** Rounding to nearest of any positive number below the overflow
    threshold: the result stands for [m2 * 2 ^ e1], with [m2] an integer
    nearest to the number divided by [2 ^ e1]. *)
Lemma binary_round_aux_nearest (s : bool) (mx ex N D : Z) (lx : location) :
  0 < D ->
  inbetween_record N D (shr_record_of_loc mx lx) ->
  0 < mx ->
  let e1 := Z.max ex (fexp 53 1024 (Zdigits2 mx + ex)) in
  e1 < 971 ->
  exists m2 : Z,
    0 <= m2 /\
    Z.abs (2 * m2 * (D * 2 ^ (e1 - ex)) - 2 * N) <= D * 2 ^ (e1 - ex) /\
    (m2 = 0 /\ binary_round_aux 53 1024 s mx ex lx = S754_zero s \/
     exists (m3 : positive) (e3 : Z),
       binary_round_aux 53 1024 s mx ex lx = S754_finite s m3 e3 /\
       (e3 = e1 /\ Z.pos m3 = m2 \/
        e3 = e1 + 1 /\ m2 = 2 ^ 53 /\ Z.pos m3 = 2 ^ 52)).
Proof.
  intros HD Hin Hmx e1 He1. set (d := Zdigits2 mx) in *.
  assert (Hd : 0 < d) by (unfold d; now destruct mx).
  pose proof (Zdigits2_pos mx Hd) as Hmxd. fold d in Hmxd.
  rewrite Z.abs_eq in Hmxd by lia.
  subst e1. rewrite fexp_eq in He1 |- *.
  set (e1 := Z.max ex (Z.max (d + ex - 53) (-1074))) in *.
  unfold binary_round_aux, shr_fexp. fold d. rewrite fexp_eq.
  pose proof (shr_inbetween N D (shr_record_of_loc mx lx) ex
                (Z.max (d + ex - 53) (-1074) - ex) HD Hin) as [H1 He'].
  destruct (shr (shr_record_of_loc mx lx) ex
              (Z.max (d + ex - 53) (-1074) - ex)) as [mrs' e'].
  cbn [fst snd] in H1, He'.
  replace (Z.max 0 (Z.max (d + ex - 53) (-1074) - ex)) with (e1 - ex)
    in * by lia.
  replace (ex + (e1 - ex)) with e1 in He' by lia. subst e'.
  set (k := e1 - ex) in *. assert (Hk : 0 <= k) by lia.
  set (P := 2 ^ k) in *.
  assert (HP : 0 < P) by (apply Z.pow_pos_nonneg; lia).
  assert (HN : mx * D <= N < (mx + 1) * D).
  { destruct Hin as [_ Hin]. eapply inbetween_bounds; [exact HD|].
    replace mx with (shr_m (shr_record_of_loc mx lx)) at 1; [exact Hin|].
    now destruct lx as [|[]]. }
  assert (HN1 : shr_m mrs' * (D * P) <= N < (shr_m mrs' + 1) * (D * P)).
  { destruct H1 as [_ H1]. eapply inbetween_bounds; [nia|exact H1]. }
  assert (Hm1 : 0 <= shr_m mrs') by apply H1.
  set (J := Z.max 0 (d - k)).
  assert (HJ : 0 <= J <= 53) by lia.
  assert (Hm1J : shr_m mrs' < 2 ^ J).
  { destruct (Z.leb_spec k d) as [Hkd|Hkd].
    - replace J with (d - k) by lia.
      assert (E : 2 ^ d = 2 ^ (d - k) * P).
      { unfold P. rewrite <- Z.pow_add_r by lia. f_equal. lia. }
      assert (0 < 2 ^ (d - k)) by (apply Z.pow_pos_nonneg; lia). nia.
    - replace J with 0 by lia. change (2 ^ 0) with 1.
      assert (2 ^ d <= P) by (apply Z.pow_le_mono_r; lia). nia. }
  pose proof (round_nearest_even_inbetween N (D * P) mrs' ltac:(nia) H1)
    as [Hm2 Herr].
  cbv zeta in Hm2, Herr.
  set (m2 := round_nearest_even (shr_m mrs') (loc_of_shr_record mrs')) in *.
  assert (HJ53 : 2 ^ J <= 2 ^ 53) by (apply Z.pow_le_mono_r; lia).
  exists m2. split; [lia|]. split; [exact Herr|].
  destruct (Z.eq_dec m2 (2 ^ 53)) as [E|E].
  - right. rewrite E. change (Zdigits2 (2 ^ 53)) with 54.
    rewrite fexp_eq. replace (Z.max (54 + e1 - 53) (-1074) - e1) with 1 by lia.
    cbn [shr shr_record_of_loc iter_pos shr_1 shr_m].
    replace (e1 + 1 <=? 1024 - 53) with true by lia.
    exists (2 ^ 52)%positive, (e1 + 1). split; [reflexivity|]. right. lia.
  - assert (Hdm : Zdigits2 m2 <= 53) by (apply Zdigits2_le; lia).
    rewrite fexp_eq.
    assert (Hn2 : Z.max (Zdigits2 m2 + e1 - 53) (-1074) - e1 <= 0) by lia.
    assert (Hshr : shr (shr_record_of_loc m2 loc_Exact) e1
                     (Z.max (Zdigits2 m2 + e1 - 53) (-1074) - e1)
                   = (shr_record_of_loc m2 loc_Exact, e1)).
    { destruct (Z.max (Zdigits2 m2 + e1 - 53) (-1074) - e1);
        [reflexivity|lia|reflexivity]. }
    rewrite Hshr. cbn [shr_record_of_loc shr_m].
    destruct m2 as [|q|q] eqn:Em2; try lia.
    + left. now split.
    + right. replace (e1 <=? 1024 - 53) with true by lia.
      exists q, e1. split; [reflexivity|]. left. now split.
Qed.

(** A number that is at most 1, in integers. *)
Lemma to_Q_le_1 (m : positive) (e : Z) :
  (to_Q (S754_finite false m e) <= 1)%Q -> e <= 0 /\ Z.pos m <= 2 ^ (- e).
Proof.
  cbn [to_Q]. intros H.
  assert (Hm : (1 <= inject_Z (Z.pos m))%Q) by (rewrite <- (Zle_Qle 1); lia).
  pose proof (pow2_pos e) as He.
  assert (He1 : (2 ^ e <= 2 ^ 0)%Q) by (change (2 ^ 0)%Q with 1%Q; nra).
  apply pow2_le_inv in He1. split; [exact He1|].
  assert (E : (2 ^ e * 2 ^ (- e) == 1)%Q).
  { rewrite <- pow2_add. now replace (e + - e) with 0 by lia. }
  pose proof (pow2_pos (- e)) as He'.
  rewrite Zle_Qle, pow2_Z by lia.
  apply (Qmult_le_r _ _ (2 ^ e)); [exact He|]. 
  setoid_replace (2 ^ (- e) * 2 ^ e)%Q with 1%Q using relation Qeq
    by (rewrite <- E; ring).
  lra.
Qed.

(** The product of a double from 0 to 1 and an integer of less than 31
    bits, as an integer: it is not above the integer. *)
Lemma SFmul_unit_truncate (r : spec_float) (N : Z) :
  in_unit_interval r -> 0 <= N < 2 ^ 30 ->
  let p := SFmul 53 1024 r (binary64_of_Z N) in
  is_finite p = true /\ 0 <= truncate p <= N.
Proof.
  intros Hr [HN0 HN] p. subst p.
  destruct (Z.eq_dec N 0) as [->|HN1].
  { change (binary64_of_Z 0) with (S754_zero false).
    destruct r as [| | |[|]]; cbn in Hr |- *; try easy; lia. }
  assert (H53 : 2 ^ 30 < 2 ^ 53) by reflexivity.
  destruct (binary64_of_Z_Q N ltac:(lia)) as [Hn HvN].
  destruct (normal_to_Q _ Hn) as (mN & eN & EN & HmN & HeN & HvN').
  assert (HvN2 : (inject_Z (Z.pos mN) * 2 ^ eN == inject_Z N)%Q)
    by now rewrite <- HvN'.
  clear HvN HvN'. rename HvN2 into HvN. rewrite EN. clear EN Hn.
  assert (HeN0 : eN < 0).
  { pose proof (mantissa_bounds (Z.pos mN) 53 eN ltac:(lia) HmN) as [Hl _].
    rewrite HvN in Hl.
    assert (Hlt : (inject_Z N < 2 ^ 30)%Q).
    { rewrite <- pow2_Z by lia. rewrite <- Zlt_Qlt. exact HN. }
    assert (H' : (2 ^ (53 - 1 + eN) < 2 ^ 30)%Q) by lra.
    apply pow2_lt_inv in H'. lia. }
  assert (EmN : Z.pos mN = N * 2 ^ (- eN)).
  { assert (E : (2 ^ eN * 2 ^ (- eN) == 1)%Q).
    { rewrite <- pow2_add. now replace (eN + - eN) with 0 by lia. }
    apply inject_Z_injective. rewrite inject_Z_mult, pow2_Z by lia.
    rewrite <- HvN. rewrite <- Qmult_assoc, E. ring. }
  destruct r as [sr| | |[|] mr er]; cbn [in_unit_interval] in Hr;
    try contradiction.
  { cbn. split; [reflexivity|lia]. }
  apply to_Q_le_1 in Hr as [Her Hmr].
  cbn [SFmul xorb].
  set (mx := Z.pos (mr * mN)). set (ex := er + eN).
  assert (Hmx : 0 < mx) by (unfold mx; lia).
  assert (Hmxle : mx <= N * 2 ^ (- ex)).
  { unfold mx, ex. rewrite Pos2Z.inj_mul, EmN.
    replace (- (er + eN)) with (- er + - eN) by lia.
    rewrite Z.pow_add_r by lia.
    assert (0 < 2 ^ (- eN)) by (apply Z.pow_pos_nonneg; lia). nia. }
  assert (Hin : inbetween_record mx 1 (shr_record_of_loc mx loc_Exact)).
  { split; cbn; lia. }
  pose proof (Zdigits2_pos mx ltac:(unfold mx; cbn; lia)) as Hd.
  rewrite Z.abs_eq in Hd by lia.
  set (d := Zdigits2 mx) in *.
  assert (Hdex : d + ex <= 30).
  { assert (Hlt : 2 ^ (d - 1) < 2 ^ (30 - ex)).
    { replace (30 - ex) with (30 + - ex) by lia.
      rewrite (Z.pow_add_r 2 30) by lia.
      assert (0 < 2 ^ (- ex)) by (apply Z.pow_pos_nonneg; lia). nia. }
    apply Z.pow_lt_mono_r_iff in Hlt; lia. }
  pose proof (binary_round_aux_nearest false mx ex mx 1 loc_Exact
                ltac:(lia) Hin Hmx) as H.
  cbv zeta in H. fold d in H. rewrite fexp_eq in H.
  set (e1 := Z.max ex (Z.max (d + ex - 53) (-1074))) in *.
  destruct (H ltac:(lia)) as (m2 & Hm2 & Herr & Hres).
  rewrite Z.mul_1_l in Herr.
  set (P := 2 ^ (e1 - ex)) in *.
  assert (HP : 0 < P) by (apply Z.pow_pos_nonneg; lia).
  assert (EP : 2 ^ (- ex) = 2 ^ (- e1) * P).
  { unfold P. rewrite <- Z.pow_add_r by lia. f_equal. lia. }
  assert (HB : m2 <= 2 ^ (- e1) * N).
  { assert (0 < 2 ^ (- e1)) by (apply Z.pow_pos_nonneg; lia). nia. }
  assert (Htr : 0 <= Z.shiftl m2 e1 <= N).
  { split; [now apply Z.shiftl_nonneg|].
    rewrite Z.shiftl_div_pow2 by lia.
    apply Z.div_le_upper_bound; [apply Z.pow_pos_nonneg; lia|exact HB]. }
  destruct Hres as [[-> ->]|(m3 & e3 & -> & [[-> E3]|(-> & E2 & E3)])].
  - cbn. split; [reflexivity|lia].
  - cbn [is_finite truncate cond_Zopp]. split; [reflexivity|].
    now rewrite E3.
  - cbn [is_finite truncate cond_Zopp]. split; [reflexivity|].
    rewrite E3. replace (e1 + 1) with (1 + e1) by lia.
    rewrite <- Z.shiftl_shiftl by lia. now rewrite E2 in Htr.
Qed.

End Binary64Facts.

(** * Properties of Memory *)

Module MemoryFacts.
Import Memory.
Import SpecFloat Binary64 Binary64Facts.
Import Examples(two_updates, three_updates).

Lemma lookup2_alter {A : Type} (g : A -> A) (l : list (list A)) (u v : Index) :
  lookup2 (alter (fun proxy => alter g u.2 proxy) u.1 l) v
  = if decide (u = v) then g <$> lookup2 l v else lookup2 l v.
Proof.
  destruct u as [p f], v as [p' f']. unfold lookup2. cbn [fst snd].
  rewrite list_lookup_alter.
  destruct (decide (p = p')) as [->|Hp].
  - destruct (l !! p') as [proxy|] eqn:E; cbn.
    + rewrite list_lookup_alter.
      destruct (decide (f = f')) as [->|Hf].
      * now rewrite decide_True.
      * rewrite decide_False; [reflexivity|congruence].
    + now destruct (decide _).
  - rewrite decide_False; [reflexivity|congruence].
Qed.

Lemma update_alteration_counts (iteration : Z) (m : Memory) (a : Index * Z)
  (v : Index) :
  lookup2 (m_update_counts (update_alteration iteration m a)) v
  = if decide (a.1 = v) then Z.succ <$> lookup2 (m_update_counts m) v
    else lookup2 (m_update_counts m) v.
Proof. unfold update_alteration. cbn [m_update_counts]. apply lookup2_alter. Qed.

Lemma update_alteration_iterations (iteration : Z) (m : Memory)
  (a : Index * Z) (v : Index) :
  lookup2 (m_last_update_iterations (update_alteration iteration m a)) v
  = if decide (a.1 = v)
    then (fun _ => iteration) <$> lookup2 (m_last_update_iterations m) v
    else lookup2 (m_last_update_iterations m) v.
Proof.
  unfold update_alteration. cbn [m_last_update_iterations].
  rewrite <- lookup2_alter. f_equal.
  apply list_alter_ext; [|reflexivity]. intros proxy _.
  apply list_insert_alter.
Qed.

Lemma update_total (m : Memory) (move : Move) (iteration : Z) :
  m_total_update_counts (update m move iteration)
  = m_total_update_counts m + Z.of_nat (length (alterations move)).
Proof.
  unfold update. generalize (alterations move) as l. intros l. revert m.
  induction l as [|a l IH]; intros m; cbn [fold_left length]; [lia|].
  rewrite IH. cbn. lia.
Qed.

Lemma update_counts (m : Memory) (move : Move) (iteration : Z) (v : Index) :
  lookup2 (m_update_counts (update m move iteration)) v
  = (fun c => c + Z.of_nat (occurrences v move))
      <$> lookup2 (m_update_counts m) v.
Proof.
  unfold update, occurrences. generalize (alterations move) as l.
  intros l. revert m.
  induction l as [|a l IH]; intros m; cbn [fold_left].
  - destruct (lookup2 _ v); cbn; [f_equal; lia|reflexivity].
  - rewrite IH, update_alteration_counts, filter_cons.
    destruct (decide (a.1 = v)); [|reflexivity].
    destruct (lookup2 (m_update_counts m) v); cbn; [f_equal; lia|reflexivity].
Qed.

Lemma update_iterations (m : Memory) (move : Move) (iteration : Z)
  (v : Index) :
  lookup2 (m_last_update_iterations (update m move iteration)) v
  = (fun x => if decide (occurrences v move = 0%nat) then x else iteration)
      <$> lookup2 (m_last_update_iterations m) v.
Proof.
  unfold update, occurrences. generalize (alterations move) as l.
  intros l. revert m.
  induction l as [|a l IH]; intros m; cbn [fold_left].
  - now destruct (lookup2 _ v).
  - rewrite IH, update_alteration_iterations, filter_cons.
    destruct (decide (a.1 = v)); [|reflexivity].
    destruct (lookup2 (m_last_update_iterations m) v); cbn; [|reflexivity].
    f_equal. now destruct (decide _).
Qed.

Lemma occurrences_0 (v : Index) (move : Move) :
  occurrences v move = 0%nat <-> v ∉ (alterations move).*1.
Proof.
  unfold occurrences. induction (alterations move) as [|a l IH].
  - cbn. split; [intros _|reflexivity]. apply not_elem_of_nil.
  - rewrite filter_cons, fmap_cons, not_elem_of_cons.
    destruct (decide (a.1 = v)) as [<-|Hne]; cbn [length].
    + split; [discriminate|]. intros [H _]. now contradiction H.
    + rewrite IH. split; [intros H; split; [congruence|exact H]|tauto].
Qed.

(** C10, what the code does.  [Memory::update (move, iteration)] adds the
    number of alterations to [total_update_counts]; for every variable it
    adds to its update count the number of alterations that name it (one
    when the move names it once) and, when the move names it at all, sets
    its last update iteration to [iteration]; the entries of a variable the
    move does not name are unchanged. *)
Theorem update_frame (m : Memory) (move : Move) (iteration : Z) (v : Index) :
  let m' := update m move iteration in
  m_total_update_counts m'
    = m_total_update_counts m + Z.of_nat (length (alterations move)) /\
  lookup2 (m_update_counts m') v
    = (fun c => c + Z.of_nat (occurrences v move))
        <$> lookup2 (m_update_counts m) v /\
  (v ∈ (alterations move).*1 ->
   lookup2 (m_last_update_iterations m') v
     = (fun _ => iteration) <$> lookup2 (m_last_update_iterations m) v) /\
  (occurrences v move = 1%nat ->
   lookup2 (m_update_counts m') v = Z.succ <$> lookup2 (m_update_counts m) v) /\
  (v ∉ (alterations move).*1 ->
   lookup2 (m_update_counts m') v = lookup2 (m_update_counts m) v /\
   lookup2 (m_last_update_iterations m') v
     = lookup2 (m_last_update_iterations m) v).
Proof.
  intros m'. subst m'.
  split; [apply update_total|]. split; [apply update_counts|].
  split; [|split].
  - intros Hin. rewrite update_iterations.
    destruct (lookup2 _ v); cbn; [|reflexivity].
    destruct (decide _) as [H0|]; [|reflexivity].
    now apply occurrences_0 in H0.
  - intros H1. rewrite update_counts, H1.
    destruct (lookup2 _ v); cbn; [f_equal; lia|reflexivity].
  - intros Hnot. apply occurrences_0 in Hnot.
    rewrite update_counts, update_iterations, Hnot.
    split.
    + destruct (lookup2 _ v); cbn; [f_equal; lia|reflexivity].
    + now destruct (lookup2 _ v).
Qed.

(** ** Bias *)

Lemma sum_Z_app (l1 l2 : list Z) : sum_Z (l1 ++ l2) = sum_Z l1 + sum_Z l2.
Proof.
  unfold sum_Z. induction l1 as [|x l1 IH]; cbn; [reflexivity|].
  rewrite IH. lia.
Qed.

Lemma sum_Z_nonneg (l : list Z) : Forall (fun c => 0 <= c) l -> 0 <= sum_Z l.
Proof. unfold sum_Z. induction 1; cbn; lia. Qed.

(** The squares of non-negative numbers sum to at most the square of their
    sum. *)
Lemma sum_squares_upper (l : list Z) :
  Forall (fun c => 0 <= c) l -> sum_squares l <= sum_Z l * sum_Z l.
Proof.
  intros H. pose proof (sum_Z_nonneg l H) as Hs. revert Hs.
  unfold sum_squares, sum_Z.
  induction H as [|x l Hx Hl IH]; cbn; [lia|].
  pose proof (sum_Z_nonneg l Hl) as Hs. unfold sum_Z in Hs.
  specialize (IH Hs). intros _. nia.
Qed.

Lemma sum_shifted_squares (l : list Z) (x : Z) :
  0 <= Z.of_nat (length l) * (x * x) - 2 * x * sum_Z l + sum_squares l.
Proof.
  unfold sum_squares, sum_Z.
  induction l as [|c l IH]; cbn [length map fold_right]; [lia|].
  rewrite Nat2Z.inj_succ.
  pose proof (Z.square_nonneg (x - c)). nia.
Qed.

(** The square of a sum of [n] numbers is at most [n] times the sum of
    their squares. *)
Lemma sum_squares_lower (l : list Z) :
  sum_Z l * sum_Z l <= Z.of_nat (length l) * sum_squares l.
Proof.
  induction l as [|c l IH]; [cbn; lia|].
  pose proof (sum_shifted_squares l c) as H.
  unfold sum_squares, sum_Z in *. cbn [length map fold_right].
  rewrite Nat2Z.inj_succ. nia.
Qed.

Lemma sum_Q_app (l1 l2 : list Q) :
  (fold_right Qplus 0 (l1 ++ l2)
   == fold_right Qplus 0 l1 + fold_right Qplus 0 l2)%Q.
Proof.
  induction l1 as [|x l1 IH]; cbn [app fold_right]; [ring|].
  rewrite IH. ring.
Qed.

Section Bias.

Variable total : Z.
Hypothesis total_pos : 0 < total.

Let frequency2 (count : Z) : Q := ((inject_Z count / inject_Z total) ^ 2)%Q.

Lemma sum_frequency2 (l : list Z) :
  (fold_right Qplus 0 (map frequency2 l)
   == inject_Z (sum_squares l) / (inject_Z total * inject_Z total))%Q.
Proof.
  assert (Ht : ~ (inject_Z total == 0)%Q).
  { change 0%Q with (inject_Z 0). rewrite inject_Z_injective. lia. }
  unfold sum_squares.
  induction l as [|c l IH]; cbn [map fold_right].
  - field. exact Ht.
  - rewrite IH. unfold frequency2. rewrite inject_Z_plus, inject_Z_mult.
    field. exact Ht.
Qed.

End Bias.

(** ** The states a memory goes through are consistent *)

Lemma setup_consistent (names : list string) (sizes : list nat) :
  length names = length sizes -> consistent (setup names sizes).
Proof.
  intros Hlen. unfold consistent, all_counts, setup.
  cbn [m_total_update_counts m_update_counts m_variable_names initialize].
  unfold generate_variable_parameter_proxies. rewrite length_map.
  split; [|split; [|exact Hlen]].
  - clear Hlen. induction sizes as [|n sizes IH]; [reflexivity|].
    cbn [map concat]. rewrite sum_Z_app, <- IH.
    clear IH. unfold sum_Z.
    induction n as [|n IHn]; [reflexivity|]. cbn [repeat fold_right]. lia.
  - clear Hlen. induction sizes as [|n sizes IH]; [constructor|].
    cbn [map concat]. apply Forall_app. split; [|exact IH].
    clear IH. induction n as [|n IHn]; constructor; [lia|exact IHn].
Qed.

Lemma sum_Z_alter_succ (l : list Z) (f : nat) :
  is_Some (l !! f) -> sum_Z (alter Z.succ f l) = sum_Z l + 1.
Proof.
  revert f. unfold sum_Z.
  induction l as [|x l IH]; intros [|f] [y Hy]; try discriminate; cbn.
  - lia.
  - cbn in Hy. rewrite IH; [lia|eauto].
Qed.

Lemma sum_concat_alter_succ (ls : list (list Z)) (v : Index) :
  is_Some (lookup2 ls v) ->
  sum_Z (concat (alter (fun proxy => alter Z.succ v.2 proxy) v.1 ls))
  = sum_Z (concat ls) + 1.
Proof.
  destruct v as [p f]. unfold lookup2. cbn [fst snd]. revert p.
  induction ls as [|l ls IH]; intros [|p] H; cbn in H |- *.
  - now destruct H.
  - now destruct H.
  - rewrite !sum_Z_app, sum_Z_alter_succ; [lia|exact H].
  - rewrite !sum_Z_app, IH; [lia|exact H].
Qed.

Lemma Forall_concat_alter_succ (ls : list (list Z)) (v : Index) :
  Forall (fun c => 0 <= c) (concat ls) ->
  Forall (fun c => 0 <= c)
         (concat (alter (fun proxy => alter Z.succ v.2 proxy) v.1 ls)).
Proof.
  destruct v as [p f]. cbn [fst snd]. revert p.
  induction ls as [|l ls IH]; intros [|p]; cbn; try (intros H; exact H).
  - rewrite !Forall_app. intros [Hl Hls]. split; [|exact Hls].
    clear -Hl. revert f.
    induction Hl as [|x l Hx Hl IHl]; intros [|f]; cbn; constructor;
      auto; lia.
  - rewrite !Forall_app. intros [Hl Hls]. split; [exact Hl|].
    apply IH, Hls.
Qed.

Lemma update_alteration_consistent (iteration : Z) (m : Memory)
  (a : Index * Z) :
  is_Some (lookup2 (m_update_counts m) a.1) ->
  consistent m -> consistent (update_alteration iteration m a).
Proof.
  intros Hin (Ht & Hc & Hl). unfold consistent, all_counts, update_alteration.
  cbn [m_total_update_counts m_update_counts m_variable_names].
  split; [|split].
  - rewrite sum_concat_alter_succ; [|exact Hin]. unfold all_counts in Ht. lia.
  - now apply Forall_concat_alter_succ.
  - now rewrite length_alter.
Qed.

(** [update] keeps a memory consistent when the move alters variables of
    the model the memory was set up for. *)
Lemma memory_update_consistent (m : Memory) (move : Move) (iteration : Z) :
  Forall (fun a => is_Some (lookup2 (m_update_counts m) a.1))
         (alterations move) ->
  consistent m -> consistent (update m move iteration).
Proof.
  unfold update. generalize (alterations move) as l. intros l. revert m.
  induction l as [|a l IH]; intros m Hin Hm; cbn [fold_left]; [exact Hm|].
  inversion Hin as [|? ? Ha Hl]; subst.
  apply IH; [|now apply update_alteration_consistent].
  eapply Forall_impl; [exact Hl|]. cbn beta. intros b Hb.
  rewrite update_alteration_counts.
  destruct (decide _); [|exact Hb].
  destruct Hb as [x ->]. cbn. eauto.
Qed.

(** ** Powers of [1 - u] and [1 + u] *)

Lemma Qpower_succ (q : Q) (n : nat) :
  (q ^ Z.of_nat (S n) == q * q ^ Z.of_nat n)%Q.
Proof.
  rewrite Nat2Z.inj_succ, <- Z.add_1_l, Qpower_plus' by lia.
  now rewrite Qpower_1_r.
Qed.

Lemma pow_down_range (n : nat) : (0 < (1 - u) ^ Z.of_nat n <= 1)%Q.
Proof.
  pose proof u_bounds as [Hu0 Hu1].
  induction n as [|n IH]; [split; [reflexivity|discriminate]|].
  rewrite Qpower_succ. split; nra.
Qed.

Lemma pow_down_anti (n m : nat) :
  (n <= m)%nat -> ((1 - u) ^ Z.of_nat m <= (1 - u) ^ Z.of_nat n)%Q.
Proof.
  pose proof u_bounds as [Hu0 Hu1].
  induction 1 as [|m Hle IH]; [lra|].
  rewrite Qpower_succ. pose proof (pow_down_range m). nra.
Qed.

Lemma pow_up_ge_1 (n : nat) : (1 <= (1 + u) ^ Z.of_nat n)%Q.
Proof.
  pose proof u_bounds as [Hu0 Hu1].
  induction n as [|n IH]; [discriminate|].
  rewrite Qpower_succ. nra.
Qed.

Lemma pow_up_mono (n m : nat) :
  (n <= m)%nat -> ((1 + u) ^ Z.of_nat n <= (1 + u) ^ Z.of_nat m)%Q.
Proof.
  pose proof u_bounds as [Hu0 Hu1].
  induction 1 as [|m Hle IH]; [lra|].
  rewrite Qpower_succ. pose proof (pow_up_ge_1 m). nra.
Qed.

(** [(1 + u) ^ n <= 1 / (1 - n u)], without the division. *)
Lemma pow_up_bound (n : nat) :
  ((1 + u) ^ Z.of_nat n * (1 - inject_Z (Z.of_nat n) * u) <= 1)%Q.
Proof.
  pose proof u_bounds as [Hu0 Hu1].
  induction n as [|n IH].
  { change (Z.of_nat 0) with 0. rewrite Qpower_0_r.
    change (inject_Z 0) with 0%Q. lra. }
  rewrite Qpower_succ, Nat2Z.inj_succ. unfold Z.succ.
  rewrite inject_Z_plus. change (inject_Z 1) with 1%Q.
  pose proof (pow_up_ge_1 n).
  set (p := ((1 + u) ^ Z.of_nat n)%Q) in *.
  set (k := inject_Z (Z.of_nat n)) in *.
  assert (0 <= k)%Q.
  { unfold k. change 0%Q with (inject_Z 0). rewrite <- Zle_Qle. lia. }
  clearbody p k. nra.
Qed.

Lemma pow_up_le_2 (n : nat) :
  Z.of_nat n <= 2 ^ 52 -> ((1 + u) ^ Z.of_nat n <= 2)%Q.
Proof.
  intros Hn. pose proof (pow_up_bound n) as H.
  pose proof (pow_up_ge_1 n).
  assert (Hk : (inject_Z (Z.of_nat n) * u <= 1 # 2)%Q).
  { rewrite Zle_Qle in Hn.
    assert (E : (inject_Z (2 ^ 52) * u == 1 # 2)%Q) by reflexivity.
    pose proof u_bounds. nra. }
  nra.
Qed.

(** ** The rounding of [bias] *)

Section Rounding.

Variable total : Z.
Hypothesis total_range : 0 < total <= 2 ^ 51.

Let frequency (count : Z) : spec_float :=
  SFdiv 53 1024 (binary64_of_Z count) (binary64_of_Z total).

Let term (count : Z) : spec_float :=
  SFmul 53 1024 (frequency count) (frequency count).

Let share (count : Z) : Q := (inject_Z count / inject_Z total)%Q.

Lemma share_range (count : Z) :
  0 < count <= total -> (2 ^ (-51) <= share count <= 1)%Q.
Proof.
  intros [Hc0 Hct].
  assert (Ht : (0 < inject_Z total)%Q) by (rewrite <- (Zlt_Qlt 0); lia).
  assert (E : (share count * inject_Z total == inject_Z count)%Q).
  { unfold share. field. lra. }
  assert (H1 : (1 <= inject_Z count)%Q) by (rewrite <- (Zle_Qle 1); lia).
  assert (H2 : (inject_Z count <= inject_Z total)%Q) by now rewrite <- Zle_Qle.
  assert (H3 : (inject_Z total <= 2 ^ 51)%Q).
  { rewrite <- pow2_Z by lia. rewrite <- Zle_Qle. lia. }
  assert (H4 : (2 ^ (-51) * 2 ^ 51 == 1)%Q) by reflexivity.
  pose proof (pow2_pos (-51)). pose proof (pow2_pos 51).
  set (t := share count) in *. clearbody t. split.
  - apply (Qmult_le_r _ _ (2 ^ 51)); [assumption|].
    assert (0 <= t)%Q
      by (apply (Qmult_le_r _ _ (inject_Z total)); [assumption|lra]).
    nra.
  - apply (Qmult_le_r _ _ (inject_Z total)); [assumption|]. lra.
Qed.

Lemma frequency_Q (count : Z) :
  0 < count <= total ->
  normal (frequency count) /\
  (share count * (1 - u) <= to_Q (frequency count)
   <= share count * (1 + u))%Q /\
  (count = total -> (to_Q (frequency count) == 1)%Q).
Proof.
  intros Hc.
  assert (H53 : 2 ^ 51 < 2 ^ 53) by reflexivity.
  destruct (binary64_of_Z_Q count ltac:(lia)) as [Hnc Hvc].
  destruct (binary64_of_Z_Q total ltac:(lia)) as [Hnt Hvt].
  pose proof (share_range count Hc) as Hs.
  assert (E : (to_Q (binary64_of_Z count) / to_Q (binary64_of_Z total)
               == share count)%Q).
  { unfold share. now rewrite Hvc, Hvt. }
  assert (Hr : in_range (to_Q (binary64_of_Z count)
                         / to_Q (binary64_of_Z total))).
  { apply (in_range_intro (-51) 0); [lia|lia|]. rewrite E.
    change (2 ^ 0)%Q with 1%Q. exact Hs. }
  destruct (SFdiv_Q _ _ Hnc Hnt Hr) as (Hn & Henc & Hone).
  rewrite E in Henc. split; [exact Hn|]. split; [exact Henc|].
  intros ->. now apply Hone.
Qed.

Lemma term_Q (count : Z) :
  0 < count <= total ->
  normal (term count) /\
  (share count ^ 2 * (1 - u) ^ 3 <= to_Q (term count)
   <= share count ^ 2 * (1 + u) ^ 3)%Q /\
  (2 ^ (-105) <= to_Q (term count) <= 2)%Q.
Proof.
  intros Hc. destruct (frequency_Q count Hc) as (Hn & [Hl Hu] & _).
  pose proof (share_range count Hc) as [Hs0 Hs1].
  pose proof u_bounds as [Hu0 Hu1].
  assert (E51 : (2 ^ (-51) == 2 * 2 ^ (-52))%Q) by reflexivity.
  assert (E104 : (2 ^ (-104) == 2 ^ (-52) * 2 ^ (-52))%Q) by reflexivity.
  assert (E105 : (2 ^ (-104) == 2 * 2 ^ (-105))%Q) by reflexivity.
  pose proof (pow2_pos (-52)) as H52. pose proof (pow2_pos (-105)) as H105.
  set (f := to_Q (frequency count)) in *.
  set (t := share count) in *.
  set (p52 := (2 ^ (-52))%Q) in *. set (p105 := (2 ^ (-105))%Q) in *.
  set (p51 := (2 ^ (-51))%Q) in *.
  assert (Htu : (0 <= t * u <= t * (1 # 4))%Q) by (split; nra).
  assert (Hf : (p52 <= f <= 5 # 4)%Q) by (split; nra).
  assert (Hff : (2 ^ (-104) <= f * f <= 2 ^ 1)%Q).
  { change (2 ^ 1)%Q with 2%Q. rewrite E104. fold p52. split; nra. }
  assert (Hr : in_range (f * f)).
  { apply (in_range_intro (-104) 1); [lia|lia|exact Hff]. }
  destruct (SFmul_Q _ _ Hn Hn Hr) as (Hnq & [Hql Hqu]).
  fold f in Hql, Hqu. fold (term count) in Hnq, Hql, Hqu.
  set (q := to_Q (term count)) in *.
  change (2 ^ 1)%Q with 2%Q in Hff. rewrite E105 in Hff. fold p105 in Hff.
  split; [exact Hnq|].
  assert (E2 : (t ^ 2 == t * t)%Q) by (simpl; ring).
  assert (E3 : forall x : Q, (x ^ 3 == x * x * x)%Q) by (intros; simpl; ring).
  rewrite E2, !E3. clearbody f t q p52 p105 p51.
  assert (0 <= t)%Q by nra.
  assert (0 <= f * f)%Q by nra.
  assert (t * (1 - u) * (t * (1 - u)) <= f * f)%Q by nra.
  assert (f * f <= t * (1 + u) * (t * (1 + u)))%Q by nra.
  split; split; nra.
Qed.

(** The body of the inner loop of [bias]. *)
Let step (result : spec_float) (count : Z) : spec_float :=
  SFadd 53 1024 result (term count).

(** The exact sum of the squared shares, and the number of counts that are
    not zero. *)
Let exact (l : list Z) : Q :=
  fold_right Qplus 0%Q (map (fun count => (share count ^ 2)%Q) l).

Let updated (l : list Z) : nat := length (filter (fun c => c <> 0) l).

Lemma exact_app (l1 l2 : list Z) :
  (exact (l1 ++ l2) == exact l1 + exact l2)%Q.
Proof. unfold exact. rewrite map_app. apply sum_Q_app. Qed.

Lemma updated_app (l1 l2 : list Z) :
  updated (l1 ++ l2) = (updated l1 + updated l2)%nat.
Proof. unfold updated. now rewrite filter_app, length_app. Qed.

Lemma updated_le_sum (l : list Z) :
  Forall (fun c => 0 <= c) l -> Z.of_nat (updated l) <= sum_Z l.
Proof.
  unfold updated, sum_Z. induction 1 as [|c l Hc _ IH]; [cbn; lia|].
  rewrite filter_cons. cbn [fold_right].
  destruct (decide (c <> 0)); cbn [length]; lia.
Qed.

Lemma updated_0 (l : list Z) :
  Forall (fun c => 0 <= c) l -> updated l = 0%nat ->
  sum_Z l = 0 /\ (exact l == 0)%Q.
Proof.
  unfold updated, sum_Z, exact.
  induction 1 as [|c l Hc _ IH]; [now cbn|].
  rewrite filter_cons. destruct (decide (c <> 0)) as [|E]; [discriminate|].
  intros Hl. destruct (IH Hl) as [IH1 IH2]. cbn [map fold_right].
  assert (c = 0) by lia. subst c. split; [lia|]. rewrite IH2.
  unfold share. change (inject_Z 0) with 0%Q. simpl. field.
  intros H0. change 0%Q with (inject_Z 0) in H0.
  rewrite inject_Z_injective in H0. lia.
Qed.

Lemma exact_eq (l : list Z) :
  (exact l == inject_Z (sum_squares l) / (inject_Z total * inject_Z total))%Q.
Proof. apply sum_frequency2. lia. Qed.

Lemma exact_range (l : list Z) :
  Forall (fun c => 0 <= c) l -> sum_Z l <= total -> (0 <= exact l <= 1)%Q.
Proof.
  intros Hl Hs. rewrite exact_eq.
  pose proof (sum_squares_upper l Hl) as Hup.
  pose proof (sum_Z_nonneg l Hl) as H0.
  assert (Hsq : 0 <= sum_squares l).
  { unfold sum_squares. clear. induction l as [|c l IH]; cbn; nia. }
  assert (Htt : (0 < inject_Z total * inject_Z total)%Q).
  { rewrite <- inject_Z_mult, <- (Zlt_Qlt 0). nia. }
  split.
  - apply Qle_shift_div_l; [exact Htt|].
    rewrite Qmult_0_l, <- (Zle_Qle 0). exact Hsq.
  - apply Qle_shift_div_r; [exact Htt|].
    rewrite Qmult_1_l, <- inject_Z_mult, <- Zle_Qle. nia.
Qed.

(** What holds of the result after the counts [done]: it is zero as long
    as no count was positive, and then a normal number within the relative
    error of the operations performed. *)
Let state (done : list Z) (result : spec_float) : Prop :=
  match updated done with
  | O => result = S754_zero false
  | S k =>
      normal result /\
      (exact done * (1 - u) ^ Z.of_nat (k + 3) <= to_Q result
       <= exact done * (1 + u) ^ Z.of_nat (k + 3))%Q /\
      (k = 0%nat -> result = term (sum_Z done))
  end.

Lemma step_0 (done : list Z) (result : spec_float) :
  state done result -> step result 0 = result.
Proof.
  unfold state, step, term, frequency. intros H.
  destruct (binary64_of_Z_Q total ltac:(lia)) as [Hnt _].
  apply normal_to_Q in Hnt as (m & e & -> & _).
  change (binary64_of_Z 0) with (S754_zero false). cbn [SFdiv SFmul xorb].
  destruct (updated done).
  - now subst result.
  - destruct H as [(m' & e' & -> & _)%normal_to_Q _]. reflexivity.
Qed.

Lemma step_state (done : list Z) (result : spec_float) (count : Z) :
  Forall (fun c => 0 <= c) done -> 0 <= count ->
  sum_Z done + count <= total ->
  state done result -> state (done ++ [count]) (step result count).
Proof.
  intros Hdone Hc Hsum H.
  pose proof (sum_Z_nonneg done Hdone) as Hs0.
  pose proof (updated_le_sum done Hdone) as Hk.
  destruct (Z.eq_dec count 0) as [->|Hc0].
  { rewrite (step_0 done) by exact H. unfold state in *.
    rewrite updated_app. change (updated [0]) with 0%nat.
    rewrite Nat.add_0_r, sum_Z_app. change (sum_Z [0]) with 0.
    rewrite Z.add_0_r.
    destruct (updated done); [exact H|].
    assert (E : (exact (done ++ [0%Z]) == exact done)%Q).
    { rewrite exact_app.
      destruct (updated_0 [0] ltac:(repeat constructor; lia) eq_refl)
        as [_ ->]. ring. }
    now rewrite E. }
  destruct (term_Q count ltac:(lia)) as (Hnq & [Hql Hqu] & [Hq0 Hq2]).
  assert (Hupd : updated (done ++ [count]) = S (updated done)).
  { rewrite updated_app. unfold updated at 2. rewrite filter_cons.
    destruct (decide (count <> 0)); [cbn; lia|contradiction]. }
  assert (Hex : (exact (done ++ [count]) == exact done + share count ^ 2)%Q).
  { rewrite exact_app. unfold exact at 2. cbn [map fold_right]. ring. }
  unfold state in *. rewrite Hupd.
  destruct (updated done) as [|k] eqn:Hk0.
  - subst result.
    destruct (updated_0 done Hdone Hk0) as [Hz He].
    assert (Estep : step (S754_zero false) count = term count).
    { unfold step.
      destruct (normal_to_Q _ Hnq) as (m & e & -> & _). reflexivity. }
    rewrite Estep. split; [exact Hnq|]. split.
    + rewrite Hex, He. change (Z.of_nat (0 + 3)) with 3.
      rewrite !Qplus_0_l. now split.
    + intros _. rewrite sum_Z_app. change (sum_Z [count]) with (count + 0).
      now rewrite Hz, Z.add_0_r.
  - destruct H as (Hnr & [Hrl Hru] & _).
    pose proof (exact_range done Hdone ltac:(lia)) as [He0 He1].
    pose proof (pow_up_le_2 (k + 3) ltac:(lia)) as Hp2.
    pose proof (pow_up_ge_1 (k + 3)) as Hp1.
    pose proof (pow_down_range (k + 3)) as [Hd0 Hd1].
    pose proof (pow_down_anti 3 (k + 3) ltac:(lia)) as Hd3.
    pose proof (pow_up_mono 3 (k + 3) ltac:(lia)) as Hu3.
    change (Z.of_nat 3) with 3 in Hd3, Hu3.
    pose proof u_bounds as [Hu0 Hu1].
    assert (Hss : (0 <= share count ^ 2)%Q).
    { assert (E2 : (share count ^ 2 == share count * share count)%Q)
        by (simpl; ring).
      rewrite E2. nra. }
    assert (Hr : in_range (to_Q result + to_Q (term count))).
    { apply (in_range_intro (-105) 2); [lia|lia|].
      change (2 ^ 2)%Q with 4%Q. split; nra. }
    destruct (SFadd_Q _ _ Hnr Hnq Hr) as (Hn & [Hl Hu]).
    fold (step result count) in Hn, Hl, Hu.
    split; [exact Hn|]. split; [|intros [=]].
    replace (S k + 3)%nat with (S (k + 3)) by lia.
    rewrite Hex, !Qpower_succ.
    set (a := ((1 - u) ^ Z.of_nat (k + 3))%Q) in *.
    set (b := ((1 + u) ^ Z.of_nat (k + 3))%Q) in *.
    set (a3 := ((1 - u) ^ 3)%Q) in *. set (b3 := ((1 + u) ^ 3)%Q) in *.
    set (S0 := exact done) in *. set (t2 := (share count ^ 2)%Q) in *.
    set (r := to_Q result) in *. set (q := to_Q (term count)) in *.
    set (r' := to_Q (step result count)) in *.
    clearbody a b a3 b3 S0 t2 r q r'.
    assert ((S0 + t2) * a <= r + q)%Q by nra.
    assert (r + q <= (S0 + t2) * b)%Q by nra.
    split; nra.
Qed.

Lemma loop_state (l : list Z) :
  forall (done : list Z) (result : spec_float),
  Forall (fun c => 0 <= c) (done ++ l) -> sum_Z (done ++ l) <= total ->
  state done result -> state (done ++ l) (fold_left step l result).
Proof.
  induction l as [|c l IH]; intros done result Hall Hsum H.
  - now rewrite app_nil_r.
  - cbn [fold_left].
    replace (done ++ c :: l) with ((done ++ [c]) ++ l) in *
      by now rewrite <- app_assoc.
    apply IH; [exact Hall|exact Hsum|].
    apply Forall_app in Hall as [Hall Hl].
    apply Forall_app in Hall as [Hdone Hc].
    rewrite !sum_Z_app in Hsum. change (sum_Z [c]) with (c + 0) in Hsum.
    pose proof (sum_Z_nonneg l Hl).
    apply step_state; [exact Hdone|now inversion Hc|lia|exact H].
Qed.

End Rounding.

Lemma normal_one (x : spec_float) :
  normal x -> (to_Q x == 1)%Q -> x = S754_finite false (2 ^ 52) (-52).
Proof.
  intros (m & e & -> & Hm & He & ->)%normal_to_Q H1.
  pose proof (mantissa_bounds (Z.pos m) 53 e ltac:(lia) Hm) as [Hl Hu].
  rewrite H1 in Hl, Hu. change 1%Q with (2 ^ 0)%Q in Hl, Hu.
  apply pow2_le_inv in Hl. apply pow2_lt_inv in Hu.
  assert (e = -52) by lia. subst e.
  assert (Z.pos m = 2 ^ 52).
  { assert (E : ((2 ^ (-52))%Q = 1 # 2 ^ 52)%Q) by (vm_compute; reflexivity).
    rewrite E in H1. unfold Qeq, Qmult, inject_Z in H1.
    cbn [Qnum Qden] in H1. lia. }
  f_equal. lia.
Qed.

Lemma sum_squares_gap (l : list Z) :
  Forall (fun c => 0 <= c) l ->
  sum_squares l
  + (Z.of_nat (length (filter (fun c => c <> 0) l)) - 1) * sum_Z l
  <= sum_Z l * sum_Z l.
Proof.
  intros H. induction H as [|c l Hc Hl IH]; [cbn; lia|].
  pose proof (updated_le_sum l Hl) as Hk.
  pose proof (sum_Z_nonneg l Hl) as Hs.
  rewrite filter_cons. unfold sum_squares, sum_Z in *.
  cbn [map fold_right].
  set (Q' := fold_right Z.add 0 (map (fun c => c * c) l)) in *.
  set (A := fold_right Z.add 0 l) in *.
  destruct (decide (c <> 0)) as [Hc0|Hc0].
  - cbn [length]. rewrite Nat2Z.inj_succ.
    set (k := Z.of_nat (length (filter (fun c => c <> 0) l))) in *.
    assert (0 <= k) by lia.
    assert (A <= c * A) by nia.
    assert (k * c <= A * c) by nia.
    nia.
  - assert (c = 0) by lia. subst c. lia.
Qed.

Lemma fold_left_concat {A B : Type} (f : A -> B -> A) (ls : list (list B))
  (a : A) :
  fold_left (fun a l => fold_left f l a) ls a = fold_left f (concat ls) a.
Proof.
  revert a. induction ls as [|l ls IH]; intros a; cbn [fold_left concat];
    [reflexivity|].
  now rewrite IH, fold_left_app.
Qed.

(** C5, as the code computes it.  In a consistent memory whose
    [total_update_counts] is positive and at most [2 ^ 51], [bias] returns
    a positive normal double: the sum over all variables of
    [(update_count / total_update_counts)] squared evaluated in binary64,
    which is within the relative error [(1 - u) ^ (n + 2)] to
    [(1 + u) ^ (n + 2)] of the exact sum [spec_bias], [n] the number of
    variables and [u = 2 ^ -53].  The exact sum lies in the closed
    interval from [1/n] to [1]; the double is at most [1] and at least
    [(1 - u) ^ (n + 2) / n]. *)
Theorem bias_bounds (m : Memory) :
  consistent m ->
  0 < m_total_update_counts m <= 2 ^ 51 ->
  let n := number_of_entries m in
  normal (bias m) /\
  (spec_bias m * (1 - u) ^ Z.of_nat (n + 2) <= to_Q (bias m)
   <= spec_bias m * (1 + u) ^ Z.of_nat (n + 2))%Q /\
  (1 / inject_Z (Z.of_nat n) <= spec_bias m <= 1)%Q /\
  ((1 - u) ^ Z.of_nat (n + 2) / inject_Z (Z.of_nat n)
   <= to_Q (bias m) <= 1)%Q.
Proof.
  intros (Ht & Hc & Hl) Hrange n.
  set (T := m_total_update_counts m) in *.
  pose proof (loop_state T Hrange (all_counts m) [] (S754_zero false)) as H.
  cbn [app] in H. specialize (H Hc ltac:(lia) eq_refl).
  assert (Hb : bias m
               = fold_left
                   (fun result count =>
                      SFadd 53 1024 result
                        (SFmul 53 1024
                           (SFdiv 53 1024 (binary64_of_Z count)
                              (binary64_of_Z T))
                           (SFdiv 53 1024 (binary64_of_Z count)
                              (binary64_of_Z T))))
                   (all_counts m) (S754_zero false)).
  { unfold bias, all_counts. rewrite Hl, firstn_all.
    apply (fold_left_concat _ (m_update_counts m)). }
  rewrite <- Hb in H. clear Hb.
  fold (spec_bias m) in H.
  pose proof (updated_le_sum (all_counts m) Hc) as Hk.
  pose proof (sum_squares_gap (all_counts m) Hc) as Hgap.
  pose proof (length_filter (fun c => c <> 0) (all_counts m)) as Hkn.
  pose proof (updated_0 T Hrange (all_counts m) Hc) as Hk0.
  cbv beta in Hk, Hk0, H.
  remember (length (filter (fun c => c <> 0) (all_counts m))) as k eqn:Ek.
  clear Ek.
  pose proof (sum_squares_upper _ Hc) as Hup.
  pose proof (sum_squares_lower (all_counts m)) as Hlow.
  rewrite <- Ht in Hk, Hgap, Hup, Hlow, Hk0.
  fold (number_of_entries m) in Hlow, Hkn. fold n in Hlow, Hkn.
  assert (Hn : 0 < Z.of_nat n) by nia.
  assert (Hk1 : (1 <= k)%nat).
  { destruct k; [|lia]. destruct (Hk0 eq_refl) as [Hz _]. lia. }
  assert (HT : (0 < inject_Z T)%Q) by (rewrite <- (Zlt_Qlt 0); lia).
  assert (HnQ : (0 < inject_Z (Z.of_nat n))%Q) by now rewrite <- (Zlt_Qlt 0).
  assert (Htt : (0 < inject_Z T * inject_Z T)%Q) by nra.
  assert (Hspec : (spec_bias m
                   == inject_Z (sum_squares (all_counts m))
                      / (inject_Z T * inject_Z T))%Q).
  { apply sum_frequency2. lia. }
  assert (Hs : (1 / inject_Z (Z.of_nat n) <= spec_bias m <= 1)%Q).
  { rewrite Hspec. split.
    - apply Qle_shift_div_l; [exact Htt|].
      assert (E : (1 / inject_Z (Z.of_nat n) * (inject_Z T * inject_Z T)
                   == (inject_Z T * inject_Z T) / inject_Z (Z.of_nat n))%Q)
        by (field; lra).
      rewrite E. apply Qle_shift_div_r; [exact HnQ|].
      rewrite <- !inject_Z_mult, <- Zle_Qle. lia.
    - apply Qle_shift_div_r; [exact Htt|].
      rewrite Qmult_1_l, <- inject_Z_mult, <- Zle_Qle. exact Hup. }
  destruct k as [|k]; [lia|]. destruct H as (Hnormal & [Hlo Hhi] & Hone).
  pose proof (pow_down_anti (k + 3) (n + 2) ltac:(lia)) as Hd.
  pose proof (pow_up_mono (k + 3) (n + 2) ltac:(lia)) as Hu.
  pose proof (pow_down_range (n + 2)) as [Hd0 Hd1].
  pose proof (pow_up_ge_1 (k + 3)) as Hu1.
  destruct Hs as [Hs0 Hs1].
  assert (Hpos : (0 < spec_bias m)%Q).
  { eapply Qlt_le_trans; [|exact Hs0]. apply Qlt_shift_div_l; [exact HnQ|lra]. }
  change (fold_right Qplus 0%Q _) with (spec_bias m) in Hlo, Hhi.
  split; [exact Hnormal|].
  assert (Henc : (spec_bias m * (1 - u) ^ Z.of_nat (n + 2)
                  <= to_Q (bias m)
                  <= spec_bias m * (1 + u) ^ Z.of_nat (n + 2))%Q)
    by (split; nra).
  split; [exact Henc|]. split; [now split|]. split.
  - unfold Qdiv. rewrite Qmult_comm.
    setoid_replace (/ inject_Z (Z.of_nat n))%Q
      with (1 / inject_Z (Z.of_nat n))%Q using relation Qeq
      by (field; lra).
    nra.
  - destruct k as [|k].
    + rewrite (Hone eq_refl), <- Ht.
      destruct (frequency_Q T Hrange T ltac:(lia)) as (Hnf & _ & Hf1).
      rewrite (normal_one _ Hnf (Hf1 eq_refl)). discriminate.
    + pose proof (pow_up_bound (S (S k) + 2)) as Hb.
      replace (S k + 3)%nat with (S (S k) + 2)%nat in * by lia.
      set (b := ((1 + u) ^ Z.of_nat (S (S k) + 2))%Q) in *.
      rewrite Nat2Z.inj_add, inject_Z_plus in Hb.
      change (inject_Z (Z.of_nat 2)) with 2%Q in Hb.
      set (kq := inject_Z (Z.of_nat (S (S k)))) in *.
      assert (Hkq : (2 <= kq)%Q).
      { unfold kq. rewrite <- (Zle_Qle 2). lia. }
      assert (HuT : (u * inject_Z T <= 1 # 4)%Q).
      { assert (E : (u * inject_Z (2 ^ 51) == 1 # 4)%Q) by reflexivity.
        assert (inject_Z T <= inject_Z (2 ^ 51))%Q by (rewrite <- Zle_Qle; lia).
        pose proof u_bounds. nra. }
      assert (Hg : (inject_Z (sum_squares (all_counts m))
                    + (kq - 1) * inject_Z T
                    <= inject_Z T * inject_Z T)%Q).
      { pose proof Hgap as Hg. rewrite Zle_Qle in Hg. unfold Z.sub in Hg.
        rewrite inject_Z_plus, !inject_Z_mult, inject_Z_plus, inject_Z_opp
          in Hg.
        change (inject_Z 1) with 1%Q in Hg. fold kq in Hg. lra. }
      assert (Hsq : (spec_bias m * (inject_Z T * inject_Z T)
                     == inject_Z (sum_squares (all_counts m)))%Q).
      { rewrite Hspec. field. lra. }
      set (S0 := spec_bias m) in *. set (Tq := inject_Z T) in *.
      set (Q0 := inject_Z (sum_squares (all_counts m))) in *.
      set (v := to_Q (bias m)) in *.
      clearbody b kq S0 Tq Q0 v.
      assert (H1 : ((kq + 2) * (u * Tq) <= kq - 1)%Q) by nra.
      assert (H2 : ((kq + 2) * u * (Tq * Tq) <= (kq - 1) * Tq)%Q) by nra.
      assert (H3 : (S0 * (Tq * Tq) <= (1 - (kq + 2) * u) * (Tq * Tq))%Q) by nra.
      assert (H4 : (S0 <= 1 - (kq + 2) * u)%Q).
      { apply (Qmult_le_r _ _ (Tq * Tq)); [exact Htt|exact H3]. }
      nra.
Qed.

Lemma two_updates_consistent : consistent two_updates.
Proof.
  apply memory_update_consistent; [|now apply setup_consistent].
  cbn. repeat constructor; cbn; eauto.
Qed.

Lemma bias_bounds_witness :
  normal (bias two_updates) /\
  (spec_bias two_updates * (1 - u) ^ 4 <= to_Q (bias two_updates)
   <= spec_bias two_updates * (1 + u) ^ 4)%Q /\
  (1 / 2 <= spec_bias two_updates <= 1)%Q /\
  ((1 - u) ^ 4 / 2 <= to_Q (bias two_updates) <= 1)%Q.
Proof.
  apply (bias_bounds two_updates).
  - repeat split. cbn. repeat constructor; lia.
  - cbn. lia.
Defined.

(** C5 as stated fails at the lower end of the interval, and the double is
    not the exact sum.  After one update of each of two variables the bias
    is exactly [0.5 = 1/n].  After one update of each of three variables
    the double is below the exact sum [1/3 = 1/n]: the quotient [1.0 / 3]
    is rounded down, and so is the sum of the three squares. *)
Lemma bias_open_interval_counterexample :
  (consistent two_updates /\
   m_update_counts two_updates = [[1; 1]] /\
   m_total_update_counts two_updates = 2 /\
   number_of_entries two_updates = 2%nat /\
   bias two_updates = S754_finite false (2 ^ 52) (-53) /\
   (to_Q (bias two_updates) == 1 / 2)%Q /\
   ~ (1 / inject_Z (Z.of_nat (number_of_entries two_updates))
        < to_Q (bias two_updates))%Q) /\
  (consistent three_updates /\
   m_update_counts three_updates = [[1; 1; 1]] /\
   m_total_update_counts three_updates = 3 /\
   number_of_entries three_updates = 3%nat /\
   bias three_updates = S754_finite false 6004799503160661 (-54) /\
   (spec_bias three_updates == 1 / 3)%Q /\
   (to_Q (bias three_updates) < spec_bias three_updates)%Q /\
   ~ (1 / inject_Z (Z.of_nat (number_of_entries three_updates))
        <= to_Q (bias three_updates))%Q).
Proof.
  split.
  - split; [exact two_updates_consistent|].
    split; [reflexivity|]. split; [reflexivity|]. split; [reflexivity|].
    split; [vm_compute; reflexivity|]. split; [reflexivity|].
    vm_compute. intros H. discriminate H.
  - split.
    { apply memory_update_consistent; [|now apply setup_consistent].
      cbn. repeat constructor; cbn; eauto. }
    split; [reflexivity|]. split; [reflexivity|]. split; [reflexivity|].
    split; [vm_compute; reflexivity|]. split; [reflexivity|].
    split; [reflexivity|]. vm_compute. intros H. now apply H.
Qed.

(** The bias of [two_updates] is the double [1.0 / 2], not above it. *)
Example bias_binary64_two_updates :
  bias two_updates
  = SpecFloat.SFdiv 53 1024 (binary64_of_Z 1) (binary64_of_Z 2) /\
  SpecFloat.SFltb
    (SpecFloat.SFdiv 53 1024 (binary64_of_Z 1) (binary64_of_Z 2))
    (bias two_updates) = false.
Proof. split; vm_compute; reflexivity. Qed.

Lemma update_frame_witness :
  let m := setup ["x"%string] [3%nat] in
  let move := {| alterations := [((0%nat, 0%nat), 1); ((0%nat, 2%nat), 0)];
                 related_constraint_ptrs := [] |} in
  let m' := update m move 7 in
  (0%nat, 2%nat) ∈ (alterations move).*1 /\
  occurrences (0%nat, 2%nat) move = 1%nat /\
  lookup2 (m_last_update_iterations m') (0%nat, 2%nat) = Some 7 /\
  lookup2 (m_update_counts m') (0%nat, 2%nat) = Some 1.
Proof.
  intros m move m'.
  assert (Hin : (0%nat, 2%nat) ∈ (alterations move).*1).
  { cbn. apply list_elem_of_further, list_elem_of_here. }
  assert (Hocc : occurrences (0%nat, 2%nat) move = 1%nat) by reflexivity.
  split; [exact Hin|]. split; [exact Hocc|].
  destruct (update_frame m move 7 (0%nat, 2%nat)) as (_ & _ & H3 & H4 & _).
  split; [exact (H3 Hin)|exact (H4 Hocc)].
Defined.

(** C10 as stated fails for a move that names a variable twice: the count of
    the variable goes up by two, not by one. *)
Lemma update_count_counterexample :
  let m := setup ["x"%string] [3%nat] in
  let move := {| alterations := [((0%nat, 0%nat), 1); ((0%nat, 0%nat), 0)];
                 related_constraint_ptrs := [] |} in
  (0%nat, 0%nat) ∈ (alterations move).*1 /\
  lookup2 (m_update_counts m) (0%nat, 0%nat) = Some 0 /\
  lookup2 (m_update_counts (update m move 7)) (0%nat, 0%nat) = Some 2 /\
  lookup2 (m_update_counts (update m move 7)) (0%nat, 0%nat)
    <> Z.succ <$> lookup2 (m_update_counts m) (0%nat, 0%nat).
Proof.
  cbv zeta. split; [apply list_elem_of_here|].
  split; [reflexivity|]. split; [reflexivity|]. discriminate.
Qed.

(** ** The memory over a search *)

Lemma updates_consistent (calls : list (Move * Z)) :
  forall m,
    Forall (fun call =>
              Forall (fun a => is_Some (lookup2 (m_update_counts m) a.1))
                     (alterations call.1)) calls ->
    consistent m ->
    consistent (updates m calls) /\
    m_total_update_counts (updates m calls)
    = m_total_update_counts m
      + Z.of_nat (length (concat (map (fun call => alterations call.1) calls))).
Proof.
  induction calls as [|[move iteration] calls IH]; intros m Hcalls Hm.
  - cbn. split; [assumption|lia].
  - apply Forall_cons in Hcalls as [Hmove Hcalls]. cbn [fst snd] in Hmove.
    change (updates m ((move, iteration) :: calls))
      with (updates (update m move iteration) calls).
    destruct (IH (update m move iteration)) as [Hc Ht].
    + eapply Forall_impl; [exact Hcalls|]. intros call Hcall.
      eapply Forall_impl; [exact Hcall|]. intros a [c Ha].
      rewrite update_counts, Ha. now eexists.
    + now apply memory_update_consistent.
    + split; [exact Hc|]. rewrite Ht, update_total. cbn [map concat fst].
      rewrite length_app. lia.
Qed.
Lemma lookup_repeat {A : Type} (x : A) (n j : nat) :
  (j < n)%nat -> repeat x n !! j = Some x.
Proof.
  revert j. induction n as [|n IH]; intros [|j] Hj; cbn; try lia;
    [reflexivity|]. apply IH. lia.
Qed.

(** X1. From [setup] on, whatever moves [update] is called with (the moves
    alter variables of the model), the memory stays consistent: the total
    is the sum of the update counts, no count is negative, there is a proxy
    of counts per name; and the total is the number of alterations made. *)
Theorem updates_from_setup (names : list string) (sizes : list nat)
  (calls : list (Move * Z)) :
  length names = length sizes ->
  Forall (fun call =>
            Forall (fun a => exists n, sizes !! a.1.1 = Some n /\
                                       (a.1.2 < n)%nat)
                   (alterations call.1)) calls ->
  consistent (updates (setup names sizes) calls) /\
  m_total_update_counts (updates (setup names sizes) calls)
  = Z.of_nat (length (concat (map (fun call => alterations call.1) calls))).
Proof.
  intros Hlen Hcalls.
  destruct (updates_consistent calls (setup names sizes)) as [Hc Ht].
  - eapply Forall_impl; [exact Hcalls|]. intros call Hcall.
    eapply Forall_impl; [exact Hcall|]. intros [[i j] x] (n & Hn & Hj).
    unfold lookup2, setup, generate_variable_parameter_proxies.
    cbn [m_update_counts fst snd] in *.
    change (map (fun n => repeat 0 n) sizes)
      with ((fun n => repeat 0 n) <$> sizes).
    rewrite list_lookup_fmap, Hn. cbn.
    rewrite lookup_repeat by assumption. now eexists.
  - now apply setup_consistent.
  - split; [exact Hc|]. rewrite Ht. cbn. lia.
Qed.

Lemma updates_from_setup_witness :
  consistent
    (updates (setup ["x"%string] [3%nat])
       [({| alterations := [((0%nat, 0%nat), 1); ((0%nat, 2%nat), 0)];
            related_constraint_ptrs := [] |}, 7);
        ({| alterations := [((0%nat, 0%nat), 0)];
            related_constraint_ptrs := [] |}, 8)]) /\
  m_total_update_counts
    (updates (setup ["x"%string] [3%nat])
       [({| alterations := [((0%nat, 0%nat), 1); ((0%nat, 2%nat), 0)];
            related_constraint_ptrs := [] |}, 7);
        ({| alterations := [((0%nat, 0%nat), 0)];
            related_constraint_ptrs := [] |}, 8)]) = 3.
Proof.
  apply (updates_from_setup ["x"%string] [3%nat]).
  - reflexivity.
  - repeat constructor; cbn; exists 3%nat; split; (reflexivity || lia).
Defined.

(** ** The short-term memory is reset *)

Lemma shape_alter {A : Type} (f : list A -> list A) (i : nat)
  (l : list (list A)) :
  (forall proxy, length (f proxy) = length proxy) ->
  map length (alter f i l) = map length l.
Proof.
  intros Hf. revert i. induction l as [|proxy l IH]; intros [|i]; cbn;
    try reflexivity.
  - now rewrite Hf.
  - now rewrite IH.
Qed.

Lemma update_shape (m : Memory) (move : Move) (iteration : Z) :
  map length (m_last_update_iterations (update m move iteration))
  = map length (m_last_update_iterations m).
Proof.
  unfold update. generalize (alterations move) as l. intros l. revert m.
  induction l as [|a l IH]; intros m; cbn [fold_left]; [reflexivity|].
  rewrite IH. unfold update_alteration. cbn [m_last_update_iterations].
  apply shape_alter. intros proxy. apply length_insert.
Qed.

Lemma updates_shape (calls : list (Move * Z)) (m : Memory) :
  map length (m_last_update_iterations (updates m calls))
  = map length (m_last_update_iterations m).
Proof.
  revert m. induction calls as [|call calls IH]; intros m; [reflexivity|].
  change (updates m (call :: calls))
    with (updates (update m call.1 call.2) calls).
  now rewrite IH, update_shape.
Qed.

Lemma map_const_repeat {A B : Type} (c : B) (l : list A) :
  map (fun _ => c) l = repeat c (length l).
Proof. induction l as [|x l IH]; cbn; [reflexivity|now rewrite IH]. Qed.

(** X2. [reset_last_update_iterations] undoes what the updates have done to
    the short-term memory and nothing else: after any sequence of updates
    on a memory set up for a model, the last update iterations are again
    the ones of [setup] (every entry [INITIAL_LAST_UPDATE_ITERATION]), and
    the update counts and their total are as before the reset. *)
Theorem reset_last_update_iterations_setup (names : list string)
  (sizes : list nat) (calls : list (Move * Z)) :
  let m := updates (setup names sizes) calls in
  m_last_update_iterations (reset_last_update_iterations m)
    = m_last_update_iterations (setup names sizes) /\
  m_update_counts (reset_last_update_iterations m) = m_update_counts m /\
  m_total_update_counts (reset_last_update_iterations m)
    = m_total_update_counts m /\
  m_variable_names (reset_last_update_iterations m) = m_variable_names m.
Proof.
  cbn zeta. repeat split.
  unfold reset_last_update_iterations. cbn [m_last_update_iterations].
  rewrite (map_ext _ (fun proxy =>
                        repeat INITIAL_LAST_UPDATE_ITERATION (length proxy)))
    by (intros proxy; apply map_const_repeat).
  rewrite <- (map_map length (repeat INITIAL_LAST_UPDATE_ITERATION)).
  rewrite updates_shape. unfold setup, generate_variable_parameter_proxies.
  cbn [m_last_update_iterations]. rewrite !map_map. apply map_ext.
  intros n. now rewrite repeat_length.
Qed.

(** ** Updates with a random width *)

Lemma randomness_window (bits r width : Z) :
  32 <= bits ->
  0 < width < 2 ^ 30 ->
  randomness bits r width = r mod (2 * width) - width /\
  - width <= randomness bits r width < width.
Proof.
  intros Hbits Hw.
  assert (Hpow : 2 ^ bits = 2 ^ 32 * 2 ^ (bits - 32)).
  { rewrite <- Z.pow_add_r by lia. f_equal. lia. }
  assert (Hk : 0 < 2 ^ (bits - 32)) by (apply Z.pow_pos_nonneg; lia).
  assert (H32 : 2 ^ 32 = 4294967296) by reflexivity.
  assert (H31 : 2 ^ 31 = 2147483648) by reflexivity.
  assert (H30 : 2 ^ 30 = 1073741824) by reflexivity.
  assert (Hr : 0 <= r mod (2 * width) < 2 * width)
    by (apply Z.mod_pos_bound; lia).
  assert (E : randomness bits r width = r mod (2 * width) - width).
  { unfold randomness, to_unsigned, to_int.
    rewrite (Z.mod_small (2 * width)) by nia.
    rewrite (Z.mod_small width) by nia.
    set (y := r mod (2 * width) - width) in *.
    rewrite Zplus_mod.
    rewrite Hpow, Z.mod_mod_divide
      by (exists (2 ^ (bits - 32)); apply Z.mul_comm).
    rewrite <- Zplus_mod, Z.mod_small; lia. }
  rewrite E. lia.
Qed.

Section Random.

Context {Generator : Type}.
Variable draw : Generator -> Z * Generator.
Variable bits : Z.
Hypothesis bits_ge : 32 <= bits.

Lemma update_alteration_random_counts (iteration iteration' width : Z)
  (m m' : Memory) (g : Generator) (a : Index * Z) :
  m_variable_names m = m_variable_names m' ->
  m_update_counts m = m_update_counts m' ->
  m_total_update_counts m = m_total_update_counts m' ->
  let r := (update_alteration_random draw bits iteration width (m, g) a).1 in
  let p := update_alteration iteration' m' a in
  m_variable_names r = m_variable_names p /\
  m_update_counts r = m_update_counts p /\
  m_total_update_counts r = m_total_update_counts p.
Proof.
  intros Hn Hc Ht. unfold update_alteration_random, update_alteration.
  cbn [fst snd]. destruct (draw g) as [x g']. cbn.
  now rewrite Hn, Hc, Ht.
Qed.

Lemma fold_random_counts (iteration width : Z) (l : list (Index * Z)) :
  forall (m m' : Memory) (g : Generator),
    m_variable_names m = m_variable_names m' ->
    m_update_counts m = m_update_counts m' ->
    m_total_update_counts m = m_total_update_counts m' ->
    let r :=
      (fold_left (update_alteration_random draw bits iteration width)
                 l (m, g)).1 in
    let p := fold_left (update_alteration iteration) l m' in
    m_variable_names r = m_variable_names p /\
    m_update_counts r = m_update_counts p /\
    m_total_update_counts r = m_total_update_counts p.
Proof.
  induction l as [|a l IH]; intros m m' g Hn Hc Ht; cbn [fold_left].
  - now repeat split.
  - destruct (update_alteration_random_counts iteration iteration width
                m m' g a Hn Hc Ht) as (Hn' & Hc' & Ht').
    destruct (update_alteration_random draw bits iteration width (m, g) a)
      as [m1 g1] eqn:E. cbn [fst] in Hn', Hc', Ht'.
    now apply IH.
Qed.

Lemma update_alteration_random_iterations (iteration width : Z)
  (state : Memory * Generator) (a : Index * Z) (v : Index) :
  exists r,
    lookup2 (m_last_update_iterations
               (update_alteration_random draw bits iteration width state a).1)
            v
    = if decide (a.1 = v)
      then (fun _ => iteration + randomness bits r width)
             <$> lookup2 (m_last_update_iterations state.1) v
      else lookup2 (m_last_update_iterations state.1) v.
Proof.
  unfold update_alteration_random. destruct (draw state.2) as [r g'].
  exists r. cbn [fst m_last_update_iterations].
  rewrite <- lookup2_alter. f_equal.
  apply list_alter_ext; [|reflexivity]. intros proxy _.
  apply list_insert_alter.
Qed.

Lemma fold_random_iterations (iteration width : Z) (v : Index) :
  0 < width < 2 ^ 30 ->
  forall (l : list (Index * Z)) (m : Memory) (g : Generator),
    let r :=
      (fold_left (update_alteration_random draw bits iteration width)
                 l (m, g)).1 in
    (v ∉ l.*1 ->
     lookup2 (m_last_update_iterations r) v
     = lookup2 (m_last_update_iterations m) v) /\
    (v ∈ l.*1 ->
     is_Some (lookup2 (m_last_update_iterations m) v) ->
     exists x, lookup2 (m_last_update_iterations r) v = Some x /\
               iteration - width <= x < iteration + width).
Proof.
  intros Hw l. induction l as [|a l IH] using rev_ind; intros m g.
  - cbn. split; [reflexivity|]. intros Hin. now apply elem_of_nil in Hin.
  - cbn zeta. rewrite fold_left_app. cbn [fold_left].
    specialize (IH m g). cbn zeta in IH. destruct IH as [IHout IHin].
    destruct (update_alteration_random_iterations iteration width
                (fold_left (update_alteration_random draw bits iteration width)
                           l (m, g)) a v) as [r Hr].
    rewrite Hr. rewrite fmap_app. cbn [fmap list_fmap].
    split.
    + intros Hnot. rewrite not_elem_of_app, list_elem_of_singleton in Hnot.
      destruct Hnot as [Hl Ha]. rewrite decide_False by congruence.
      now apply IHout.
    + intros Hin [x0 Hx0].
      destruct (decide (a.1 = v)) as [Ha|Ha].
      * assert (Hsome : is_Some
                  (lookup2 (m_last_update_iterations
                     (fold_left
                        (update_alteration_random draw bits iteration width)
                        l (m, g)).1) v)).
        { destruct (decide (v ∈ l.*1)) as [Hl|Hl].
          - destruct (IHin Hl (mk_is_Some _ _ Hx0)) as (x & Hx & _).
            rewrite Hx. now eexists.
          - rewrite (IHout Hl), Hx0. now eexists. }
        destruct Hsome as [y ->]. cbn. eexists. split; [reflexivity|].
        destruct (randomness_window bits r width bits_ge Hw) as [_ Hrange].
        lia.
      * apply elem_of_app in Hin as [Hl|Hl].
        -- apply IHin; [assumption|exact (mk_is_Some _ _ Hx0)].
        -- apply list_elem_of_singleton in Hl. congruence.
Qed.

(** X3. The update with a random width counts as the plain update does:
    the update counts, their total and the names are the ones
    [update(a_MOVE, a_ITERATION)] leaves.  Only the last update iteration
    of a variable the move alters differs: it lies in
    [a_ITERATION - a_RANDOM_WIDTH, a_ITERATION + a_RANDOM_WIDTH), and is
    [a_ITERATION] when the width is 0; the entries of the other variables
    are untouched. *)
Theorem update_random_counts (m : Memory) (move : Move)
  (iteration width : Z) (g : Generator) (v : Index) :
  0 <= width < 2 ^ 30 ->
  let r := (update_random draw bits m move iteration width g).1 in
  let p := update m move iteration in
  m_variable_names r = m_variable_names p /\
  m_update_counts r = m_update_counts p /\
  m_total_update_counts r = m_total_update_counts p /\
  (v ∉ (alterations move).*1 ->
   lookup2 (m_last_update_iterations r) v
   = lookup2 (m_last_update_iterations m) v) /\
  (v ∈ (alterations move).*1 ->
   is_Some (lookup2 (m_last_update_iterations m) v) ->
   exists x, lookup2 (m_last_update_iterations r) v = Some x /\
             iteration - width <= x <= iteration + Z.max 0 (width - 1)).
Proof.
  intros Hw. cbn zeta. unfold update_random.
  destruct (Z.eqb_spec width 0) as [->|Hne]; cbn [fst].
  - repeat split.
    + intros Hnot. rewrite update_iterations.
      destruct (lookup2 _ v) as [x|]; [|reflexivity]. cbn.
      rewrite decide_True by now apply occurrences_0. reflexivity.
    + intros Hin [x0 Hx0]. exists iteration. split; [|cbn; lia].
      rewrite update_iterations, Hx0. cbn.
      rewrite decide_False; [reflexivity|]. now rewrite occurrences_0.
  - destruct (fold_random_counts iteration width (alterations move) m m g)
      as (Hn & Hc & Ht); try reflexivity.
    destruct (fold_random_iterations iteration width v ltac:(lia)
                (alterations move) m g) as [Hout Hin].
    repeat split; try assumption.
    intros Hv Hsome. destruct (Hin Hv Hsome) as (x & Hx & Hrange).
    exists x. split; [assumption|lia].
Qed.

End Random.

Lemma update_random_counts_witness :
  let draw := fun g : Z => (g, g + 1) in
  let m := setup ["x"%string] [3%nat] in
  let move := {| alterations := [((0%nat, 0%nat), 1); ((0%nat, 2%nat), 0)];
                 related_constraint_ptrs := [] |} in
  m_update_counts (update_random draw 64 m move 100 5 12345).1
    = m_update_counts (update m move 100) /\
  exists x,
    lookup2 (m_last_update_iterations
               (update_random draw 64 m move 100 5 12345).1) (0%nat, 2%nat)
    = Some x /\ 95 <= x <= 104.
Proof.
  cbn zeta.
  destruct (update_random_counts (fun g : Z => (g, g + 1)) 64 ltac:(lia)
              (setup ["x"%string] [3%nat])
              {| alterations := [((0%nat, 0%nat), 1); ((0%nat, 2%nat), 0)];
                 related_constraint_ptrs := [] |}
              100 5 12345 (0%nat, 2%nat) ltac:(lia))
    as (_ & Hc & _ & _ & Hin).
  split; [exact Hc|].
  apply Hin.
  - cbn. apply list_elem_of_further, list_elem_of_here.
  - now eexists.
Defined.
(** ** The bias of a memory without updates *)

Lemma bias_binary64_step_zero (result : SpecFloat.spec_float) :
  SpecFloat.SFadd 53 1024 result
    (SpecFloat.SFmul 53 1024
       (SpecFloat.SFdiv 53 1024 (binary64_of_Z 0) (binary64_of_Z 0))
       (SpecFloat.SFdiv 53 1024 (binary64_of_Z 0) (binary64_of_Z 0)))
  = SpecFloat.S754_nan.
Proof. now destruct result. Qed.

Lemma bias_binary64_inner_zero (n : nat) (result : SpecFloat.spec_float) :
  fold_left
    (fun result count =>
       let frequency :=
         SpecFloat.SFdiv 53 1024 (binary64_of_Z count) (binary64_of_Z 0) in
       SpecFloat.SFadd 53 1024 result
         (SpecFloat.SFmul 53 1024 frequency frequency))
    (repeat 0 n) result
  = match n with
    | O => result
    | S _ => SpecFloat.S754_nan
    end.
Proof.
  revert result. induction n as [|n IH]; intros result; [reflexivity|].
  cbn [repeat fold_left]. rewrite IH. cbv zeta.
  rewrite bias_binary64_step_zero. now destruct n.
Qed.

Lemma bias_binary64_outer_zero (sizes : list nat) :
  forall result,
    result = SpecFloat.S754_nan \/ Exists (fun n => n <> 0%nat) sizes ->
    fold_left
      (fun result update_count =>
         fold_left
           (fun result count =>
              let frequency :=
                SpecFloat.SFdiv 53 1024 (binary64_of_Z count)
                  (binary64_of_Z 0) in
              SpecFloat.SFadd 53 1024 result
                (SpecFloat.SFmul 53 1024 frequency frequency))
           update_count result)
      (map (fun n => repeat 0 n) sizes) result
    = SpecFloat.S754_nan.
Proof.
  induction sizes as [|n sizes IH]; intros result H.
  - destruct H as [->|H]; [reflexivity|]. now apply Exists_nil in H.
  - cbn [map fold_left]. rewrite bias_binary64_inner_zero. apply IH.
    destruct H as [->|H].
    + left. now destruct n.
    + apply Exists_cons in H as [Hn|H]; [|now right].
      left. now destruct n.
Qed.

(** X4. Before the first update the bias is not a number: with
    [m_total_update_counts] at 0 every frequency is [0 / 0.0], so for a
    model with at least one variable [bias] returns NaN in binary64
    arithmetic. *)
Theorem bias_binary64_setup (names : list string) (sizes : list nat) :
  Exists (fun n => n <> 0%nat) (take (length names) sizes) ->
  bias (setup names sizes) = SpecFloat.S754_nan.
Proof.
  intros H. unfold bias, setup, generate_variable_parameter_proxies.
  cbn [m_variable_names m_update_counts m_total_update_counts initialize].
  rewrite firstn_map. apply bias_binary64_outer_zero. now right.
Qed.

Lemma bias_binary64_setup_witness :
  bias (setup ["x"%string] [3%nat]) = SpecFloat.S754_nan.
Proof.
  apply bias_binary64_setup. cbn. apply Exists_cons_hd. lia.
Defined.

End MemoryFacts.

(** * Properties of AbstractMultiArray *)

Module MultiArrayFacts.
Import MultiArray.

Lemma partial_sum_from_snoc (acc : Z) (l : list Z) (x : Z) :
  partial_sum_from Z.mul acc (l ++ [x]) =
  partial_sum_from Z.mul acc l ++ [fold_left Z.mul l acc * x].
Proof.
  revert acc. induction l as [|y l IH]; intros acc; simpl.
  - reflexivity.
  - now rewrite IH.
Qed.

Lemma partial_sum_one (l : list Z) :
  1 :: partial_sum Z.mul l = 1 :: partial_sum_from Z.mul 1 l.
Proof.
  destruct l as [|x t]; simpl; [reflexivity|].
  now destruct x.
Qed.

Lemma fold_left_mul (l : list Z) (acc : Z) :
  fold_left Z.mul l acc = acc * product l.
Proof.
  revert acc. induction l as [|x l IH]; intros acc; simpl; [lia|].
  rewrite IH. unfold product. lia.
Qed.

Lemma product_app (l1 l2 : list Z) :
  product (l1 ++ l2) = product l1 * product l2.
Proof.
  unfold product. induction l1 as [|x l1 IH]; simpl; [now destruct (fold_right _ _ _)|].
  rewrite IH. lia.
Qed.

Lemma product_rev (l : list Z) : product (rev l) = product l.
Proof.
  induction l as [|x l IH]; simpl; [reflexivity|].
  rewrite product_app, IH. unfold product. simpl. lia.
Qed.

Lemma accumulate_product (l : list Z) : accumulate Z.mul l 1 = product l.
Proof. unfold accumulate. rewrite fold_left_mul. now destruct (product l). Qed.

Lemma product_pos (l : list Z) : Forall (fun s => 0 < s) l -> 0 < product l.
Proof.
  induction 1 as [|x l Hx _ IH]; unfold product in *; simpl; [lia|nia].
Qed.

(** The scan of [compute_strides], read from the front of the shape. *)
Lemma scan_rev (t : list Z) :
  rev (1 :: partial_sum_from Z.mul 1 (rev t)) = suffix_products t.
Proof.
  induction t as [|x t IH]; [reflexivity|].
  change (rev (x :: t)) with (rev t ++ [x]).
  rewrite partial_sum_from_snoc, app_comm_cons, rev_app_distr.
  cbn [rev app] in *. rewrite IH. cbn [suffix_products]. f_equal.
  rewrite fold_left_mul, product_rev. unfold product. simpl. lia.
Qed.

Lemma compute_strides_cons (s : Z) (t : list Z) :
  compute_strides (s :: t) = Some (suffix_products t).
Proof.
  unfold compute_strides. f_equal.
  change (rev (s :: t)) with (rev t ++ [s]).
  rewrite removelast_last, partial_sum_one. apply scan_rev.
Qed.

Lemma index_loop_spec (t : list Z) :
  Forall (fun s => 0 < s) t ->
  forall s0 k init,
    0 <= k < s0 * product t ->
    inner_product (index_loop (suffix_products t) k) (suffix_products t) init
      = init + k /\
    in_shape (index_loop (suffix_products t) k) (s0 :: t).
Proof.
  induction 1 as [|x t Hx Ht IH]; intros s0 k init Hk.
  - cbn in *. rewrite Z.quot_1_r. split; [lia|].
    constructor; [lia|constructor].
  - pose proof (product_pos t Ht) as Hp.
    assert (HP : 0 < product (x :: t)) by (unfold product in *; simpl; nia).
    cbn [suffix_products index_loop inner_product].
    pose proof (Z.rem_bound_pos k (product (x :: t)) ltac:(lia) HP) as Hr.
    pose proof (Z.quot_rem' k (product (x :: t))) as Hq.
    destruct (IH x (Z.rem k (product (x :: t)))
                (init + Z.quot k (product (x :: t)) * product (x :: t)))
      as [IH1 IH2].
    { unfold product in *. simpl in *. lia. }
    split.
    + rewrite IH1. lia.
    + constructor; [|exact IH2]. split.
      * apply Z.quot_pos; lia.
      * apply Z.quot_lt_upper_bound; lia.
Qed.

(** The strides are positive and none exceeds the number of elements, so the
    [int] arithmetic of the index conversions stays within the range of the
    number of elements. *)
Lemma suffix_products_bound (t : list Z) :
  Forall (fun s => 0 < s) t ->
  Forall (fun p => 0 < p <= product t) (suffix_products t).
Proof.
  induction 1 as [|x t Hx Ht IH]; cbn [suffix_products].
  - constructor; [cbn; lia|constructor].
  - pose proof (product_pos t Ht) as Hp.
    assert (HP : product (x :: t) = x * product t) by reflexivity.
    constructor; [nia|].
    eapply Forall_impl; [exact IH|]. cbn beta. intros p Hpp. nia.
Qed.

Lemma make_scalar_constructed (id : Z) (a : AbstractMultiArray) :
  make_scalar id = Some a -> constructed a.
Proof. intros [= <-]. now repeat split. Qed.

Lemma make_vector_constructed (id n : Z) (a : AbstractMultiArray) :
  make_vector id n = Some a -> constructed a.
Proof.
  intros [= <-]. repeat split. cbn. now destruct n.
Qed.

Lemma make_shaped_constructed (id : Z) (shape : list Z) (a : AbstractMultiArray) :
  make_shaped id shape = Some a -> constructed a.
Proof.
  unfold make_shaped, with_strides. cbn [m_shape].
  destruct (compute_strides shape) as [st|] eqn:E; [|discriminate].
  intros [= <-]. now repeat split.
Qed.

Lemma multi_dimensional_index_in_shape (a : AbstractMultiArray) (k : Z) :
  constructed a ->
  Forall (fun s => 0 < s) (m_shape a) ->
  0 <= k < m_number_of_elements a ->
  in_shape (multi_dimensional_index a k) (m_shape a).
Proof.
  intros (Hs & He & _) Hpos Hk. unfold multi_dimensional_index.
  destruct (m_shape a) as [|s0 t] eqn:Hshape; [discriminate|].
  rewrite compute_strides_cons in Hs. injection Hs as <-.
  rewrite He, accumulate_product in Hk.
  apply Forall_cons in Hpos as [_ Ht].
  exact (proj2 (index_loop_spec t Ht s0 k 0 Hk)).
Qed.

(** C9. For an array whose shape entries are all positive and a flat index
    [0 <= k < number_of_elements], [flat_index (multi_dimensional_index k)]
    is [k] again, and every component of [multi_dimensional_index k] is
    non-negative and strictly below the shape entry of its dimension. *)
Theorem flat_index_multi_dimensional_index (a : AbstractMultiArray) (k : Z) :
  constructed a ->
  Forall (fun s => 0 < s) (m_shape a) ->
  0 <= k < m_number_of_elements a ->
  flat_index a (multi_dimensional_index a k) = k /\
  in_shape (multi_dimensional_index a k) (m_shape a).
Proof.
  intros (Hs & He & _) Hpos Hk.
  unfold flat_index, multi_dimensional_index.
  destruct (m_shape a) as [|s0 t] eqn:Hshape; [discriminate|].
  rewrite compute_strides_cons in Hs. injection Hs as <-.
  rewrite He, accumulate_product in Hk.
  inversion Hpos as [|? ? Hs0 Ht]; subst.
  destruct (index_loop_spec t Ht s0 k 0) as [H1 H2]; [exact Hk|].
  split; [rewrite H1; lia|exact H2].
Qed.

Lemma flat_index_multi_dimensional_index_witness :
  exists a, make_shaped 0 [20; 30] = Some a /\
    flat_index a (multi_dimensional_index a 598) = 598 /\
    in_shape (multi_dimensional_index a 598) (m_shape a).
Proof.
  eexists. split; [reflexivity|].
  apply flat_index_multi_dimensional_index.
  - now repeat split.
  - cbn. repeat constructor.
  - cbn. lia.
Defined.

(** ** Element names *)

Lemma length_append (s1 s2 : string) :
  String.length (s1 ++ s2) = (String.length s1 + String.length s2)%nat.
Proof.
  induction s1 as [|c s1 IH]; [reflexivity|].
  change (S (String.length (s1 ++ s2))
          = S (String.length s1 + String.length s2)).
  now rewrite IH.
Qed.

Lemma append_empty_r (s : string) : (s ++ "")%string = s.
Proof.
  induction s as [|c s IH]; [reflexivity|].
  change (String c (s ++ "") = String c s). now rewrite IH.
Qed.

Lemma length_repeat_char (c : ascii) (n : nat) :
  String.length (repeat_char c n) = n.
Proof. induction n as [|n IH]; simpl; [reflexivity|now rewrite IH]. Qed.

(** A larger number has at least as many decimal digits. *)
Lemma length_decimal_digits_mono (fuel : nat) :
  forall a b, 0 <= a <= b ->
    (String.length (decimal_digits fuel a)
       <= String.length (decimal_digits fuel b))%nat.
Proof.
  induction fuel as [|f IH]; intros a b Hab; cbn [decimal_digits]; [lia|].
  destruct (Z.ltb_spec a 10) as [Ha|Ha], (Z.ltb_spec b 10) as [Hb|Hb].
  - cbn. lia.
  - rewrite length_append. cbn. lia.
  - lia.
  - rewrite !length_append. cbn.
    assert (0 <= a / 10 <= b / 10).
    { split; [apply Z.div_pos; lia|apply Z.div_le_mono; lia]. }
    specialize (IH (a / 10) (b / 10)). lia.
Qed.

Lemma length_to_string_mono (a b : Z) :
  0 <= a <= b ->
  (String.length (to_string a) <= String.length (to_string b))%nat.
Proof.
  intros Hab. unfold to_string.
  destruct (Z.ltb_spec a 0), (Z.ltb_spec b 0); try lia.
  now apply length_decimal_digits_mono.
Qed.

Lemma fold_left_max_ge (l : list Z) (x : Z) :
  x <= fold_left Z.max l x /\ Forall (fun y => y <= fold_left Z.max l x) l.
Proof.
  revert x. induction l as [|y l IH]; intros x; cbn [fold_left].
  - split; [lia|constructor].
  - destruct (IH (Z.max x y)) as [H1 H2]. split; [lia|].
    constructor; [lia|exact H2].
Qed.

Lemma utility_max_ge (l : list Z) : Forall (fun y => y <= utility_max l) l.
Proof.
  destruct l as [|x l]; [constructor|]. cbn [utility_max].
  destruct (fold_left_max_ge l x) as [H1 H2]. now constructor.
Qed.

(** A value whose digits fit the field is printed at exactly the width. *)
Lemma length_utility_to_string (width : nat) (v : Z) :
  (String.length (to_string v) <= width)%nat ->
  String.length (utility_to_string width v) = width.
Proof.
  intros H. unfold utility_to_string.
  rewrite length_append, length_repeat_char. lia.
Qed.

Lemma in_shape_fits (a : AbstractMultiArray) (index : list Z) :
  constructed a ->
  in_shape index (m_shape a) ->
  Forall (fun i => String.length (utility_to_string (m_max_digits a) i)
                   = m_max_digits a) index.
Proof.
  intros (_ & _ & _ & Hd) Hin. rewrite Hd.
  pose proof (utility_max_ge (m_shape a)) as Hmax.
  generalize dependent (utility_max (m_shape a)). intros M _ Hmax.
  induction Hin as [|i s index shape His _ IH]; constructor.
  - apply length_utility_to_string, length_to_string_mono.
    inversion Hmax; subst. lia.
  - apply IH. now inversion Hmax.
Qed.

(** C4, the names the code gives.  After [setup_unique_name], an element of
    a multi-element proxy that the user has not named is called
    [base[i]] (one dimension) or [base[i, j]] (two dimensions), in general
    the base name followed by the bracketed indices separated by ", "; every
    index is printed at the fixed width given by the number of digits of the
    largest shape entry, right-aligned and filled with blanks on the left
    (not with zeros). *)
Theorem setup_unique_name_label (base : string) (p : Proxy) (j : nat) :
  let a := proxy_array p in
  let w := m_max_digits a in
  let index := multi_dimensional_index a (Z.of_nat j) in
  constructed a ->
  Forall (fun s => 0 < s) (m_shape a) ->
  m_number_of_elements a <> 1 ->
  Z.of_nat j < m_number_of_elements a ->
  proxy_names p !! j = Some EmptyString ->
  proxy_names (setup_unique_name base p) !! j
    = Some (base ++ "[" ++ label_loop w index ++ "]")%string /\
  (forall i, index = [i] ->
     label_loop w index = utility_to_string w i) /\
  (forall i1 i2, index = [i1; i2] ->
     label_loop w index
     = (utility_to_string w i1 ++ ", " ++ utility_to_string w i2)%string) /\
  w = String.length (to_string (utility_max (m_shape a))) /\
  Forall (fun i =>
            utility_to_string w i
            = (repeat_char " " (w - String.length (to_string i))
                 ++ to_string i)%string /\
            String.length (utility_to_string w i) = w) index.
Proof.
  intros a w index Hc Hpos Hne Hj Hname.
  split; [|split; [|split; [|split]]].
  - unfold setup_unique_name. cbn [proxy_names].
    rewrite list_lookup_imap, Hname. cbn.
    unfold indices_label. fold a.
    destruct (Z.eqb_spec (m_number_of_elements a) 1); [contradiction|].
    reflexivity.
  - intros i ->. cbn [label_loop]. now rewrite !append_empty_r.
  - intros i1 i2 ->. cbn [label_loop]. now rewrite !append_empty_r.
  - apply Hc.
  - assert (Hin : in_shape index (m_shape a))
      by (apply multi_dimensional_index_in_shape; [assumption..|lia]).
    pose proof (in_shape_fits a _ Hc Hin) as Hfit.
    eapply Forall_impl; [exact Hfit|]. cbn beta. intros i Hi.
    split; [reflexivity|exact Hi].
Qed.

Lemma setup_unique_name_label_witness :
  exists p, create_proxy 0 [20; 30] = Some p /\
    proxy_names (setup_unique_name "g" p) !! 1%nat = Some "g[ 0,  1]"%string.
Proof.
  eexists. split; [reflexivity|].
  refine (proj1 (setup_unique_name_label "g" _ 1 _ _ _ _ _)).
  - now repeat split.
  - cbn. repeat constructor.
  - cbn. discriminate.
  - cbn. lia.
  - reflexivity.
Defined.

(** C4 as the specification words it fails: the variable [p(1)] of the test
    of [setup_unique_name] ([create_variables("p", {10})]) is named "p[ 1]",
    not the zero-padded "p[01]". *)
Lemma zero_padded_label_counterexample :
  exists p, create_proxy 0 [10] = Some p /\
    proxy_names (setup_unique_name "p" p) !! 1%nat = Some "p[ 1]"%string /\
    ("p" ++ spec_indices_label (proxy_array p) 1)%string = "p[01]"%string /\
    proxy_names (setup_unique_name "p" p) !! 1%nat
      <> Some ("p" ++ spec_indices_label (proxy_array p) 1)%string.
Proof.
  eexists. split; [reflexivity|].
  split; [reflexivity|]. split; [reflexivity|]. discriminate.
Qed.

(** The expected names of the test of [setup_unique_name]. *)
Example setup_unique_name_test :
  (proxy_names <$> (setup_unique_name "p" <$>
     (set_name 9 "_p_9" <$> (set_name 0 "_p_0" <$> create_proxy 1 [10]))))
  = Some ["_p_0"; "p[ 1]"; "p[ 2]"; "p[ 3]"; "p[ 4]"; "p[ 5]"; "p[ 6]";
          "p[ 7]"; "p[ 8]"; "_p_9"]%string /\
  ((fun g => (g !! 1%nat, g !! 598%nat)) <$>
     (proxy_names <$> (setup_unique_name "g" <$> create_proxy 2 [20; 30])))
  = Some (Some "g[ 0,  1]", Some "g[19, 28]")%string.
Proof. split; vm_compute; reflexivity. Qed.

(** ** The conversions of indices, the other way round *)

Lemma inner_product_init (l1 l2 : list Z) (init : Z) :
  inner_product l1 l2 init = init + inner_product l1 l2 0.
Proof.
  revert l2 init. induction l1 as [|a l1 IH]; intros [|b l2] init; cbn;
    try lia.
  rewrite (IH l2 (init + a * b)), (IH l2 (0 + a * b)). lia.
Qed.

Lemma flat_index_spec (t : list Z) :
  forall s0 i0 it,
    in_shape (i0 :: it) (s0 :: t) ->
    let v := inner_product (i0 :: it) (suffix_products t) 0 in
    0 <= v < s0 * product t /\
    index_loop (suffix_products t) v = i0 :: it.
Proof.
  induction t as [|s1 t IH]; intros s0 i0 it Hin; cbn zeta.
  - apply Forall2_cons in Hin as [H0 Hit]. apply Forall2_nil_inv_r in Hit.
    subst it. cbn. rewrite Z.quot_1_r. split; [lia|f_equal; lia].
  - apply Forall2_cons in Hin as [H0 Hit].
    destruct it as [|i1 it]; [now apply Forall2_nil_cons_inv in Hit|].
    destruct (IH s1 i1 it Hit) as [Hv Hloop].
    set (v := inner_product (i1 :: it) (suffix_products t) 0) in *.
    change (suffix_products (s1 :: t))
      with (product (s1 :: t) :: suffix_products t).
    change (inner_product (i0 :: i1 :: it)
              (product (s1 :: t) :: suffix_products t) 0)
      with (inner_product (i1 :: it) (suffix_products t)
              (0 + i0 * product (s1 :: t))).
    rewrite inner_product_init. fold v.
    change (product (s1 :: t)) with (s1 * product t) in *.
    set (P := s1 * product t) in *.
    assert (HP : 0 < P) by lia.
    split; [nia|].
    cbn [index_loop]. f_equal.
    + rewrite Z.add_0_l, Z.mul_comm. symmetry.
      apply Z.quot_unique with v; [nia|lia|reflexivity].
    + rewrite <- Hloop. f_equal.
      rewrite Z.add_0_l, Z.mul_comm. symmetry.
      apply Z.rem_unique with i0; [nia|lia|reflexivity].
Qed.

(** X5. [multi_dimensional_index] inverts [flat_index]: for an index whose
    components are within the shape, the flat index lies in
    [0, number_of_elements) and converting it back gives the index. *)
Theorem multi_dimensional_index_flat_index (a : AbstractMultiArray)
  (index : list Z) :
  constructed a ->
  in_shape index (m_shape a) ->
  0 <= flat_index a index < m_number_of_elements a /\
  multi_dimensional_index a (flat_index a index) = index.
Proof.
  intros (Hstrides & Helements & _ & _) Hin.
  unfold flat_index, multi_dimensional_index.
  destruct (m_shape a) as [|s0 t] eqn:Hshape; [discriminate|].
  rewrite compute_strides_cons in Hstrides. injection Hstrides as <-.
  destruct index as [|i0 it]; [now apply Forall2_nil_cons_inv in Hin|].
  destruct (flat_index_spec t s0 i0 it Hin) as [Hv Hloop].
  rewrite Helements, accumulate_product. split; assumption.
Qed.
Lemma multi_dimensional_index_flat_index_witness :
  exists a, make_shaped 0 [20; 30] = Some a /\
    flat_index a [19; 28] = 598 /\
    multi_dimensional_index a (flat_index a [19; 28]) = [19; 28].
Proof.
  eexists. split; [reflexivity|]. split; [reflexivity|].
  apply multi_dimensional_index_flat_index.
  - now repeat split.
  - cbn. repeat constructor; lia.
Defined.

Lemma length_suffix_products (t : list Z) :
  length (suffix_products t) = S (length t).
Proof. induction t as [|s t IH]; cbn; [reflexivity|now rewrite IH]. Qed.

Lemma update_index_loop (strides : list Z) (n : nat) :
  forall (o : nat) (v : list Z) (remain : Z),
    (o + n <= length v)%nat ->
    length strides = (o + n)%nat ->
    (fold_left
       (fun '(index, remain) i =>
          match strides !! i with
          | Some s => (<[i := Z.quot remain s]> index, Z.rem remain s)
          | None => (index, remain)
          end)
       (seq o n) (v, remain)).1
    = take o v ++ index_loop (drop o strides) remain ++ drop (o + n) v.
Proof.
  induction n as [|n IH]; intros o v remain Hv Hs.
  - cbn. rewrite Nat.add_0_r in *. rewrite drop_ge by lia. cbn.
    now rewrite take_drop.
  - cbn [seq fold_left].
    destruct (lookup_lt_is_Some_2 strides o) as [s Hso]; [lia|].
    rewrite Hso. rewrite IH by (rewrite ?length_insert; lia).
    rewrite (drop_S strides s o Hso). cbn [index_loop].
    rewrite (take_S_r (<[o:=Z.quot remain s]> v) o (Z.quot remain s))
      by (apply list_lookup_insert_eq; lia).
    rewrite take_insert_ge by lia.
    rewrite drop_insert_lt by lia.
    rewrite <- app_assoc. cbn.
    now replace (S (o + n)) with (o + S n)%nat by lia.
Qed.

(** X6. On a vector that has an entry for every dimension,
    [update_multi_dimensional_index] writes what [multi_dimensional_index]
    returns and leaves the entries behind the dimensions as they are. *)
Theorem update_multi_dimensional_index_agrees (a : AbstractMultiArray)
  (v : list Z) (k : Z) :
  constructed a ->
  (m_number_of_dimensions a <= length v)%nat ->
  update_multi_dimensional_index a v k
  = multi_dimensional_index a k ++ drop (m_number_of_dimensions a) v.
Proof.
  intros (Hstrides & _ & Hdims & _) Hv.
  unfold update_multi_dimensional_index, multi_dimensional_index.
  destruct (m_shape a) as [|s0 t] eqn:Hshape; [discriminate|].
  rewrite compute_strides_cons in Hstrides. injection Hstrides as Hst.
  rewrite (update_index_loop (m_strides a) (m_number_of_dimensions a) 0 v k).
  - reflexivity.
  - cbn. lia.
  - rewrite <- Hst, length_suffix_products, Hdims. reflexivity.
Qed.

Lemma update_multi_dimensional_index_agrees_witness :
  exists a, make_shaped 0 [20; 30] = Some a /\
    update_multi_dimensional_index a [7; 7; 7] 598 = [19; 28; 7].
Proof.
  eexists. split; [reflexivity|].
  rewrite update_multi_dimensional_index_agrees.
  - reflexivity.
  - now repeat split.
  - cbn. lia.
Defined.

(** ** The labels of the elements of a proxy differ *)

Lemma append_cons (c : ascii) (s r : string) :
  (String c s ++ r)%string = String c (s ++ r).
Proof. reflexivity. Qed.

Lemma append_assoc (s1 s2 s3 : string) :
  ((s1 ++ s2) ++ s3)%string = (s1 ++ (s2 ++ s3))%string.
Proof.
  induction s1 as [|c s1 IH]; [reflexivity|].
  now rewrite !append_cons, IH.
Qed.

Lemma append_inj_length (s1 s2 r1 r2 : string) :
  String.length s1 = String.length s2 ->
  (s1 ++ r1)%string = (s2 ++ r2)%string -> s1 = s2 /\ r1 = r2.
Proof.
  revert s2. induction s1 as [|c s1 IH]; intros [|d s2] Hlen Heq;
    try discriminate.
  - now split.
  - rewrite !append_cons in Heq. injection Heq as -> Heq.
    injection Hlen as Hlen. destruct (IH s2 Hlen Heq) as [-> ->].
    now split.
Qed.

Lemma digits_value_app (acc : Z) (s1 s2 : string) :
  digits_value acc (s1 ++ s2) = digits_value (digits_value acc s1) s2.
Proof.
  revert acc. induction s1 as [|c s1 IH]; intros acc; [reflexivity|].
  rewrite append_cons. cbn [digits_value]. apply IH.
Qed.

Lemma digit_value (d : Z) :
  0 <= d < 10 -> Z.of_nat (nat_of_ascii (digit_to_ascii d)) - 48 = d.
Proof.
  intros Hd. unfold digit_to_ascii. rewrite nat_ascii_embedding; lia.
Qed.

(** [std::to_string] loses nothing: the digits denote the number. *)
Lemma digits_value_decimal_digits (fuel : nat) :
  forall n, 0 <= n < 10 ^ Z.of_nat fuel ->
    digits_value 0 (decimal_digits fuel n) = n.
Proof.
  induction fuel as [|fuel IH]; intros n Hn.
  - change (Z.of_nat 0) with 0 in Hn. rewrite Z.pow_0_r in Hn. cbn. lia.
  - cbn [decimal_digits]. destruct (Z.ltb_spec n 10) as [Hlt|Hge].
    + cbn [digits_value]. rewrite digit_value; lia.
    + rewrite digits_value_app, IH.
      * cbn [digits_value]. rewrite digit_value.
        -- pose proof (Z.div_mod n 10). lia.
        -- apply Z.mod_pos_bound. lia.
      * rewrite Nat2Z.inj_succ, Z.pow_succ_r in Hn by lia.
        split; [apply Z.div_pos; lia|].
        apply Z.div_lt_upper_bound; lia.
Qed.

Lemma skip_blanks_nonblank (s : string) :
  starts_nonblank s -> skip_blanks s = s.
Proof.
  destruct s as [|c s]; [reflexivity|]. cbn [starts_nonblank]. intros Hc.
  destruct c as [[] [] [] [] [] [] [] []]; try reflexivity.
  now contradict Hc.
Qed.

Lemma digit_nonblank (d : Z) : 0 <= d < 10 -> digit_to_ascii d <> " "%char.
Proof.
  intros Hd E. apply (f_equal nat_of_ascii) in E.
  unfold digit_to_ascii in E. rewrite nat_ascii_embedding in E by lia.
  change (nat_of_ascii " ") with 32%nat in E. lia.
Qed.

Lemma decimal_digits_nonblank (fuel : nat) :
  forall n, 0 <= n -> starts_nonblank (decimal_digits fuel n).
Proof.
  induction fuel as [|fuel IH]; intros n Hn; [exact I|].
  cbn [decimal_digits]. destruct (Z.ltb_spec n 10) as [Hlt|Hge].
  - apply digit_nonblank. lia.
  - specialize (IH (n / 10) ltac:(apply Z.div_pos; lia)).
    destruct (decimal_digits fuel (n / 10)) as [|c s].
    + apply digit_nonblank. apply Z.mod_pos_bound. lia.
    + exact IH.
Qed.

Lemma skip_blanks_repeat (n : nat) (s : string) :
  skip_blanks (repeat_char " " n ++ s) = skip_blanks s.
Proof. induction n as [|n IH]; [reflexivity|exact IH]. Qed.

(** The value printed in a field is read back from it. *)
Lemma utility_to_string_value (width : nat) (i : Z) :
  0 <= i < 10 ^ 10 ->
  digits_value 0 (skip_blanks (utility_to_string width i)) = i.
Proof.
  intros Hi. unfold utility_to_string, to_string.
  destruct (Z.ltb_spec i 0) as [Hneg|_]; [lia|].
  rewrite skip_blanks_repeat, skip_blanks_nonblank
    by (apply decimal_digits_nonblank; lia).
  now apply digits_value_decimal_digits.
Qed.

Lemma label_loop_inj (width : nat) (index1 : list Z) :
  forall index2,
    length index1 = length index2 ->
    Forall (fun i => 0 <= i < 10 ^ 10 /\
                     String.length (utility_to_string width i) = width)
           index1 ->
    Forall (fun i => 0 <= i < 10 ^ 10 /\
                     String.length (utility_to_string width i) = width)
           index2 ->
    label_loop width index1 = label_loop width index2 ->
    index1 = index2.
Proof.
  induction index1 as [|i t IH]; intros [|j u] Hlen H1 H2 Heq;
    try discriminate; [reflexivity|].
  apply Forall_cons in H1 as [[Hi Hwi] H1].
  apply Forall_cons in H2 as [[Hj Hwj] H2].
  injection Hlen as Hlen. cbn [label_loop] in Heq.
  apply (append_inj_length (utility_to_string width i)
           (utility_to_string width j)) in Heq as [Hhead Htail];
    [|congruence].
  assert (i = j) as <-.
  { rewrite <- (utility_to_string_value width i Hi),
            <- (utility_to_string_value width j Hj).
    now rewrite Hhead. }
  f_equal. apply IH; try assumption.
  destruct t as [|i' t], u as [|j' u]; try discriminate; [reflexivity|].
  now injection Htail.
Qed.

Lemma length_label_loop (width : nat) (index : list Z) :
  Forall (fun i => String.length (utility_to_string width i) = width) index ->
  String.length (label_loop width index)
  = (length index * width + 2 * (length index - 1))%nat.
Proof.
  induction index as [|i t IH]; intros H; [reflexivity|].
  apply Forall_cons in H as [Hi Ht]. cbn [label_loop].
  rewrite !length_append, Hi, (IH Ht).
  destruct t as [|j t]; cbn; lia.
Qed.

Lemma index_fields (a : AbstractMultiArray) (k : Z) :
  constructed a ->
  Forall (fun s => 0 < s < 2 ^ 31) (m_shape a) ->
  0 <= k < m_number_of_elements a ->
  length (multi_dimensional_index a k) = m_number_of_dimensions a /\
  Forall (fun i => 0 <= i < 10 ^ 10 /\
                   String.length (utility_to_string (m_max_digits a) i)
                   = m_max_digits a)
         (multi_dimensional_index a k).
Proof.
  intros Hc Hshape Hk.
  assert (Hin : in_shape (multi_dimensional_index a k) (m_shape a)).
  { apply multi_dimensional_index_in_shape; [assumption| |assumption].
    eapply Forall_impl; [exact Hshape|]. cbn. lia. }
  split.
  - destruct Hc as (_ & _ & -> & _). exact (Forall2_length _ _ _ Hin).
  - apply Forall_and. split.
    + clear Hc Hk. unfold in_shape in Hin.
      induction Hin as [|i s l l' His Hin IH]; constructor.
      * apply Forall_cons in Hshape as [Hs _]. lia.
      * apply IH. now apply Forall_cons in Hshape as [_ Hshape].
    + now apply in_shape_fits.
Qed.

(** X7. The labels [indices_label] gives the elements of a proxy have all
    the same length: two brackets, the fields of [m_max_digits] characters
    and the separators between them. *)
Theorem indices_label_length (a : AbstractMultiArray) (k : Z) :
  constructed a ->
  Forall (fun s => 0 < s < 2 ^ 31) (m_shape a) ->
  0 <= k < m_number_of_elements a ->
  m_number_of_elements a <> 1 ->
  String.length (indices_label a k)
  = (2 + m_number_of_dimensions a * m_max_digits a
       + 2 * (m_number_of_dimensions a - 1))%nat.
Proof.
  intros Hc Hshape Hk Hn. unfold indices_label.
  destruct (Z.eqb_spec (m_number_of_elements a) 1) as [E|_]; [contradiction|].
  destruct (index_fields a k Hc Hshape Hk) as [Hlen Hfields].
  apply Forall_and in Hfields as [_ Hwidth].
  rewrite append_cons. cbn [String.length].
  rewrite !length_append, (length_label_loop _ _ Hwidth), Hlen. cbn. lia.
Qed.

Lemma indices_label_length_witness :
  exists a, make_shaped 0 [20; 30] = Some a /\
    String.length (indices_label a 598) = 8%nat.
Proof.
  eexists. split; [reflexivity|].
  rewrite indices_label_length.
  - reflexivity.
  - now repeat split.
  - cbn. repeat constructor; lia.
  - cbn. lia.
  - cbn. lia.
Defined.

(** X8. Two elements of a proxy never get the same label: on the flat
    indices [0 <= k < number_of_elements] of an array, [indices_label]
    gives different indices different labels. *)
Theorem indices_label_injective (a : AbstractMultiArray) (k1 k2 : Z) :
  constructed a ->
  Forall (fun s => 0 < s < 2 ^ 31) (m_shape a) ->
  0 <= k1 < m_number_of_elements a ->
  0 <= k2 < m_number_of_elements a ->
  k1 <> k2 ->
  indices_label a k1 <> indices_label a k2.
Proof.
  intros Hc Hshape Hk1 Hk2 Hne. unfold indices_label.
  destruct (Z.eqb_spec (m_number_of_elements a) 1) as [E|_]; [lia|].
  destruct (index_fields a k1 Hc Hshape Hk1) as [Hlen1 Hfields1].
  destruct (index_fields a k2 Hc Hshape Hk2) as [Hlen2 Hfields2].
  rewrite !append_cons. intros [= Heq]. apply Hne.
  assert (Hlabel : label_loop (m_max_digits a) (multi_dimensional_index a k1)
                   = label_loop (m_max_digits a)
                       (multi_dimensional_index a k2)).
  { refine (proj1 (append_inj_length _ _ "]" "]" _ Heq)).
    apply (f_equal String.length) in Heq. rewrite !length_append in Heq.
    cbn in Heq. lia. }
  apply label_loop_inj in Hlabel; [|congruence|assumption..].
  destruct Hc as (Hstrides & Helements & _ & _).
  unfold multi_dimensional_index in Hlabel.
  destruct (m_shape a) as [|s0 t] eqn:Es; [discriminate|].
  rewrite compute_strides_cons in Hstrides. injection Hstrides as Hst.
  rewrite <- Hst in Hlabel.
  rewrite Helements, accumulate_product in Hk1, Hk2.
  apply Forall_cons in Hshape as [Hs0 Ht].
  assert (Hpos : Forall (fun s => 0 < s) t).
  { eapply Forall_impl; [exact Ht|]. cbn. lia. }
  destruct (index_loop_spec t Hpos s0 k1 0 Hk1) as [E1 _].
  destruct (index_loop_spec t Hpos s0 k2 0 Hk2) as [E2 _].
  rewrite Hlabel in E1. lia.
Qed.

Lemma indices_label_injective_witness :
  make_shaped 0 [20; 30] = Some Examples.grid /\
  indices_label Examples.grid 1 <> indices_label Examples.grid 598.
Proof.
  split; [reflexivity|].
  apply indices_label_injective.
  - now repeat split.
  - cbn. repeat constructor; lia.
  - cbn. lia.
  - cbn. lia.
  - lia.
Defined.
(** ** The strides *)

Lemma suffix_products_lookup (t : list Z) (i : nat) :
  (i <= length t)%nat ->
  suffix_products t !! i = Some (product (drop i t)).
Proof.
  revert i. induction t as [|s t IH]; intros [|i] Hi; cbn in Hi;
    try lia; try reflexivity.
  cbn [suffix_products]. rewrite lookup_cons. apply IH. lia.
Qed.

(** X9. The constructor from a shape throws for the empty shape (there is
    no last stride to set) and builds an array for any other; the strides
    it computes are the ones of the row-major order: the stride of a
    dimension is the product of the shape entries of the dimensions behind
    it, so the last stride is 1 and the first shape entry does not enter
    the strides. *)
Theorem make_shaped_strides (id : Z) (shape : list Z) :
  (make_shaped id shape = None <-> shape = []) /\
  forall a, make_shaped id shape = Some a ->
    m_shape a = shape /\
    length (m_strides a) = length shape /\
    forall i, (i < length shape)%nat ->
      m_strides a !! i = Some (product (drop (S i) shape)).
Proof.
  unfold make_shaped, with_strides. cbn [m_shape]. split.
  - destruct shape as [|s t]; [now split|].
    rewrite compute_strides_cons. now split.
  - intros a. destruct shape as [|s t]; [discriminate|].
    rewrite compute_strides_cons. intros [= <-].
    cbn [m_shape m_strides length drop].
    split; [reflexivity|]. split; [apply length_suffix_products|].
    intros i Hi. apply suffix_products_lookup. lia.
Qed.

End MultiArrayFacts.

(** * Properties of IncumbentHolder *)

Module IncumbentHolderFacts.
Import IncumbentHolder.

Lemma Qltb_lt (x y : Q) : Qltb x y = true <-> (x < y)%Q.
Proof.
  unfold Qltb. rewrite Qlt_alt. destruct (x ?= y)%Q; split; congruence.
Qed.

Lemma objective_le_refl (a : Objective) : objective_le a a.
Proof. destruct a; cbn; [apply Qle_refl|exact I]. Qed.

Lemma objective_le_trans (a b c : Objective) :
  objective_le a b -> objective_le b c -> objective_le a c.
Proof.
  destruct a, b, c; cbn; try tauto. apply Qle_trans.
Qed.

Lemma Qltb_lt_iff (x y : Q) : (x < y)%Q <-> Qltb x y = true.
Proof. symmetry. apply Qltb_lt. Qed.

Lemma less_objective_le (x : Q) (incumbent : Objective) :
  less x incumbent = true -> objective_le (Finite x) incumbent.
Proof.
  destruct incumbent as [y|]; cbn; [|trivial].
  rewrite Qltb_lt. apply Qlt_le_weak.
Qed.

Section Holder.

Context {Solution : Type}.
Implicit Types (h : IncumbentHolder Solution) (a_SOLUTION : Solution).
Implicit Types (a_SCORE : SolutionScore).

(** One call: each stored objective either stays or becomes the presented
    objective, which was then strictly smaller. *)
Lemma try_update_global h a_SOLUTION a_SCORE :
  let h' := (try_update_incumbent h a_SOLUTION a_SCORE).2 in
  (m_global_augmented_incumbent_objective h'
     = m_global_augmented_incumbent_objective h /\
   less (global_augmented_objective a_SCORE)
        (m_global_augmented_incumbent_objective h) = false) \/
  (m_global_augmented_incumbent_objective h'
     = Finite (global_augmented_objective a_SCORE) /\
   less (global_augmented_objective a_SCORE)
        (m_global_augmented_incumbent_objective h) = true).
Proof.
  unfold try_update_incumbent.
  destruct (less (local_augmented_objective a_SCORE) _);
    cbn [store_local m_global_augmented_incumbent_objective];
    destruct (less (global_augmented_objective a_SCORE) _) eqn:Eg;
    destruct (is_feasible a_SCORE); cbn;
    try destruct (less (objective a_SCORE) _); cbn; auto.
Qed.

Lemma try_update_feasible h a_SOLUTION a_SCORE :
  let h' := (try_update_incumbent h a_SOLUTION a_SCORE).2 in
  (m_feasible_incumbent_objective h' = m_feasible_incumbent_objective h /\
   (is_feasible a_SCORE
      && less (objective a_SCORE) (m_feasible_incumbent_objective h))%bool
   = false) \/
  (m_feasible_incumbent_objective h' = Finite (objective a_SCORE) /\
   is_feasible a_SCORE = true /\
   less (objective a_SCORE) (m_feasible_incumbent_objective h) = true).
Proof.
  unfold try_update_incumbent.
  destruct (less (local_augmented_objective a_SCORE) _);
    cbn [store_local m_feasible_incumbent_objective];
    destruct (less (global_augmented_objective a_SCORE) _);
    cbn [store_global m_feasible_incumbent_objective];
    destruct (is_feasible a_SCORE); cbn;
    try destruct (less (objective a_SCORE) _) eqn:Ef; cbn; auto.
Qed.

Lemma try_update_local h a_SOLUTION a_SCORE :
  let h' := (try_update_incumbent h a_SOLUTION a_SCORE).2 in
  (m_local_augmented_incumbent_objective h'
     = m_local_augmented_incumbent_objective h /\
   less (local_augmented_objective a_SCORE)
        (m_local_augmented_incumbent_objective h) = false) \/
  (m_local_augmented_incumbent_objective h'
     = Finite (local_augmented_objective a_SCORE) /\
   less (local_augmented_objective a_SCORE)
        (m_local_augmented_incumbent_objective h) = true).
Proof.
  unfold try_update_incumbent.
  destruct (less (local_augmented_objective a_SCORE) _) eqn:El;
    destruct (less (global_augmented_objective a_SCORE) _);
    destruct (is_feasible a_SCORE); cbn;
    try destruct (less (objective a_SCORE) _); cbn; auto.
Qed.

(** After a call the augmented incumbent objectives are finite. *)
Lemma try_update_finite h a_SOLUTION a_SCORE :
  let h' := (try_update_incumbent h a_SOLUTION a_SCORE).2 in
  m_global_augmented_incumbent_objective h' <> HUGE_VALF /\
  m_local_augmented_incumbent_objective h' <> HUGE_VALF.
Proof.
  cbv zeta. split.
  - destruct (try_update_global h a_SOLUTION a_SCORE) as [[-> Hl]|[-> _]];
      [|discriminate].
    intros E. rewrite E in Hl. discriminate.
  - destruct (try_update_local h a_SOLUTION a_SCORE) as [[-> Hl]|[-> _]];
      [|discriminate].
    intros E. rewrite E in Hl. discriminate.
Qed.

(** The status is the sum of the flags of the incumbents the call updates. *)
Lemma try_update_status h a_SOLUTION a_SCORE :
  (try_update_incumbent h a_SOLUTION a_SCORE).1
  = (if less (local_augmented_objective a_SCORE)
             (m_local_augmented_incumbent_objective h)
     then STATUS_LOCAL_AUGMENTED_INCUMBENT_UPDATE else 0)
    + (if less (global_augmented_objective a_SCORE)
               (m_global_augmented_incumbent_objective h)
       then STATUS_GLOBAL_AUGMENTED_INCUMBENT_UPDATE else 0)
    + (if is_feasible a_SCORE
          && less (objective a_SCORE) (m_feasible_incumbent_objective h)
       then STATUS_FEASIBLE_INCUMBENT_UPDATE else 0).
Proof.
  unfold try_update_incumbent.
  destruct (less (local_augmented_objective a_SCORE) _);
    cbn [store_local m_global_augmented_incumbent_objective];
    destruct (less (global_augmented_objective a_SCORE) _);
    cbn [store_local store_global m_feasible_incumbent_objective];
    destruct (is_feasible a_SCORE); cbn;
    try destruct (less (objective a_SCORE) _); reflexivity.
Qed.

Lemma try_updates_app h (calls1 calls2 : list (Solution * SolutionScore)) :
  try_updates h (calls1 ++ calls2) = try_updates (try_updates h calls1) calls2.
Proof. apply fold_left_app. Qed.

Lemma try_updates_le h (calls : list (Solution * SolutionScore)) :
  objective_le (m_global_augmented_incumbent_objective (try_updates h calls))
               (m_global_augmented_incumbent_objective h) /\
  objective_le (m_feasible_incumbent_objective (try_updates h calls))
               (m_feasible_incumbent_objective h).
Proof.
  revert h. induction calls as [|[sol score] calls IH]; intros h.
  - split; apply objective_le_refl.
  - cbn [try_updates fold_left fst snd].
    destruct (IH (try_update_incumbent h sol score).2) as [IHg IHf].
    split; (eapply objective_le_trans; [eassumption|]).
    + destruct (try_update_global h sol score) as [[-> _]|[-> Hl]].
      * apply objective_le_refl.
      * now apply less_objective_le.
    + destruct (try_update_feasible h sol score) as [[-> _]|[-> [_ Hl]]].
      * apply objective_le_refl.
      * now apply less_objective_le.
Qed.

(** C6. Along any sequence of calls of [try_update_incumbent]
    (in particular one that starts after [initialize]) the global augmented
    and the feasible incumbent objectives never increase, and a call changes
    a stored incumbent objective only when the objective of the presented
    score is strictly smaller than the stored one (and, for the feasible
    incumbent, the score is feasible); it then stores that objective. *)
Theorem incumbent_monotonicity h
  (calls1 calls2 : list (Solution * SolutionScore)) a_SOLUTION a_SCORE :
  let before := try_updates h calls1 in
  let after := try_updates h (calls1 ++ calls2) in
  let next := (try_update_incumbent before a_SOLUTION a_SCORE).2 in
  objective_le (m_global_augmented_incumbent_objective after)
               (m_global_augmented_incumbent_objective before) /\
  objective_le (m_feasible_incumbent_objective after)
               (m_feasible_incumbent_objective before) /\
  (m_global_augmented_incumbent_objective next
     <> m_global_augmented_incumbent_objective before ->
   less (global_augmented_objective a_SCORE)
        (m_global_augmented_incumbent_objective before) = true /\
   m_global_augmented_incumbent_objective next
     = Finite (global_augmented_objective a_SCORE)) /\
  (m_feasible_incumbent_objective next
     <> m_feasible_incumbent_objective before ->
   is_feasible a_SCORE = true /\
   less (objective a_SCORE) (m_feasible_incumbent_objective before) = true /\
   m_feasible_incumbent_objective next = Finite (objective a_SCORE)) /\
  (m_local_augmented_incumbent_objective next
     <> m_local_augmented_incumbent_objective before ->
   less (local_augmented_objective a_SCORE)
        (m_local_augmented_incumbent_objective before) = true /\
   m_local_augmented_incumbent_objective next
     = Finite (local_augmented_objective a_SCORE)).
Proof.
  intros before after next. subst after. rewrite try_updates_app. fold before.
  destruct (try_updates_le before calls2) as [Hg Hf].
  split; [exact Hg|]. split; [exact Hf|]. subst next.
  split; [|split].
  - destruct (try_update_global before a_SOLUTION a_SCORE)
      as [[E _]|[E Hl]]; intros Hne; [contradiction|auto].
  - destruct (try_update_feasible before a_SOLUTION a_SCORE)
      as [[E _]|[E [Hfe Hl]]]; intros Hne; [contradiction|auto].
  - destruct (try_update_local before a_SOLUTION a_SCORE)
      as [[E _]|[E Hl]]; intros Hne; [contradiction|auto].
Qed.

(** ** What the holder stores after a sequence of calls *)

Lemma less_false (x : Q) (y : Q) : less x (Finite y) = false -> (y <= x)%Q.
Proof.
  cbn. intros H. apply Qnot_lt_le. intros Hlt.
  apply Qltb_lt in Hlt. congruence.
Qed.

Lemma less_true (x : Q) (y : Q) : less x (Finite y) = true -> (x <= y)%Q.
Proof. cbn. rewrite Qltb_lt. apply Qlt_le_weak. Qed.

Lemma stores_new (solution : Solution) (score : SolutionScore) :
  stores [] (new solution score).
Proof.
  repeat split; try reflexivity; try discriminate. intros H. now contradiction H.
Qed.

Lemma try_update_found h a_SOLUTION a_SCORE :
  m_found_feasible_solution (try_update_incumbent h a_SOLUTION a_SCORE).2
  = m_found_feasible_solution h || is_feasible a_SCORE.
Proof.
  unfold try_update_incumbent.
  destruct (less (local_augmented_objective a_SCORE) _);
    destruct (less (global_augmented_objective a_SCORE) _);
    destruct (is_feasible a_SCORE); cbn;
    try destruct (less (objective a_SCORE) _); cbn;
    now destruct (m_found_feasible_solution h).
Qed.

Lemma try_update_feasible_solution h a_SOLUTION a_SCORE :
  let h' := (try_update_incumbent h a_SOLUTION a_SCORE).2 in
  (m_feasible_incumbent_objective h' = m_feasible_incumbent_objective h /\
   m_feasible_incumbent_solution h' = m_feasible_incumbent_solution h /\
   (is_feasible a_SCORE
      && less (objective a_SCORE) (m_feasible_incumbent_objective h))%bool
   = false) \/
  (m_feasible_incumbent_objective h' = Finite (objective a_SCORE) /\
   m_feasible_incumbent_solution h' = a_SOLUTION /\
   is_feasible a_SCORE = true /\
   less (objective a_SCORE) (m_feasible_incumbent_objective h) = true).
Proof.
  unfold try_update_incumbent.
  destruct (less (local_augmented_objective a_SCORE) _);
    cbn [store_local m_feasible_incumbent_objective];
    destruct (less (global_augmented_objective a_SCORE) _);
    cbn [store_global m_feasible_incumbent_objective];
    destruct (is_feasible a_SCORE); cbn;
    try destruct (less (objective a_SCORE) _) eqn:Ef; cbn; auto.
Qed.

Lemma try_update_global_solution h a_SOLUTION a_SCORE :
  let h' := (try_update_incumbent h a_SOLUTION a_SCORE).2 in
  (m_global_augmented_incumbent_objective h'
     = m_global_augmented_incumbent_objective h /\
   m_global_augmented_incumbent_solution h'
     = m_global_augmented_incumbent_solution h /\
   less (global_augmented_objective a_SCORE)
        (m_global_augmented_incumbent_objective h) = false) \/
  (m_global_augmented_incumbent_objective h'
     = Finite (global_augmented_objective a_SCORE) /\
   m_global_augmented_incumbent_solution h' = a_SOLUTION /\
   less (global_augmented_objective a_SCORE)
        (m_global_augmented_incumbent_objective h) = true).
Proof.
  unfold try_update_incumbent.
  destruct (less (local_augmented_objective a_SCORE) _);
    cbn [store_local m_global_augmented_incumbent_objective];
    destruct (less (global_augmented_objective a_SCORE) _) eqn:Eg;
    destruct (is_feasible a_SCORE); cbn;
    try destruct (less (objective a_SCORE) _); cbn; auto.
Qed.

Lemma stores_step calls h a_SOLUTION a_SCORE :
  stores calls h ->
  stores (calls ++ [(a_SOLUTION, a_SCORE)])
         (try_update_incumbent h a_SOLUTION a_SCORE).2.
Proof.
  intros (Hfound & Hnone & Hfeas & Hempty & Hglob).
  unfold stores. rewrite try_update_found, existsb_app, Hfound. cbn [existsb snd].
  rewrite orb_false_r.
  split; [reflexivity|]. split; [|split; [|split]].
  - intros [Hf Hs]%orb_false_iff.
    destruct (try_update_feasible_solution h a_SOLUTION a_SCORE)
      as [(-> & _ & _)|(_ & _ & Hfe & _)]; [|congruence].
    apply Hnone. now rewrite Hfound.
  - intros Hor.
    destruct (try_update_feasible_solution h a_SOLUTION a_SCORE)
      as [(-> & -> & Hno)|(-> & -> & Hfe & Hl)].
    + (* not stored *)
      destruct (m_found_feasible_solution h) eqn:Hfd.
      * destruct (Hfeas eq_refl) as (score & Hin & Hsf & Hobj & Hmin).
        exists score. split; [apply in_app_iff; now left|].
        split; [exact Hsf|]. split; [exact Hobj|].
        intros c [Hc|[<-|[]]]%in_app_iff Hcf; [now apply Hmin|].
        cbn in Hcf |- *. rewrite Hcf, Hobj in Hno. cbn in Hno.
        now apply less_false in Hno.
      * rewrite (Hnone eq_refl) in Hno. cbn in Hno.
        rewrite andb_true_r in Hno. rewrite <- Hfound, Hno in Hor.
        discriminate.
    + (* stored *)
      exists a_SCORE. split; [apply in_app_iff; right; now left|].
      split; [exact Hfe|]. split; [reflexivity|].
      intros c [Hc|[<-|[]]]%in_app_iff Hcf; [|apply Qle_refl].
      destruct (m_found_feasible_solution h) eqn:Hfd.
      * destruct (Hfeas eq_refl) as (score & Hin & Hsf & Hobj & Hmin).
        rewrite Hobj in Hl. apply less_true in Hl.
        eapply Qle_trans; [exact Hl|]. now apply Hmin.
      * exfalso. rewrite Hfound in Hfd.
        assert (existsb (fun c => is_feasible c.2) calls = true).
        { apply existsb_exists. eauto. }
        congruence.
  - intros Happ. now destruct calls.
  - intros _.
    destruct (try_update_global_solution h a_SOLUTION a_SCORE)
      as [(-> & -> & Hno)|(-> & -> & Hl)].
    + destruct calls as [|c0 calls0] eqn:Ecalls.
      * rewrite (Hempty eq_refl) in Hno. discriminate.
      * destruct Hglob as (score & Hin & Hobj & Hmin); [discriminate|].
        exists score. split; [apply in_app_iff; now left|].
        split; [exact Hobj|].
        intros c [Hc|[<-|[]]]%in_app_iff; [now apply Hmin|].
        rewrite Hobj in Hno. now apply less_false in Hno.
    + exists a_SCORE. split; [apply in_app_iff; right; now left|].
      split; [reflexivity|].
      intros c [Hc|[<-|[]]]%in_app_iff; [|apply Qle_refl].
      destruct calls as [|c0 calls0] eqn:Ecalls; [destruct Hc|].
      destruct Hglob as (score & Hin & Hobj & Hmin); [discriminate|].
      rewrite Hobj in Hl. apply less_true in Hl.
      eapply Qle_trans; [exact Hl|]. now apply Hmin.
Qed.

Lemma stores_try_updates calls0 h (calls : list (Solution * SolutionScore)) :
  stores calls0 h -> stores (calls0 ++ calls) (try_updates h calls).
Proof.
  revert calls0 h. induction calls as [|[sol score] calls IH]; intros calls0 h H.
  - now rewrite app_nil_r.
  - cbn [try_updates fold_left fst snd].
    replace (calls0 ++ (sol, score) :: calls)
      with ((calls0 ++ [(sol, score)]) ++ calls)
      by now rewrite <- app_assoc.
    apply IH. now apply stores_step.
Qed.

End Holder.

Lemma incumbent_monotonicity_witness :
  let s := Examples.solution_of [[0]] in
  let before :=
    try_updates (new s (Examples.score_of 0 0)) [(s, Examples.score_of 3 2)] in
  let next := (try_update_incumbent before s (Examples.score_of 1 2)).2 in
  m_global_augmented_incumbent_objective next
    <> m_global_augmented_incumbent_objective before /\
  less (global_augmented_objective (Examples.score_of 1 2))
       (m_global_augmented_incumbent_objective before) = true /\
  m_global_augmented_incumbent_objective next
    = Finite (global_augmented_objective (Examples.score_of 1 2)).
Proof.
  intros s before next.
  assert (Hne : m_global_augmented_incumbent_objective next
                <> m_global_augmented_incumbent_objective before)
    by discriminate.
  split; [exact Hne|].
  destruct (incumbent_monotonicity (new s (Examples.score_of 0 0))
              [(s, Examples.score_of 3 2)] [] s (Examples.score_of 1 2))
    as (_ & _ & H & _).
  exact (H Hne).
Defined.

(** ** The overload that takes the model *)

Section ModelOverload.

Context {Solution Model : Type}.
Variable export_solution : Model -> Solution.
Implicit Types (h : IncumbentHolder Solution) (a_SCORE : SolutionScore).

(** X10. The overload of [try_update_incumbent] that takes the model does
    what the overload that takes a solution does with
    [a_model->export_solution()], and it exports the solution at most once:
    exactly once when an incumbent is updated, not at all when the status
    is [STATUS_NO_UPDATED]. *)
Theorem try_update_incumbent_model_agrees (default : Solution) h
  (a_model : Model) a_SCORE :
  let by_model :=
    try_update_incumbent_model export_solution default h a_model a_SCORE in
  let by_solution :=
    try_update_incumbent h (export_solution a_model) a_SCORE in
  by_model.1 = by_solution /\
  by_model.2 = if by_solution.1 =? STATUS_NO_UPDATED then 0%nat else 1%nat.
Proof.
  unfold try_update_incumbent_model, try_update_incumbent, export_once.
  destruct (less (local_augmented_objective a_SCORE) _);
    cbn [store_local m_global_augmented_incumbent_objective negb fst snd];
    destruct (less (global_augmented_objective a_SCORE) _);
    cbn [store_local store_global m_feasible_incumbent_objective negb
         set_found_feasible_solution fst snd];
    destruct (is_feasible a_SCORE);
    cbn [store_local store_global m_feasible_incumbent_objective negb
         set_found_feasible_solution fst snd];
    try destruct (less (objective a_SCORE) _); now split.
Qed.

End ModelOverload.

Section Holder.

Context {Solution : Type}.
Implicit Types (h : IncumbentHolder Solution) (a_SOLUTION : Solution).
Implicit Types (a_SCORE : SolutionScore).

(** X11. An incumbent is replaced only by a strictly better solution: when
    the objective of the presented score is not below the objective of an
    incumbent (or, for the feasible incumbent, the score is not feasible),
    the call leaves the solution, the score and the objective of this
    incumbent as they are.  A call that returns [STATUS_NO_UPDATED] leaves
    the whole holder as it is, but for the flag of a feasible solution
    found, which a feasible score sets. *)
Theorem try_update_incumbent_no_update h a_SOLUTION a_SCORE :
  let status := (try_update_incumbent h a_SOLUTION a_SCORE).1 in
  let h' := (try_update_incumbent h a_SOLUTION a_SCORE).2 in
  (status = STATUS_NO_UPDATED ->
   h' = if is_feasible a_SCORE then set_found_feasible_solution h else h) /\
  (less (local_augmented_objective a_SCORE)
        (m_local_augmented_incumbent_objective h) = false ->
   m_local_augmented_incumbent_solution h'
     = m_local_augmented_incumbent_solution h /\
   m_local_augmented_incumbent_score h'
     = m_local_augmented_incumbent_score h /\
   m_local_augmented_incumbent_objective h'
     = m_local_augmented_incumbent_objective h) /\
  (less (global_augmented_objective a_SCORE)
        (m_global_augmented_incumbent_objective h) = false ->
   m_global_augmented_incumbent_solution h'
     = m_global_augmented_incumbent_solution h /\
   m_global_augmented_incumbent_score h'
     = m_global_augmented_incumbent_score h /\
   m_global_augmented_incumbent_objective h'
     = m_global_augmented_incumbent_objective h) /\
  (is_feasible a_SCORE
   && less (objective a_SCORE) (m_feasible_incumbent_objective h) = false ->
   m_feasible_incumbent_solution h' = m_feasible_incumbent_solution h /\
   m_feasible_incumbent_score h' = m_feasible_incumbent_score h /\
   m_feasible_incumbent_objective h' = m_feasible_incumbent_objective h).
Proof.
  cbn zeta. unfold try_update_incumbent.
  destruct (less (local_augmented_objective a_SCORE) _);
    cbn [store_local m_global_augmented_incumbent_objective];
    destruct (less (global_augmented_objective a_SCORE) _);
    cbn [store_local store_global m_feasible_incumbent_objective];
    destruct (is_feasible a_SCORE);
    cbn [store_local store_global m_feasible_incumbent_objective
         set_found_feasible_solution];
    try destruct (less (objective a_SCORE) _); cbn;
    (split; [intros H; try discriminate; reflexivity|]);
    (split; [intros H; try discriminate; now repeat split|]);
    (split; intros H; try discriminate; now repeat split).
Qed.


End Holder.

Lemma try_update_incumbent_no_update_witness :
  let s := Examples.solution_of [[0]] in
  (try_update_incumbent Examples.holder_5 s (Examples.score_of 3 2)).2
  = Examples.holder_5.
Proof.
  exact (proj1 (try_update_incumbent_no_update Examples.holder_5
                  (Examples.solution_of [[0]]) (Examples.score_of 3 2))
               eq_refl).
Defined.

(** ** The local augmented incumbent since the last reset *)

Section Local.

Context {Solution : Type}.
Implicit Types (h : IncumbentHolder Solution) (a_SOLUTION : Solution).
Implicit Types (a_SCORE : SolutionScore).



End Local.


End IncumbentHolderFacts.

(** * Properties of the table of the tabu search *)

Module TabuSearchPrintFacts.
Import IncumbentHolder TabuSearchPrint.

Section Holder.

Context {Solution : Type}.
Implicit Types (h : IncumbentHolder Solution) (a_SOLUTION : Solution).
Implicit Types (a_SCORE : SolutionScore).

(** X14. The marks of a line of the table of the tabu search, for the
    status a call of [try_update_incumbent] returns: the feasible incumbent
    is marked with a star exactly when the call has updated it, the global
    augmented incumbent with an exclamation mark exactly when the call has
    updated it, and the current solution carries the star if the feasible
    incumbent was updated, else the exclamation mark if the global
    augmented incumbent was, else a blank. *)
Theorem print_table_body_marks_status h a_SOLUTION a_SCORE :
  let status := (try_update_incumbent h a_SOLUTION a_SCORE).1 in
  let global_updated :=
    less (global_augmented_objective a_SCORE)
         (m_global_augmented_incumbent_objective h) in
  let feasible_updated :=
    is_feasible a_SCORE
    && less (objective a_SCORE) (m_feasible_incumbent_objective h) in
  print_table_body_marks status false = None /\
  print_table_body_marks status true
  = Some {| mark_current :=
              if feasible_updated then "*"
              else if global_updated then "!" else " ";
            mark_global_augmented_incumbent :=
              if global_updated then "!" else " ";
            mark_feasible_incumbent :=
              if feasible_updated then "*" else " " |}.
Proof.
  cbn zeta. rewrite IncumbentHolderFacts.try_update_status. split; [reflexivity|].
  destruct (less (local_augmented_objective a_SCORE) _),
    (less (global_augmented_objective a_SCORE) _),
    (is_feasible a_SCORE), (less (objective a_SCORE) _); reflexivity.
Qed.

End Holder.

End TabuSearchPrintFacts.

(** * Properties of the solver *)

Module SolverFacts.
Import IncumbentHolder Solver.
Import Solution(Solution, variable_value_proxies, violation_value_proxies).

(** ** Tightening of the local penalty coefficients *)

Lemma fold_left_Qmax (t : list Q) (x : Q) :
  (x <= fold_left Qmax t x)%Q /\
  Forall (fun y => (y <= fold_left Qmax t x)%Q) t /\
  (fold_left Qmax t x = x \/ fold_left Qmax t x ∈ t).
Proof.
  revert x. induction t as [|y t IH]; intros x; cbn [fold_left].
  - split; [apply Qle_refl|]. split; [constructor|now left].
  - destruct (IH (Qmax x y)) as (H1 & H2 & H3).
    split; [eapply Qle_trans; [apply Q.le_max_l|exact H1]|].
    split.
    + constructor; [eapply Qle_trans; [apply Q.le_max_r|exact H1]|exact H2].
    + destruct H3 as [H3|H3].
      * rewrite H3. unfold Qmax, GenericMinMax.gmax.
        destruct (x ?= y)%Q; [now left|right; apply list_elem_of_here|now left].
      * right. now apply list_elem_of_further.
Qed.

Lemma utility_max_spec (l : list Q) :
  l <> [] ->
  Forall (fun y => (y <= utility_max l)%Q) l /\ utility_max l ∈ l.
Proof.
  destruct l as [|x t]; [intros H; now contradiction H|intros _].
  cbn [utility_max]. destruct (fold_left_Qmax t x) as (H1 & H2 & H3).
  split; [now constructor|].
  destruct H3 as [->|H3];
    [apply list_elem_of_here|now apply list_elem_of_further].
Qed.

Lemma tightened_increase (o : Option) (gap : Q) (violations : list (list Q))
  (id j : nat) (element : Q) :
  (0 <= gap)%Q ->
  (tightened o gap violations id j element
   == element + increase o gap violations (violation_at violations id j))%Q.
Proof.
  intros Hgap. unfold tightened, increase. cbv zeta.
  rewrite (Q.max_r 0 gap Hgap). unfold Qdiv. ring.
Qed.

Lemma tighten_proxy_lookup (o : Option) (gap : Q) (violations : list (list Q))
  (id j : nat) (proxy : list Q) (old : Q) :
  proxy !! j = Some old ->
  tighten_proxy o gap violations id proxy !! j
  = Some (Qmin (if is_enabled_grouping_penalty_coefficient o
                then utility_max (imap (tightened o gap violations id) proxy)
                else tightened o gap violations id j old)
               (initial_penalty_coefficient o)).
Proof.
  intros Hj. unfold tighten_proxy.
  change (@map Q Q) with (@fmap list _ Q Q).
  destruct (is_enabled_grouping_penalty_coefficient o).
  - change (@map Q Q) with (@fmap list _ Q Q).
    now rewrite !list_lookup_fmap, list_lookup_imap, Hj.
  - now rewrite !list_lookup_fmap, list_lookup_imap, Hj.
Qed.

Lemma tighten_lookup (o : Option) (gap : Q) (violations : list (list Q))
  (local : list (list Q)) (id j : nat) (proxy : list Q) (old : Q) :
  local !! id = Some proxy -> proxy !! j = Some old ->
  lookup2 (imap (tighten_proxy o gap violations) local) (id, j)
  = Some (Qmin (if is_enabled_grouping_penalty_coefficient o
                then utility_max (imap (tightened o gap violations id) proxy)
                else tightened o gap violations id j old)
               (initial_penalty_coefficient o)).
Proof.
  intros Hid Hj. unfold lookup2. cbn [fst snd].
  rewrite list_lookup_imap, Hid. cbn.
  now apply tighten_proxy_lookup.
Qed.

(** Lines 636-644 compute the sum of the violations and of their squares. *)
Lemma total_penalty_sum (violations : list (list Q)) :
  (total_penalty violations == fold_right Qplus 0 (concat violations))%Q.
Proof.
  unfold total_penalty.
  assert (Hin : forall l r,
             (fold_left (fun total element => total + element) l r
              == r + fold_right Qplus 0 l)%Q).
  { induction l as [|x l IH]; intros r; cbn [fold_left fold_right]; [ring|].
    rewrite IH. ring. }
  assert (Hout : forall ls r,
             (fold_left (fun total proxy =>
                           fold_left (fun total element => total + element)
                                     proxy total) ls r
              == r + fold_right Qplus 0 (concat ls))%Q).
  { induction ls as [|l ls IH]; intros r; cbn [fold_left concat];
      [cbn; ring|].
    rewrite IH, Hin, MemoryFacts.sum_Q_app. ring. }
  rewrite Hout. ring.
Qed.

Lemma total_squared_violation_sum (violations : list (list Q)) :
  (total_squared_violation violations
   == fold_right Qplus 0 (map (fun v => v * v) (concat violations)))%Q.
Proof.
  unfold total_squared_violation.
  assert (Hin : forall l r,
             (fold_left (fun total element => total + element * element) l r
              == r + fold_right Qplus 0 (map (fun v => v * v) l))%Q).
  { induction l as [|x l IH]; intros r; cbn [fold_left fold_right map];
      [ring|].
    rewrite IH. ring. }
  assert (Hout : forall ls r,
             (fold_left
                (fun total proxy =>
                   fold_left (fun total element => total + element * element)
                             proxy total) ls r
              == r + fold_right Qplus 0
                       (map (fun v => v * v) (concat ls)))%Q).
  { induction ls as [|l ls IH]; intros r; cbn [fold_left concat];
      [cbn; ring|].
    rewrite IH, Hin, map_app, MemoryFacts.sum_Q_app. ring. }
  rewrite Hout. ring.
Qed.

(** ** The local penalty coefficients stay below the initial one *)

Lemma Forall_imap {A B : Type} (P : B -> Prop) (f : nat -> A -> B)
  (l : list A) :
  (forall i x, l !! i = Some x -> P (f i x)) -> Forall P (imap f l).
Proof.
  intros H. apply Forall_lookup. intros i y Hy.
  rewrite list_lookup_imap in Hy.
  destruct (l !! i) as [x|] eqn:E; [|discriminate].
  injection Hy as <-. now apply H.
Qed.

Lemma tighten_proxy_bounded (o : Option) (gap : Q)
  (violations : list (list Q)) (id : nat) (proxy : list Q) :
  Forall (fun x => (x <= initial_penalty_coefficient o)%Q)
         (tighten_proxy o gap violations id proxy).
Proof.
  unfold tighten_proxy. apply Forall_forall. intros x Hx.
  apply list_elem_of_In, in_map_iff in Hx as (y & <- & _).
  apply Q.le_min_r.
Qed.

Lemma relax_proxy_bounded (EPSILON : Q) (o : Option)
  (violations : list (list Q)) (id : nat) (proxy : list Q) :
  (0 <= initial_penalty_coefficient o)%Q ->
  (0 <= penalty_coefficient_relaxing_rate o <= 1)%Q ->
  Forall (fun x => (x <= initial_penalty_coefficient o)%Q) proxy ->
  Forall (fun x => (x <= initial_penalty_coefficient o)%Q)
         (relax_proxy EPSILON o violations id proxy).
Proof.
  intros Hinitial Hrate Hproxy. unfold relax_proxy. apply Forall_imap.
  intros j x Hx.
  pose proof (proj1 (Forall_lookup _ _) Hproxy j x Hx) as Hle. cbn in Hle.
  destruct (Qltb _ _); [|exact Hle].
  destruct (Qlt_le_dec x 0); nra.
Qed.

Lemma update_local_penalty_coefficients_bounded (EPSILON : Q) (o : Option)
  (flag : bool) (gap : option Q) (s : Solution)
  (local global : list (list Q)) :
  (0 <= initial_penalty_coefficient o)%Q ->
  (0 <= penalty_coefficient_relaxing_rate o <= 1)%Q ->
  Forall (Forall (fun x => (x <= initial_penalty_coefficient o)%Q)) local ->
  Forall (Forall (fun x => (x <= initial_penalty_coefficient o)%Q)) global ->
  Forall (Forall (fun x => (x <= initial_penalty_coefficient o)%Q))
         (update_local_penalty_coefficients EPSILON o flag gap s local global).
Proof.
  intros Hinitial Hrate Hlocal Hglobal.
  assert (Hrelax :
            Forall (Forall (fun x => (x <= initial_penalty_coefficient o)%Q))
                   (imap (relax_proxy EPSILON o (violation_value_proxies s))
                         local)).
  { apply Forall_imap. intros i proxy Hi.
    apply relax_proxy_bounded; try assumption.
    exact (proj1 (Forall_lookup _ _) Hlocal i proxy Hi). }
  unfold update_local_penalty_coefficients.
  destruct flag; [assumption|].
  destruct gap as [gap|]; [|assumption].
  destruct (_ && _); [|assumption].
  apply Forall_imap. intros i proxy _. apply tighten_proxy_bounded.
Qed.

Section Solve.

Variable EPSILON : Q.
Context {Rest NamedSolution : Type}.
Variable adjusted_target_objective_value : Rest -> Option -> Q.
Variable setup : Option -> Rest -> Rest * option Error.
Variable generate_constraint_parameter_proxies : Rest -> Q -> list (list Q).
Variable update : Rest -> Rest.
Variable export_solution : Rest -> Solution.
Variable evaluate : Rest -> list (list Q) -> list (list Q) -> SolutionScore.
Variable default_solution : Solution.
Variable default_score : SolutionScore.
Variable lagrange_dual_applicable : Rest -> bool.
Variable elapsed_time : Rest -> Q.
Variable lagrange_dual_solve local_search_solve tabu_search_solve :
  Rest -> Option -> list (list Q) -> list (list Q) -> list (list Z) ->
  Holder -> SearchResult * Rest.
Variable prepare_next_loop : Rest -> bool -> Rest.
Variable import_variable_values : Rest -> list (list Z) -> Rest.
Variable convert_to_named_solution : Rest -> Solution -> NamedSolution.

#[local] Abbreviation solve_marked :=
  (solve_marked EPSILON adjusted_target_objective_value setup
     generate_constraint_parameter_proxies update export_solution evaluate
     default_solution default_score lagrange_dual_applicable elapsed_time
     lagrange_dual_solve local_search_solve tabu_search_solve
     prepare_next_loop import_variable_values convert_to_named_solution).

#[local] Abbreviation solve :=
  (solve EPSILON adjusted_target_objective_value setup
     generate_constraint_parameter_proxies update export_solution evaluate
     default_solution default_score lagrange_dual_applicable elapsed_time
     lagrange_dual_solve local_search_solve tabu_search_solve
     prepare_next_loop import_variable_values convert_to_named_solution).

#[local] Abbreviation loop_body :=
  (loop_body EPSILON tabu_search_solve prepare_next_loop).

#[local] Abbreviation outer_loop :=
  (outer_loop EPSILON elapsed_time tabu_search_solve prepare_next_loop).

(** Nothing after line 46 writes the latch. *)
Lemma solve_marked_is_solved (m : Model) (o : Option) :
  is_solved (solve_marked m o).1 = is_solved m.
Proof.
  unfold Solver.solve_marked.
  destruct (setup _ _) as [r [e|]]; [reflexivity|].
  lazymatch goal with
  | |- context [match ?x with inl _ => _ | inr _ => _ end] =>
      destruct x as [[e r']|st]
  end; [reflexivity|].
  lazymatch goal with
  | |- context [let '(_, _) := ?x in _] => now destruct x
  end.
Qed.

(** C8. Whatever the first call of [solve] on a model does, the model is
    marked as solved after it and a second call throws the logic error
    "This model has already been solved." without touching the model.  On a
    model not yet solved the first call sets the mark first: setup and
    searches run on the marked model. *)
Theorem solve_twice (m : Model) (o o' : Option) :
  let first := solve m o in
  is_solved first.1 = true /\
  solve first.1 o' = (first.1, inl AlreadySolved) /\
  (is_solved m = true -> first = (m, inl AlreadySolved)) /\
  (is_solved m = false ->
   is_solved (set_is_solved true m) = true /\
   first = solve_marked (set_is_solved true m) o).
Proof.
  intros first.
  assert (H : is_solved first.1 = true).
  { subst first. unfold Solver.solve.
    destruct (is_solved m) eqn:E; [exact E|].
    now rewrite solve_marked_is_solved. }
  split; [exact H|]. split; [|split].
  - unfold Solver.solve at 1. now rewrite H.
  - intros E. subst first. unfold Solver.solve. now rewrite E.
  - intros E. split; [reflexivity|].
    subst first. unfold Solver.solve. now rewrite E.
Qed.

Lemma update_not_update_count_updated (status count : Z) (o : Option) :
  status <> 0 -> update_not_update_count status count o = (0, false).
Proof.
  intros H. unfold update_not_update_count.
  destruct (Z.eqb_spec status 0); [contradiction|reflexivity].
Qed.

Lemma update_not_update_count_not_updated (count : Z) (o : Option) :
  update_not_update_count STATUS_NO_UPDATED count o
  = if count + 1 =? penalty_coefficient_reset_count_threshold o
    then (0, true) else (count + 1, false).
Proof. reflexivity. Qed.

Lemma update_local_penalty_coefficients_reset (o : Option) (gap : option Q)
  (s : Solution) (local global : list (list Q)) :
  update_local_penalty_coefficients EPSILON o true gap s local global = global.
Proof. reflexivity. Qed.

(** What a loop that does not throw leaves behind. *)
Lemma loop_body_inr (o : Option) (st st' : LoopState) :
  loop_body o st = inr st' ->
  let result :=
    (tabu_search_solve (loop_rest st) o
       (local_penalty_coefficient_proxies st)
       (global_penalty_coefficient_proxies st)
       (variable_value_proxies (current_solution st))
       (loop_incumbent_holder st)).1 in
  let presented := present_global (loop_incumbent_holder st) result in
  let counted :=
    update_not_update_count presented.1 (not_update_count st) o in
  let h := present_feasible presented.2 result in
  not_update_count st' = counted.1 /\
  penalty_coefficient_reset_flag st' = counted.2 /\
  loop_incumbent_holder st' = h /\
  global_penalty_coefficient_proxies st'
    = global_penalty_coefficient_proxies st /\
  iteration st' = iteration st + 1 /\
  local_penalty_coefficient_proxies st'
    = update_local_penalty_coefficients EPSILON o counted.2
        (gap_of (m_global_augmented_incumbent_objective h)
                (m_local_augmented_incumbent_objective
                   (incumbent_holder result)))
        (m_local_augmented_incumbent_solution (incumbent_holder result))
        (local_penalty_coefficient_proxies st)
        (global_penalty_coefficient_proxies st).
Proof.
  unfold Solver.loop_body.
  destruct (tabu_search_solve _ _ _ _ _ _) as [result rest1]. cbn [fst].
  destruct (present_global _ result) as [status h1]. cbn [fst snd].
  destruct (update_not_update_count _ _ _) as [count flag]. cbn [fst snd].
  destruct (restart_mode o); [| |discriminate];
    intros [= <-]; cbn; repeat split; reflexivity.
Qed.

(** The gap of line 616 is taken of a finite global objective: the main
    holder has just been presented the incumbent of the search. *)
Lemma loop_body_global_finite (o : Option) (st st' : LoopState) :
  loop_body o st = inr st' ->
  m_global_augmented_incumbent_objective (loop_incumbent_holder st')
    <> HUGE_VALF.
Proof.
  intros H. destruct (loop_body_inr o st st' H) as (_ & _ & -> & _).
  unfold present_feasible, present_global.
  destruct (m_found_feasible_solution _);
    apply IncumbentHolderFacts.try_update_finite.
Qed.

(** C2, what the loop does.  The count of successive loops is set to zero,
    and no reset is flagged, by a loop that updates the global augmented
    incumbent; a loop in which the presented incumbent updates nothing
    adds one to the count, and when the count then equals
    [penalty_coefficient_reset_count_threshold] the count is set back to
    zero and the reset is flagged; a flagged reset sets the local penalty
    coefficients equal to the global ones. *)
Theorem not_update_count_loop (o : Option) (st st' : LoopState) :
  loop_body o st = inr st' ->
  let result :=
    (tabu_search_solve (loop_rest st) o
       (local_penalty_coefficient_proxies st)
       (global_penalty_coefficient_proxies st)
       (variable_value_proxies (current_solution st))
       (loop_incumbent_holder st)).1 in
  let presented := present_global (loop_incumbent_holder st) result in
  (m_global_augmented_incumbent_objective presented.2
     <> m_global_augmented_incumbent_objective (loop_incumbent_holder st) ->
   not_update_count st' = 0 /\ penalty_coefficient_reset_flag st' = false) /\
  (presented.1 = STATUS_NO_UPDATED ->
   if not_update_count st + 1 =? penalty_coefficient_reset_count_threshold o
   then not_update_count st' = 0 /\ penalty_coefficient_reset_flag st' = true
   else not_update_count st' = not_update_count st + 1 /\
        penalty_coefficient_reset_flag st' = false) /\
  (penalty_coefficient_reset_flag st' = true ->
   local_penalty_coefficient_proxies st'
     = global_penalty_coefficient_proxies st' /\
   global_penalty_coefficient_proxies st'
     = global_penalty_coefficient_proxies st).
Proof.
  intros Hbody result presented.
  destruct (loop_body_inr o st st' Hbody) as (Hc & Hf & _ & Hg & _ & Hl).
  fold result in Hc, Hf, Hl. fold presented in Hc, Hf, Hl.
  split; [|split].
  - intros Hne. rewrite Hc, Hf.
    rewrite update_not_update_count_updated; [split; reflexivity|].
    subst presented. unfold present_global in *.
    rewrite IncumbentHolderFacts.try_update_status.
    destruct (IncumbentHolderFacts.try_update_global
                (loop_incumbent_holder st)
                (m_global_augmented_incumbent_solution
                   (incumbent_holder result))
                (m_global_augmented_incumbent_score
                   (incumbent_holder result))) as [[E _]|[_ ->]];
      [contradiction|].
    unfold STATUS_LOCAL_AUGMENTED_INCUMBENT_UPDATE,
      STATUS_GLOBAL_AUGMENTED_INCUMBENT_UPDATE,
      STATUS_FEASIBLE_INCUMBENT_UPDATE.
    destruct (less _ _); destruct (_ && _); lia.
  - intros H0. rewrite Hc, Hf, H0, update_not_update_count_not_updated.
    destruct (_ =? _); split; reflexivity.
  - intros Hflag. rewrite Hl, Hg. rewrite <- Hf, Hflag. split; reflexivity.
Qed.

(** C3, what the loop does.  After a loop without reset in which the gap
    of the global augmented incumbent objective over the local augmented
    incumbent objective of the search exceeds [EPSILON] and the local
    augmented incumbent solution is infeasible, every local penalty
    coefficient is at most [initial_penalty_coefficient] and, without
    grouping, it is the smaller of [initial_penalty_coefficient] and the old
    coefficient increased by
    [rate * (balance * gap / total_penalty
             + (1 - balance) * gap * v / total_squared_violation)];
    with grouping it is the smaller of [initial_penalty_coefficient] and the
    largest increased coefficient of its proxy. *)
Theorem tighten_loop (o : Option) (st st' : LoopState) (gap : Q)
  (id j : nat) (proxy : list Q) (old : Q) :
  loop_body o st = inr st' ->
  let result :=
    (tabu_search_solve (loop_rest st) o
       (local_penalty_coefficient_proxies st)
       (global_penalty_coefficient_proxies st)
       (variable_value_proxies (current_solution st))
       (loop_incumbent_holder st)).1 in
  let result_local_solution :=
    m_local_augmented_incumbent_solution (incumbent_holder result) in
  let violations := violation_value_proxies result_local_solution in
  let raised h x :=
    (x + increase o gap violations (violation_at violations id h))%Q in
  penalty_coefficient_reset_flag st' = false ->
  gap_of (m_global_augmented_incumbent_objective (loop_incumbent_holder st'))
         (m_local_augmented_incumbent_objective (incumbent_holder result))
    = Some gap ->
  (0 <= EPSILON)%Q ->
  (EPSILON < gap)%Q ->
  Solution.is_feasible result_local_solution = false ->
  (0 < total_penalty violations)%Q ->
  (0 < total_squared_violation violations)%Q ->
  local_penalty_coefficient_proxies st !! id = Some proxy ->
  proxy !! j = Some old ->
  exists new,
    lookup2 (local_penalty_coefficient_proxies st') (id, j) = Some new /\
    (new <= initial_penalty_coefficient o)%Q /\
    (is_enabled_grouping_penalty_coefficient o = false ->
     (new == Qmin (raised j old) (initial_penalty_coefficient o))%Q) /\
    (is_enabled_grouping_penalty_coefficient o = true ->
     exists largest,
       (new == Qmin largest (initial_penalty_coefficient o))%Q /\
       (forall h x, proxy !! h = Some x -> (raised h x <= largest)%Q) /\
       (exists h x, proxy !! h = Some x /\ (largest == raised h x)%Q)).
Proof.
  intros Hbody result result_local_solution violations raised
         Hflag Hgap Heps Hlt Hinf _ _ Hid Hj.
  destruct (loop_body_inr o st st' Hbody) as (_ & Hf & Hh & _ & _ & Hl).
  fold result in Hf, Hh, Hl. rewrite <- Hf, Hflag, <- Hh, Hgap in Hl.
  unfold update_local_penalty_coefficients in Hl.
  fold result_local_solution in Hl. fold violations in Hl.
  apply IncumbentHolderFacts.Qltb_lt_iff in Hlt as Hlt'. rewrite Hlt', Hinf in Hl. cbn [andb negb] in Hl.
  assert (Hgap0 : (0 <= gap)%Q).
  { eapply Qle_trans; [exact Heps|now apply Qlt_le_weak]. }
  eexists. split; [rewrite Hl; apply tighten_lookup; eassumption|].
  split; [apply Q.le_min_r|]. split.
  - intros ->. apply Q.min_compat; [|reflexivity].
    now apply tightened_increase.
  - intros ->.
    set (added := imap (tightened o gap violations id) proxy).
    assert (Hne : added <> []).
    { intros E. apply (f_equal length) in E. subst added.
      rewrite length_imap in E. destruct proxy; [discriminate Hj|discriminate E]. }
    destruct (utility_max_spec added Hne) as [Hle Hin].
    exists (utility_max added). split; [reflexivity|]. split.
    + intros h x Hx. unfold raised.
      rewrite <- tightened_increase by exact Hgap0.
      rewrite Forall_lookup in Hle. apply (Hle h).
      subst added. now rewrite list_lookup_imap, Hx.
    + apply list_elem_of_lookup in Hin as [h Hh']. subst added.
      rewrite list_lookup_imap in Hh'.
      destruct (proxy !! h) as [x|] eqn:Hx; [|discriminate].
      injection Hh' as Hh'. exists h, x. split; [exact Hx|].
      rewrite <- Hh'. unfold raised. now apply tightened_increase.
Qed.

(** The loop ends: fuel beyond [iteration_max - iteration] is never used. *)
Lemma outer_loop_enough_fuel (fuel : nat) (o : Option) (st : LoopState) :
  (Z.to_nat (iteration_max o - iteration st) <= fuel)%nat ->
  outer_loop fuel o st
  = outer_loop (Z.to_nat (iteration_max o - iteration st)) o st.
Proof.
  revert st. induction fuel as [|fuel IH]; intros st Hfuel.
  - now replace (Z.to_nat (iteration_max o - iteration st)) with 0%nat by lia.
  - destruct (terminated elapsed_time o st) eqn:Ht.
    + cbn [Solver.outer_loop]. rewrite Ht.
      destruct (Z.to_nat _); cbn [Solver.outer_loop]; now rewrite Ht.
    + assert (Hit : iteration st < iteration_max o).
      { unfold terminated in Ht.
        apply orb_false_iff in Ht as [Ht _].
        apply orb_false_iff in Ht as [_ Ht]. lia. }
      replace (Z.to_nat (iteration_max o - iteration st))
        with (S (Z.to_nat (iteration_max o - (iteration st + 1)))) by lia.
      cbn [Solver.outer_loop]. rewrite Ht.
      destruct (loop_body o st) as [[e r]|st1] eqn:Hbody; [reflexivity|].
      destruct (loop_body_inr o st st1 Hbody) as (_ & _ & _ & _ & Hi & _).
      rewrite <- Hi. apply IH. lia.
Qed.

(** ** The incumbent that is exported *)

#[local] Abbreviation new_holder := (new default_solution default_score).

#[local] Abbreviation search :=
  (search EPSILON generate_constraint_parameter_proxies update export_solution
          evaluate default_solution default_score lagrange_dual_applicable
          elapsed_time lagrange_dual_solve local_search_solve
          tabu_search_solve prepare_next_loop).

#[local] Abbreviation search_presented :=
  (search_presented EPSILON generate_constraint_parameter_proxies update
     export_solution evaluate default_solution default_score
     lagrange_dual_applicable elapsed_time lagrange_dual_solve
     local_search_solve tabu_search_solve prepare_next_loop).

#[local] Abbreviation outer_loop_presented :=
  (outer_loop_presented EPSILON elapsed_time tabu_search_solve
     prepare_next_loop).

(** The two calls after a search are the calls of its history. *)
Lemma present_presented (h : Holder) (result : SearchResult) :
  present_feasible (present_global h result).2 result
  = try_updates h (presented result).
Proof.
  unfold present_feasible, present_global, presented.
  now destruct (m_found_feasible_solution _).
Qed.

Lemma run_search_history
  (s : Rest -> Option -> list (list Q) -> list (list Q) ->
       list (list Z) -> Holder -> SearchResult * Rest)
  (o : Option) (st : LoopState) :
  loop_incumbent_holder (run_search s o st)
  = try_updates (loop_incumbent_holder st) (run_search_presented s o st).
Proof.
  unfold run_search, run_search_presented.
  destruct (s _ _ _ _ _ _) as [result rest1].
  cbn [loop_incumbent_holder fst]. apply present_presented.
Qed.

Lemma loop_body_history (o : Option) (st st' : LoopState) :
  loop_body o st = inr st' ->
  loop_incumbent_holder st'
  = try_updates (loop_incumbent_holder st)
      (run_search_presented tabu_search_solve o st).
Proof.
  intros H. destruct (loop_body_inr o st st' H) as (_ & _ & -> & _).
  apply present_presented.
Qed.

Lemma outer_loop_history (fuel : nat) (o : Option) (st st' : LoopState) :
  outer_loop fuel o st = inr st' ->
  loop_incumbent_holder st'
  = try_updates (loop_incumbent_holder st) (outer_loop_presented fuel o st).
Proof.
  revert st. induction fuel as [|fuel IH]; intros st;
    cbn [Solver.outer_loop Solver.outer_loop_presented].
  - destruct (terminated _ _ _); now intros [= <-].
  - destruct (terminated _ _ _); [now intros [= <-]|].
    destruct (loop_body o st) as [[e r]|st1] eqn:Hbody; [discriminate|].
    intros H. rewrite (IH st1 H), (loop_body_history o st st1 Hbody).
    now rewrite IncumbentHolderFacts.try_updates_app.
Qed.

(** The main holder at the end of the searches is the new holder after
    the calls of the history. *)
Lemma search_history (o : Option) (r : Rest) (st : LoopState) :
  search o r = inr st ->
  loop_incumbent_holder st
  = try_updates new_holder (search_presented o r).
Proof.
  unfold Solver.search, Solver.search_presented. intros H.
  apply outer_loop_history in H. rewrite H. clear H.
  rewrite !IncumbentHolderFacts.try_updates_app. f_equal.
  set (st0 := initial_state _ _ _ _ _ _ _ _).
  destruct (is_enabled_lagrange_dual o && lagrange_dual_applicable _);
    destruct (is_enabled_local_search o);
    rewrite ?run_search_history; reflexivity.
Qed.

(** C7. When [solve] returns a result, the searches have ended in a state
    [st] whose main holder is the new holder after the history of the
    solve: the initial solution and what every search has presented, in
    order.  The exported solution is the model's solution after the
    variable values of the chosen incumbent have been imported and the
    model updated; the chosen incumbent is the feasible incumbent of the
    main holder if a feasible score occurs in the history (it is then a
    presented solution, feasible, of the least objective among the
    feasible ones) and otherwise its global augmented incumbent (a
    presented solution of the least global augmented objective). *)
Theorem solve_exports_incumbent (m m' : Model) (o : Option) (result : Result) :
  solve m o = (m', inr result) ->
  let master_option :=
    with_target (adjusted_target_objective_value (rest m) o) o in
  let r := (setup master_option (rest m)).1 in
  let calls := search_presented master_option r in
  let found := existsb (fun c => is_feasible c.2) calls in
  exists st : LoopState,
    search master_option r = inr st /\
    loop_incumbent_holder st = try_updates new_holder calls /\
    m_found_feasible_solution (loop_incumbent_holder st) = found /\
    let incumbent :=
      if found
      then m_feasible_incumbent_solution (loop_incumbent_holder st)
      else m_global_augmented_incumbent_solution (loop_incumbent_holder st) in
    rest m' = update (import_variable_values
                        (loop_rest st) (variable_value_proxies incumbent)) /\
    solution result
      = convert_to_named_solution (rest m') (export_solution (rest m')) /\
    (found = true ->
     exists score,
       In (incumbent, score) calls /\ is_feasible score = true /\
       forall c, In c calls -> is_feasible c.2 = true ->
                 (objective score <= objective c.2)%Q) /\
    (found = false ->
     exists score,
       In (incumbent, score) calls /\
       forall c, In c calls ->
                 (global_augmented_objective score
                    <= global_augmented_objective c.2)%Q).
Proof.
  unfold Solver.solve. destruct (is_solved m); [discriminate|].
  unfold Solver.solve_marked. cbn [rest set_is_solved is_solved].
  destruct (setup _ _) as [r [e|]]; [discriminate|]. cbn [fst].
  destruct (search _ r) as [[e r']|st] eqn:Hsearch; [discriminate|].
  unfold export_result. intros [= <- <-]. cbn [rest solution]. cbv zeta.
  exists st. split; [reflexivity|].
  pose proof (search_history _ _ _ Hsearch) as Hh.
  split; [exact Hh|].
  set (calls := search_presented _ r) in *.
  assert (Hne : calls <> []) by (subst calls; discriminate).
  pose proof (IncumbentHolderFacts.stores_try_updates [] new_holder calls
                (IncumbentHolderFacts.stores_new _ _))
    as (Hfound & _ & Hfeas & _ & Hglob).
  cbn [app] in *. rewrite <- Hh in *.
  assert (Hsel : select_incumbent (loop_incumbent_holder st)
                 = if existsb (fun c => is_feasible c.2) calls
                   then m_feasible_incumbent_solution
                          (loop_incumbent_holder st)
                   else m_global_augmented_incumbent_solution
                          (loop_incumbent_holder st)).
  { unfold select_incumbent. now rewrite Hfound. }
  rewrite Hsel.
  split; [exact Hfound|]. split; [reflexivity|]. split; [reflexivity|].
  split.
  - intros Hf. rewrite Hf in *.
    destruct (Hfeas Hfound) as (score & Hin & Hsf & _ & Hmin). eauto.
  - intros Hf. rewrite Hf in *.
    destruct (Hglob Hne) as (score & Hin & _ & Hmin). eauto.
Qed.

(** ** What holds when the loop of tabu searches has ended *)

(** The members of the state the searches before the loop leave alone. *)
Lemma search_start (o : Option) (r : Rest) :
  exists st0 : LoopState,
    search o r = outer_loop (Z.to_nat (iteration_max o)) o st0 /\
    iteration st0 = 0 /\
    local_penalty_coefficient_proxies st0
      = generate_constraint_parameter_proxies
          r (initial_penalty_coefficient o) /\
    global_penalty_coefficient_proxies st0
      = generate_constraint_parameter_proxies
          r (initial_penalty_coefficient o).
Proof.
  unfold Solver.search. eexists. split; [reflexivity|].
  unfold run_search.
  destruct (_ && _), (is_enabled_local_search o);
    repeat lazymatch goal with
      | |- context [let '(_, _) := ?x in _] => destruct x
      end;
    now repeat split.
Qed.

Lemma outer_loop_inr (fuel : nat) (o : Option) :
  forall st st' : LoopState,
    outer_loop fuel o st = inr st' ->
    (terminated elapsed_time o st' = true \/
     iteration st' = iteration st + Z.of_nat fuel) /\
    iteration st <= iteration st' <= iteration st + Z.of_nat fuel /\
    (iteration st < iteration st' -> restart_mode o <> Other) /\
    global_penalty_coefficient_proxies st'
      = global_penalty_coefficient_proxies st /\
    ((0 <= initial_penalty_coefficient o)%Q ->
     (0 <= penalty_coefficient_relaxing_rate o <= 1)%Q ->
     Forall (Forall (fun x => (x <= initial_penalty_coefficient o)%Q))
            (local_penalty_coefficient_proxies st) ->
     Forall (Forall (fun x => (x <= initial_penalty_coefficient o)%Q))
            (global_penalty_coefficient_proxies st) ->
     Forall (Forall (fun x => (x <= initial_penalty_coefficient o)%Q))
            (local_penalty_coefficient_proxies st')).
Proof.
  induction fuel as [|fuel IH]; intros st st'; cbn [Solver.outer_loop].
  - destruct (terminated _ _ _) eqn:Ht; intros [= <-];
      (split; [auto; right; lia|]); (split; [lia|]);
      (split; [lia|]); auto.
  - destruct (terminated _ _ _) eqn:Ht.
    + intros [= <-]. split; [now left|]. split; [lia|]. split; [lia|]. auto.
    + destruct (loop_body o st) as [[e r]|st1] eqn:Hbody; [discriminate|].
      intros H. destruct (IH st1 st' H) as (Hend & Hit & Hmode & Hg & Hl).
      destruct (loop_body_inr o st st1 Hbody)
        as (_ & _ & _ & Hg1 & Hi1 & Hl1).
      split; [destruct Hend as [Hend|Hend]; [now left|right; lia]|].
      split; [lia|]. split.
      * intros _ E. unfold Solver.loop_body in Hbody. rewrite E in Hbody.
        destruct (tabu_search_solve _ _ _ _ _ _). discriminate.
      * split; [congruence|]. intros Hinitial Hrate Hlocal Hglobal.
        apply Hl; try assumption; [|congruence].
        rewrite Hl1.
        now apply update_local_penalty_coefficients_bounded.
Qed.

(** X15. The loop of tabu searches ends only in a state in which one of its
    three conditions holds (the time is over, the iteration limit is
    reached, or the feasible incumbent objective has reached the target),
    and it makes at most [iteration_max] passes. *)
Theorem search_terminated (o : Option) (r : Rest) (st : LoopState) :
  search o r = inr st ->
  terminated elapsed_time o st = true /\
  0 <= iteration st <= Z.max 0 (iteration_max o).
Proof.
  intros H. destruct (search_start o r) as (st0 & E & Hi0 & _).
  rewrite E in H. apply outer_loop_inr in H as (Hend & Hit & _).
  split; [|lia].
  destruct Hend as [Hend|Hend]; [exact Hend|].
  unfold terminated. apply orb_true_iff. left. apply orb_true_iff. right.
  lia.
Qed.

(** X16. A restart mode that is neither [Global] nor [Local] is found out
    only by the first pass of the loop, after its tabu search has run: a
    pass then throws, so a solve that returns has made no pass at all (its
    loop ended before the first one). *)
Theorem invalid_restart_mode (o : Option) :
  restart_mode o = Other ->
  (forall (fuel : nat) (st : LoopState),
     terminated elapsed_time o st = false ->
     outer_loop (S fuel) o st
     = inl (InvalidRestartMode,
            (tabu_search_solve (loop_rest st) o
               (local_penalty_coefficient_proxies st)
               (global_penalty_coefficient_proxies st)
               (variable_value_proxies (current_solution st))
               (loop_incumbent_holder st)).2)) /\
  (forall (r : Rest) (st : LoopState),
     search o r = inr st -> iteration st = 0).
Proof.
  intros Hmode. split.
  - intros fuel st Ht. cbn [Solver.outer_loop]. rewrite Ht.
    unfold Solver.loop_body. rewrite Hmode.
    now destruct (tabu_search_solve _ _ _ _ _ _).
  - intros r st H. destruct (search_start o r) as (st0 & E & Hi0 & _).
    rewrite E in H. apply outer_loop_inr in H as (_ & Hit & Hpass & _).
    destruct (Z.eq_dec (iteration st) 0) as [E0|Hne]; [exact E0|].
    exfalso. apply Hpass; [lia|exact Hmode].
Qed.

(** X17. Throughout a solve the local penalty coefficients are at most the
    initial penalty coefficient (for a relaxing rate between 0 and 1 and an
    initial coefficient that is not negative): the coefficients of the
    result are bounded by it. *)
Theorem penalty_coefficients_bounded (m m' : Model) (o : Option)
  (result : Result) :
  (0 <= initial_penalty_coefficient o)%Q ->
  (0 <= penalty_coefficient_relaxing_rate o <= 1)%Q ->
  (forall r c,
     Forall (Forall (fun x => (x <= c)%Q))
            (generate_constraint_parameter_proxies r c)) ->
  solve m o = (m', inr result) ->
  Forall (Forall (fun x => (x <= initial_penalty_coefficient o)%Q))
         (penalty_coefficients result).
Proof.
  intros Hinitial Hrate Hgenerate.
  unfold Solver.solve. destruct (is_solved m); [discriminate|].
  unfold Solver.solve_marked. cbn [rest set_is_solved is_solved].
  destruct (setup _ _) as [r [e|]]; [discriminate|].
  lazymatch goal with
  | |- context [match ?x with inl _ => _ | inr _ => _ end] =>
      destruct x as [[e r']|st] eqn:Hsearch
  end; [discriminate|].
  unfold export_result. intros [= <- <-]. cbn [penalty_coefficients].
  set (o' := with_target _ o) in *.
  destruct (search_start o' r) as (st0 & E & _ & Hl0 & Hg0).
  rewrite E in Hsearch.
  apply outer_loop_inr in Hsearch as (_ & _ & _ & _ & Hbound).
  apply Hbound; try assumption; rewrite ?Hl0, ?Hg0; apply Hgenerate.
Qed.

(** X18. The count of loops without update stays in range: it is never
    negative, and with a reset threshold of at least 1 it stays below the
    threshold, since the pass in which it reaches the threshold sets it
    back to 0 and flags the reset.  With a threshold of 0 or less the count
    never meets the threshold and no pass flags a reset. *)
Theorem not_update_count_range (o : Option) (st st' : LoopState) :
  loop_body o st = inr st' ->
  0 <= not_update_count st ->
  0 <= not_update_count st' /\
  (1 <= penalty_coefficient_reset_count_threshold o ->
   not_update_count st < penalty_coefficient_reset_count_threshold o ->
   not_update_count st' < penalty_coefficient_reset_count_threshold o) /\
  (penalty_coefficient_reset_count_threshold o <= 0 ->
   penalty_coefficient_reset_flag st' = false) /\
  (penalty_coefficient_reset_flag st' = true ->
   not_update_count st + 1 = penalty_coefficient_reset_count_threshold o /\
   not_update_count st' = 0).
Proof.
  intros Hbody Hcount.
  destruct (loop_body_inr o st st' Hbody) as (-> & -> & _).
  unfold update_not_update_count.
  destruct (_ && _); cbn [fst snd].
  - split; [lia|]. split; [lia|]. split; [reflexivity|discriminate].
  - destruct (Z.eqb_spec (not_update_count st + 1)
                (penalty_coefficient_reset_count_threshold o)) as [E|E];
      cbn [fst snd].
    + split; [lia|]. split; [lia|]. split; [lia|]. now split.
    + split; [lia|]. split; [lia|]. split; [reflexivity|discriminate].
Qed.
(** X19. A solve without search returns the initial solution: with an
    iteration limit of 0 or less and neither the Lagrange dual nor the
    local search enabled, no search runs, the solution of the result is the
    model's solution after the update of line 205, imported and evaluated
    again, and the penalty coefficients of the result are the ones
    generated at the start. *)
Theorem solve_without_search (m : Model) (o : Option) (r : Rest) :
  is_solved m = false ->
  iteration_max o <= 0 ->
  is_enabled_lagrange_dual o = false ->
  is_enabled_local_search o = false ->
  setup (with_target (adjusted_target_objective_value (rest m) o) o) (rest m)
    = (r, None) ->
  let initial := export_solution (update r) in
  let final :=
    update (import_variable_values (update r)
                                   (variable_value_proxies initial)) in
  solve m o
  = ({| is_solved := true; rest := final |},
     inr {| solution := convert_to_named_solution
                          final (export_solution final);
            penalty_coefficients :=
              generate_constraint_parameter_proxies
                r (initial_penalty_coefficient o) |}).
Proof.
  intros Hm Hmax Hdual Hlocal Hsetup. cbn zeta.
  unfold Solver.solve. rewrite Hm.
  unfold Solver.solve_marked. cbn [rest set_is_solved is_solved].
  rewrite Hsetup. unfold Solver.search.
  cbn [with_target is_enabled_lagrange_dual is_enabled_local_search
       iteration_max].
  rewrite Hdual, Hlocal. cbn [andb].
  replace (Z.to_nat (iteration_max o)) with 0%nat by lia.
  cbn [Solver.outer_loop].
  assert (Hsame : forall st : @LoopState Rest,
             (if terminated elapsed_time
                   (with_target (adjusted_target_objective_value (rest m) o) o)
                   st
              then @inr (Error * Rest) _ st else inr st) = inr st)
    by (intros st; now destruct (terminated _ _ _)).
  rewrite Hsame. unfold export_result, initial_state.
  cbn [loop_incumbent_holder loop_rest local_penalty_coefficient_proxies
       with_target initial_penalty_coefficient].
  assert (Hselect :
            select_incumbent
              (try_update_incumbent (new default_solution default_score)
                 (export_solution (update r))
                 (evaluate (update r)
                    (generate_constraint_parameter_proxies
                       r (initial_penalty_coefficient o))
                    (generate_constraint_parameter_proxies
                       r (initial_penalty_coefficient o)))).2
            = export_solution (update r)).
  { unfold select_incumbent, try_update_incumbent, new, initialize.
    cbn [m_local_augmented_incumbent_objective less DEFAULT_OBJECTIVE
         store_local m_global_augmented_incumbent_objective
         store_global m_feasible_incumbent_objective].
    destruct (is_feasible _); reflexivity. }
  now rewrite Hselect.
Qed.

End Solve.

(** ** Concrete loops *)

Import Examples.

Lemma not_update_count_loop_witness :
  exists st',
    loop_with idle_search (option_of false) (state_of [[1; 1]]%Q 2) = inr st' /\
    not_update_count st' = 0 /\ penalty_coefficient_reset_flag st' = true /\
    local_penalty_coefficient_proxies st'
      = global_penalty_coefficient_proxies st'.
Proof.
  eexists. split; [reflexivity|].
  destruct (not_update_count_loop EPSILON idle_search (fun r _ => r)
              (option_of false) (state_of [[1; 1]]%Q 2) _ eq_refl)
    as (_ & H2 & H3).
  specialize (H2 eq_refl). cbn in H2. destruct H2 as [H2 H2'].
  split; [exact H2|]. split; [exact H2'|]. exact (proj1 (H3 H2')).
Defined.

(** C2 as stated fails in the loop in which the count reaches the
    threshold: the global augmented incumbent is not updated, yet the count
    goes from 2 to 0, not to 3. *)
Lemma not_update_count_counterexample :
  exists st',
    loop_with idle_search (option_of false) (state_of [[1; 1]]%Q 2) = inr st' /\
    m_global_augmented_incumbent_objective (loop_incumbent_holder st')
      = m_global_augmented_incumbent_objective
          (loop_incumbent_holder (state_of [[1; 1]]%Q 2)) /\
    penalty_coefficient_reset_count_threshold (option_of false) = 3 /\
    not_update_count (state_of [[1; 1]]%Q 2) = 2 /\
    not_update_count st' = 0 /\
    not_update_count st' <> not_update_count (state_of [[1; 1]]%Q 2) + 1.
Proof.
  eexists. split; [reflexivity|]. cbn. repeat split; discriminate.
Qed.

(** The condition of line 583 is a logical conjunction: a loop whose
    presented incumbent updates only the local augmented incumbent of the
    main holder (status 1) also sets the count to zero. *)
Example not_update_count_local_update :
  exists st',
    loop_with (search_returning holder_relaxed) (option_of false)
              (state_of [[1; 1]]%Q 2) = inr st' /\
    (present_global holder_5 {| incumbent_holder := holder_relaxed |}).1
      = STATUS_LOCAL_AUGMENTED_INCUMBENT_UPDATE /\
    m_global_augmented_incumbent_objective (loop_incumbent_holder st')
      = m_global_augmented_incumbent_objective holder_5 /\
    not_update_count st' = 0.
Proof. eexists. split; [reflexivity|]. cbn. repeat split. Qed.

Lemma tighten_loop_witness :
  exists st' new,
    loop_with (search_returning holder_local_3) (option_of false)
              (state_of [[1; 1]]%Q 0) = inr st' /\
    lookup2 (local_penalty_coefficient_proxies st') (0%nat, 0%nat)
      = Some new /\
    (new <= 100)%Q /\
    (new == Qmin (1 + increase (option_of false) 2 [[1; 0]] 1) 100)%Q.
Proof.
  eexists.
  destruct (tighten_loop EPSILON (search_returning holder_local_3)
              (fun r _ => r) (option_of false) (state_of [[1; 1]]%Q 0) _
              2 0%nat 0%nat [1; 1]%Q 1%Q eq_refl)
    as (new & H1 & H2 & H3 & _);
    try first [reflexivity | vm_compute; easy].
  exists new. split; [reflexivity|].
  split; [exact H1|]. split; [exact H2|]. exact (H3 eq_refl).
Defined.

(** C3 as stated fails where the bound takes effect and where the
    coefficients are grouped.  Coefficients at the initial value 100, as
    they are before the first relaxation, stay at 100 although the increase
    is 2; with grouping, the second coefficient of the proxy goes from 1 to
    3 although its increase is 1. *)
Lemma tighten_counterexample :
  (exists st',
     loop_with (search_returning holder_local_3) (option_of false)
               (state_of [[100; 100]]%Q 0) = inr st' /\
     penalty_coefficient_reset_flag st' = false /\
     (increase (option_of false) 2 [[1; 0]] 1 == 2)%Q /\
     lookup2 (local_penalty_coefficient_proxies st') (0%nat, 0%nat)
       = Some 100%Q /\
     ~ (100 == 100 + increase (option_of false) 2 [[1; 0]] 1)%Q) /\
  (exists st',
     loop_with (search_returning holder_local_3) (option_of true)
               (state_of [[1; 1]]%Q 0) = inr st' /\
     penalty_coefficient_reset_flag st' = false /\
     (increase (option_of true) 2 [[1; 0]] 0 == 1)%Q /\
     (exists new,
        lookup2 (local_penalty_coefficient_proxies st') (0%nat, 1%nat)
          = Some new /\
        (new == 3)%Q /\ (new <= 100)%Q /\
        ~ (new == 1 + increase (option_of true) 2 [[1; 0]] 0)%Q)).
Proof.
  split.
  - eexists. split; [reflexivity|]. split; [reflexivity|].
    split; [reflexivity|]. split; [reflexivity|]. discriminate.
  - eexists. split; [reflexivity|]. split; [reflexivity|].
    split; [reflexivity|]. eexists. split; [reflexivity|].
    split; [reflexivity|]. split; discriminate.
Qed.

Lemma solve_exports_incumbent_witness :
  let calls :=
    history_with (search_returning holder_local_3) (option_of false) [[7]] in
  exists st : @LoopState (list (list Z)),
    search_with (search_returning holder_local_3) (option_of false) [[7]]
    = inr st /\
    loop_incumbent_holder st
    = try_updates (new (solution_of [[0]]) (score_of 0 0)) calls /\
    m_found_feasible_solution (loop_incumbent_holder st)
    = existsb (fun c => is_feasible c.2) calls /\
    [[7]]
    = variable_value_proxies
        (if existsb (fun c => is_feasible c.2) calls
         then m_feasible_incumbent_solution (loop_incumbent_holder st)
         else m_global_augmented_incumbent_solution
                (loop_incumbent_holder st)).
Proof.
  destruct (solve_exports_incumbent EPSILON
              (fun _ o => target_objective_value o)
              (fun _ r => (r, None))
              (fun _ c => [[c; c]])
              (fun r => r)
              solution_of
              (fun _ _ _ => score_of 3 2)
              (solution_of [[0]]) (score_of 0 0)
              (fun _ => false)
              (fun _ => 0%Q)
              idle_search idle_search (search_returning holder_local_3)
              (fun r _ => r)
              (fun _ values => values)
              (fun _ s => s)
              {| is_solved := false; rest := [[7]] |}
              {| is_solved := true; rest := [[7]] |}
              (option_of false)
              {| solution := solution_of [[7]];
                 penalty_coefficients := [[100; 100]]%Q |}
              eq_refl)
    as (st & H0 & H1 & H2 & H3 & _).
  exists st. split; [exact H0|]. split; [exact H1|]. split; [exact H2|exact H3].
Defined.

Lemma solve_twice_witness :
  let m := {| is_solved := false; rest := [[7]] |} in
  let first := solve_with idle_search m (option_of false) in
  is_solved first.1 = true /\
  solve_with idle_search first.1 (option_of true)
    = (first.1, inl AlreadySolved).
Proof.
  intros m first.
  destruct (solve_twice EPSILON
              (fun _ o => target_objective_value o)
              (fun _ r => (r, None))
              (fun _ c => [[c; c]])
              (fun r => r)
              solution_of
              (fun _ _ _ => score_of 3 2)
              (solution_of [[0]]) (score_of 0 0)
              (fun _ => false)
              (fun _ => 0%Q)
              idle_search idle_search idle_search
              (fun r _ => r)
              (fun _ values => values)
              (fun _ s => s)
              m (option_of false) (option_of true))
    as (H1 & H2 & _).
  split; [exact H1|exact H2].
Defined.

Lemma penalty_coefficients_bounded_witness :
  Forall (Forall (fun x => (x <= 100)%Q)) [[100; 100]]%Q.
Proof.
  apply (penalty_coefficients_bounded EPSILON
           (fun _ o => target_objective_value o)
           (fun _ r => (r, None))
           (fun _ c => [[c; c]])
           (fun r => r)
           solution_of
           (fun _ _ _ => score_of 3 2)
           (solution_of [[0]]) (score_of 0 0)
           (fun _ => false)
           (fun _ => 0%Q)
           idle_search idle_search (search_returning holder_local_3)
           (fun r _ => r)
           (fun _ values => values)
           (fun _ s => s)
           {| is_solved := false; rest := [[7]] |}
           {| is_solved := true; rest := [[7]] |}
           (option_of false)
           {| solution := solution_of [[7]];
              penalty_coefficients := [[100; 100]]%Q |}).
  - discriminate.
  - split; discriminate.
  - intros r c. repeat constructor; apply Qle_refl.
  - reflexivity.
Defined.
Lemma search_terminated_witness :
  exists st : @LoopState (list (list Z)),
    search EPSILON (fun _ c => [[c; c]]) (fun r => r) solution_of
           (fun _ _ _ => score_of 3 2) (solution_of [[0]]) (score_of 0 0)
           (fun _ => false) (fun _ => 0%Q) idle_search idle_search
           (search_returning holder_local_3) (fun r _ => r)
           (option_of false) [[7]]
    = inr st /\
    terminated (fun _ => 0%Q) (option_of false) st = true /\
    0 <= iteration st <= 1.
Proof.
  destruct (search EPSILON (fun _ c => [[c; c]]) (fun r => r) solution_of
              (fun _ _ _ => score_of 3 2) (solution_of [[0]]) (score_of 0 0)
              (fun _ => false) (fun _ => 0%Q) idle_search idle_search
              (search_returning holder_local_3) (fun r _ => r)
              (option_of false) [[7]]) as [[e r]|st] eqn:E.
  - vm_compute in E. discriminate.
  - exists st. split; [reflexivity|].
    exact (search_terminated _ _ _ _ _ _ _ _ _ _ _ _ _ _ _ _ E).
Defined.

Lemma invalid_restart_mode_witness :
  outer_loop EPSILON (fun _ => 0%Q) idle_search (fun r _ => r) 1
             (option_other) (state_of [[1; 1]]%Q 0)
  = inl (InvalidRestartMode, [[0]]).
Proof.
  exact (proj1 (invalid_restart_mode EPSILON (fun _ c => [[c; c]])
                  (fun r => r) solution_of (fun _ _ _ => score_of 3 2)
                  (solution_of [[0]]) (score_of 0 0) (fun _ => false)
                  (fun _ => 0%Q) idle_search idle_search idle_search
                  (fun r _ => r) option_other eq_refl)
               0%nat (state_of [[1; 1]]%Q 0) eq_refl).
Defined.

Lemma not_update_count_range_witness :
  exists st',
    loop_body EPSILON idle_search (fun r _ => r) (option_of false)
              (state_of [[1; 1]]%Q 2) = inr st' /\
    0 <= not_update_count st' < 3.
Proof.
  destruct (loop_body EPSILON idle_search (fun r _ => r) (option_of false)
              (state_of [[1; 1]]%Q 2)) as [[e r]|st'] eqn:E.
  - vm_compute in E. discriminate.
  - exists st'. split; [reflexivity|].
    destruct (not_update_count_range EPSILON idle_search (fun r _ => r)
                (option_of false) (state_of [[1; 1]]%Q 2) st' E)
      as (H0 & H1 & _); [cbn; lia|].
    split; [exact H0|]. apply H1; cbn; lia.
Defined.
Lemma solve_without_search_witness :
  solve_with idle_search {| is_solved := false; rest := [[7]] |}
             option_idle
  = ({| is_solved := true; rest := [[7]] |},
     inr {| solution := solution_of [[7]];
            penalty_coefficients := [[100; 100]]%Q |}).
Proof.
  exact (solve_without_search EPSILON
           (fun _ o => target_objective_value o)
           (fun _ r => (r, None))
           (fun _ c => [[c; c]])
           (fun r => r)
           solution_of
           (fun _ _ _ => score_of 3 2)
           (solution_of [[0]]) (score_of 0 0)
           (fun _ => false)
           (fun _ => 0%Q)
           idle_search idle_search idle_search
           (fun r _ => r)
           (fun _ values => values)
           (fun _ s => s)
           {| is_solved := false; rest := [[7]] |} option_idle [[7]]
           eq_refl ltac:(cbn; lia) eq_refl eq_refl eq_refl).
Defined.

Import TabuSearch(TabuSearchOption, initial_tabu_tenure,
  is_enabled_automatic_tabu_tenure_adjustment,
  is_enabled_initial_modification, initial_modification_fixed_rate,
  initial_modification_randomize_rate,
  is_enabled_automatic_iteration_adjustment, iteration_increase_rate).
Import Binary64(binary64_of_Z).

(** ** The target objective value *)

Lemma Qle_bool_le (x y : Q) : Qle_bool x y = true <-> (x <= y)%Q.
Proof. apply Qle_bool_iff. Qed.

(** X20. A target objective value the user has set (it differs from the
    default by more than [EPSILON], relatively) is compared in the sense of
    the user: the loop of [solve] ends for the target when the feasible
    incumbent objective, as the user reads it, is at most the target for a
    minimization and at least the target for a maximization.  With the
    default left as it is and no objective defined the target is 0. *)
Theorem target_objective_value_reached
  (DEFAULT_TARGET_OBJECTIVE EPSILON : Q) (is_defined_objective : bool)
  (target objective : Q) :
  (0 < EPSILON)%Q ->
  let rate := (target / DEFAULT_TARGET_OBJECTIVE - 1)%Q in
  let adjusted sign :=
    adjust_target_objective_value DEFAULT_TARGET_OBJECTIVE EPSILON sign
                                  is_defined_objective target in
  ((EPSILON < Qabs rate)%Q ->
   (reaches_target (Finite (1 * objective)) (adjusted 1%Q) = true
    <-> (objective <= target)%Q) /\
   (reaches_target (Finite (-1 * objective)) (adjusted (-1)%Q) = true
    <-> (target <= objective)%Q)) /\
  ((Qabs rate < EPSILON)%Q -> is_defined_objective = false ->
   forall sign, adjusted sign = 0%Q).
Proof.
  intros Heps rate adjusted. subst adjusted.
  unfold adjust_target_objective_value. fold rate. split.
  - intros Hrate.
    rewrite (proj2 (IncumbentHolderFacts.Qltb_lt EPSILON (Qabs rate)) Hrate).
    assert (Hnot : Qltb (Qabs rate) EPSILON = false).
    { destruct (Qltb (Qabs rate) EPSILON) eqn:E; [|reflexivity].
      apply IncumbentHolderFacts.Qltb_lt in E. lra. }
    rewrite Hnot. cbn [reaches_target]. rewrite !Qle_bool_le.
    split; split; intros H; lra.
  - intros Hrate Hdef sign.
    rewrite (proj2 (IncumbentHolderFacts.Qltb_lt (Qabs rate) EPSILON) Hrate).
    now rewrite Hdef.
Qed.

Lemma target_objective_value_reached_witness :
  reaches_target (Finite (-1 * 12))
    (adjust_target_objective_value (-1000000) (1 / 100000) (-1) true 10)
  = true <-> (10 <= 12)%Q.
Proof.
  apply (target_objective_value_reached (-1000000) (1 / 100000) true 10 12).
  - reflexivity.
  - reflexivity.
Defined.

(** ** The tabu tenure, the initial modifications and the iteration limit *)

(** X21. Provided the initial tabu tenure of the option is at least 1 and
    the tenure of the loop lies between [min 1 n] and the larger of the
    initial tabu tenure of the option and [n], [n >= 0] the number of not
    fixed variables, the initial tabu tenure of the next loop lies there
    too: it is at least 1 when a variable is not fixed, and with the
    automatic adjustment it falls to 0 when all variables are fixed and the
    global augmented incumbent was updated or the bias has risen.  With the
    automatic adjustment and without an update of the global augmented
    incumbent it moves by at most one from a tenure that does not exceed
    the number of not fixed variables; a comparison with a bias that is not
    a number leaves it as it is. *)
Theorem next_initial_tabu_tenure_bounds (master : TabuSearchOption)
  (current total_update_status : Z) (bias previous_bias : SpecFloat.spec_float)
  (number_of_not_fixed_variables : Z) :
  1 <= initial_tabu_tenure master ->
  0 <= number_of_not_fixed_variables ->
  Z.min 1 number_of_not_fixed_variables <= current
    <= Z.max (initial_tabu_tenure master) number_of_not_fixed_variables ->
  let next :=
    next_initial_tabu_tenure master current total_update_status bias
                             previous_bias number_of_not_fixed_variables in
  Z.min 1 number_of_not_fixed_variables <= next
    <= Z.max (initial_tabu_tenure master) number_of_not_fixed_variables /\
  (is_enabled_automatic_tabu_tenure_adjustment master = true ->
   has_flag total_update_status STATUS_GLOBAL_AUGMENTED_INCUMBENT_UPDATE
     = false ->
   (current <= number_of_not_fixed_variables ->
    current - 1 <= next <= current + 1) /\
   (bias = SpecFloat.S754_nan \/ previous_bias = SpecFloat.S754_nan ->
    next = current)) /\
  (is_enabled_automatic_tabu_tenure_adjustment master = true ->
   number_of_not_fixed_variables = 0 ->
   has_flag total_update_status STATUS_GLOBAL_AUGMENTED_INCUMBENT_UPDATE
     = true \/ SpecFloat.SFltb previous_bias bias = true ->
   next = 0).
Proof.
  intros Hinitial Hn Hcurrent. cbn zeta. unfold next_initial_tabu_tenure.
  split; [|split].
  - destruct (is_enabled_automatic_tabu_tenure_adjustment master); [|lia].
    destruct (has_flag _ _); [lia|].
    destruct (SpecFloat.SFltb previous_bias bias); [lia|].
    destruct (SpecFloat.SFltb bias previous_bias); lia.
  - intros -> ->. split.
    + intros Hle. destruct (SpecFloat.SFltb previous_bias bias); [lia|].
      destruct (SpecFloat.SFltb bias previous_bias); lia.
    + intros [-> | ->].
      * now destruct previous_bias.
      * now destruct bias.
  - intros -> -> [-> | H]; [lia|].
    destruct (has_flag _ _); [lia|]. rewrite H. lia.
Qed.

Lemma next_initial_tabu_tenure_bounds_witness :
  let master :=
    {| TabuSearch.iteration_max := 200;
       initial_tabu_tenure := 10;
       is_enabled_automatic_tabu_tenure_adjustment := true;
       is_enabled_initial_modification := true;
       initial_modification_fixed_rate := binary64_of_Z 1;
       initial_modification_randomize_rate := half;
       is_enabled_automatic_iteration_adjustment := true;
       iteration_increase_rate := 3 / 2 |} in
  1 <= next_initial_tabu_tenure master 10 0 SpecFloat.S754_nan
         SpecFloat.S754_nan 4
    <= 10.
Proof.
  cbn zeta.
  refine (proj1 (next_initial_tabu_tenure_bounds _ 10 0 SpecFloat.S754_nan
                   SpecFloat.S754_nan 4 _ _ _));
    cbn [initial_tabu_tenure]; lia.
Defined.

Lemma wrapped_sum (bits nominal r width : Z) :
  32 <= bits ->
  0 < width <= nominal ->
  nominal < 2 ^ 30 ->
  to_int
    (to_unsigned bits
       (to_unsigned bits nominal
        + to_unsigned bits
            (r mod to_unsigned bits (2 * width) - to_unsigned bits width)))
  = nominal + (r mod (2 * width) - width).
Proof.
  intros Hbits Hw Hn.
  assert (Hpow : 2 ^ 32 <= 2 ^ bits) by (apply Z.pow_le_mono_r; lia).
  assert (H32 : 2 ^ 32 = 4294967296) by reflexivity.
  assert (H31 : 2 ^ 31 = 2147483648) by reflexivity.
  assert (H30 : 2 ^ 30 = 1073741824) by reflexivity.
  assert (Hr : 0 <= r mod (2 * width) < 2 * width)
    by (apply Z.mod_pos_bound; lia).
  unfold to_unsigned, to_int.
  rewrite (Z.mod_small (2 * width)) by lia.
  rewrite (Z.mod_small width) by lia.
  rewrite (Z.mod_small nominal) by lia.
  rewrite Zplus_mod_idemp_r.
  rewrite (Z.mod_small (nominal + _)) by lia.
  rewrite Z.mod_small by lia. lia.
Qed.

Section InitialModification.

Context {Generator : Type}.
Variable draw : Generator -> Z * Generator.
Variable bits : Z.
Hypothesis bits_ge : 32 <= bits.

(** X22. The number of initial modifications of the next loop is 0 after a
    loop that has updated the feasible or the global augmented incumbent.
    After a loop without update that has not changed the current solution
    it is at least 1 when the initial modification is enabled: with
    [nominal] the floor of the double product of the fixed rate of
    [master_option] and the next tabu tenure (a finite product, and
    [0 <= nominal < 2 ^ 30]), and [width] the integer part of the double
    product of the randomize rate of [option] and [nominal], it is
    [nominal] moved by less than [width] and not below 1, for a draw of at
    least 32 bits; for a randomize rate from 0 to 1 the width is not above
    [nominal], whatever the rounding of the product.  In the remaining
    case (a changed solution, or the modification disabled) it keeps the
    value of the loop before, and no random number is drawn. *)
Theorem next_number_of_initial_modification_cases
  (master option : TabuSearchOption) (current total_update_status : Z)
  (is_changed : bool) (next_inital_tabu_tenure : Z) (g : Generator) :
  let next :=
    next_number_of_initial_modification draw bits master option current
      total_update_status is_changed next_inital_tabu_tenure g in
  let product :=
    SpecFloat.SFmul 53 1024 (initial_modification_fixed_rate master)
      (binary64_of_Z next_inital_tabu_tenure) in
  let nominal := Binary64.floor product in
  let width :=
    Binary64.truncate
      (SpecFloat.SFmul 53 1024 (initial_modification_randomize_rate option)
         (binary64_of_Z nominal)) in
  (has_flag total_update_status STATUS_FEASIBLE_INCUMBENT_UPDATE = true \/
   has_flag total_update_status STATUS_GLOBAL_AUGMENTED_INCUMBENT_UPDATE
     = true ->
   next = (0, g)) /\
  (has_flag total_update_status STATUS_FEASIBLE_INCUMBENT_UPDATE = false ->
   has_flag total_update_status STATUS_GLOBAL_AUGMENTED_INCUMBENT_UPDATE
     = false ->
   (is_enabled_initial_modification master && negb is_changed = false ->
    next = (current, g)) /\
   (is_enabled_initial_modification master && negb is_changed = true ->
    Binary64.in_unit_interval (initial_modification_randomize_rate option) ->
    Binary64.is_finite product = true ->
    0 <= nominal < 2 ^ 30 ->
    0 <= width <= nominal /\
    1 <= next.1 /\
    Z.max 1 (nominal - width) <= next.1
      <= Z.max 1 (nominal + Z.max 0 (width - 1)))).
Proof.
  cbn zeta. unfold next_number_of_initial_modification. split.
  - intros [-> | H]; [reflexivity|]. rewrite H.
    destruct (has_flag total_update_status STATUS_FEASIBLE_INCUMBENT_UPDATE);
      reflexivity.
  - intros -> ->. split; [now intros ->|].
    intros -> Hrate _ Hnominal.
    set (nominal := Binary64.floor _) in *.
    pose proof (Binary64Facts.SFmul_unit_truncate _ nominal Hrate Hnominal)
      as [_ Hwidth].
    cbv zeta in Hwidth. set (width := Binary64.truncate _) in *.
    split; [exact Hwidth|].
    destruct (Z.ltb_spec 0 width) as [Hpos|Hzero].
    + destruct (draw g) as [r g']. cbn [fst].
      rewrite wrapped_sum by lia.
      pose proof (Z.mod_pos_bound r (2 * width) ltac:(lia)). lia.
    + cbn [fst]. lia.
Qed.

End InitialModification.

Lemma next_number_of_initial_modification_cases_witness :
  let master :=
    {| TabuSearch.iteration_max := 200;
       initial_tabu_tenure := 10;
       is_enabled_automatic_tabu_tenure_adjustment := true;
       is_enabled_initial_modification := true;
       initial_modification_fixed_rate := three_tenths;
       initial_modification_randomize_rate := half;
       is_enabled_automatic_iteration_adjustment := true;
       iteration_increase_rate := 3 / 2 |} in
  1 <= (next_number_of_initial_modification (fun g : Z => (g, g + 1)) 64
          master master 0 1 false 10 12345).1.
Proof.
  cbn zeta.
  refine (proj1 (proj2 (proj2 (proj2
            (next_number_of_initial_modification_cases
               (fun g : Z => (g, g + 1)) 64 _ _ _ 0 1 false 10 12345)
            _ _) _ _ _ _))); try reflexivity; try lia.
  - vm_compute. discriminate.
  - vm_compute. split; [discriminate|reflexivity].
Defined.

(** The rounding of the product decides the nominal number: the double
    0.3 is below 3/10, yet [0.3 * 10] is the double 3, so that the nominal
    number for a tenure of 10 is 3, where the floor of the exact product
    is 2. *)
Example nominal_number_rounding :
  (Binary64.to_Q three_tenths < 3 / 10)%Q /\
  Qfloor (Binary64.to_Q three_tenths * 10) = 2 /\
  SpecFloat.SFmul 53 1024 three_tenths (binary64_of_Z 10) = binary64_of_Z 3 /\
  Binary64.floor (SpecFloat.SFmul 53 1024 three_tenths (binary64_of_Z 10))
  = 3.
Proof. repeat split; vm_compute; reflexivity. Qed.



(** ** The result by names *)

Lemma filter_none {A : Type} (P : A -> Prop) `{!forall x, Decision (P x)}
  (l : list A) :
  Forall (fun x => ~ P x) l -> filter P l = [].
Proof.
  induction 1 as [|x l Hx Hl IH]; [reflexivity|].
  now rewrite filter_cons, decide_False.
Qed.

Lemma named_proxies_lookup {A : Type} (names : list string)
  (proxies : list (list A)) (size : nat) (name : string) :
  (size <= length names)%nat ->
  (size <= length proxies)%nat ->
  named_proxies size names proxies !! name
  = match last (filter (fun i => names !! i = Some name) (seq 0 size)) with
    | Some i => proxies !! i
    | None => None
    end.
Proof.
  unfold named_proxies. induction size as [|size IH]; intros Hn Hp.
  - cbn. apply lookup_empty.
  - rewrite seq_S, fold_left_app, filter_app. cbn [fold_left Nat.add].
    destruct (lookup_lt_is_Some_2 names size ltac:(lia)) as [n Hname].
    destruct (lookup_lt_is_Some_2 proxies size ltac:(lia)) as [p Hproxy].
    rewrite Hname, Hproxy, filter_cons, filter_nil.
    destruct (decide (names !! size = Some name)) as [E|E].
    + rewrite last_snoc, Hproxy.
      assert (n = name) as -> by congruence.
      apply lookup_insert_eq.
    + rewrite app_nil_r, lookup_insert_ne by congruence.
      apply IH; lia.
Qed.

(** X24. The penalty coefficients and the update counts of the result are
    found by the names of the proxies: the entry under a name is the proxy
    at the last position that carries this name, so every proxy is found
    under its name when the names differ, and a proxy whose name is used
    again at a later position is not in the result; a name that no proxy
    carries has no entry. *)
Theorem named_proxies_by_name {A : Type} (names : list string)
  (proxies : list (list A)) (i : nat) (name : string) (proxy : list A) :
  length names = length proxies ->
  names !! i = Some name ->
  proxies !! i = Some proxy ->
  let named := named_proxies (length proxies) names proxies in
  ((forall j, (i < j)%nat -> names !! j <> Some name) ->
   named !! name = Some proxy) /\
  (NoDup names -> named !! name = Some proxy) /\
  (forall j proxy', (i < j)%nat -> names !! j = Some name ->
                    proxies !! j = Some proxy' ->
                    (forall k, (j < k)%nat -> names !! k <> Some name) ->
                    named !! name = Some proxy') /\
  (forall other, other ∉ names -> named !! other = None).
Proof.
  intros Hlen Hname Hproxy. cbn zeta.
  assert (Hlast : forall i name proxy,
             names !! i = Some name -> proxies !! i = Some proxy ->
             (forall j, (i < j)%nat -> names !! j <> Some name) ->
             named_proxies (length proxies) names proxies !! name
             = Some proxy).
  { clear i name proxy Hname Hproxy. intros i name proxy Hname Hproxy Hlater.
    rewrite named_proxies_lookup by lia.
    assert (Hi : (i < length proxies)%nat)
      by (apply lookup_lt_is_Some; exact (mk_is_Some _ _ Hproxy)).
    assert (exists k, length proxies = (i + S k)%nat) as [k ->]
      by (exists (length proxies - S i)%nat; lia).
    rewrite seq_app, filter_app. cbn [seq Nat.add].
    rewrite filter_cons, decide_True by exact Hname.
    assert (Hnone : filter (fun j => names !! j = Some name)
                           (seq (S i) k) = []).
    { apply filter_none. apply Forall_forall. intros j Hj.
      apply elem_of_seq in Hj. apply Hlater. lia. }
    rewrite Hnone, last_snoc. exact Hproxy. }
  split; [|split; [|split]].
  - now apply Hlast.
  - intros Hnodup. apply (Hlast i); try assumption.
    intros j Hj Hj'. pose proof (NoDup_lookup _ _ _ _ Hnodup Hname Hj'). lia.
  - intros j proxy' _ Hj Hp Hlater. now apply (Hlast j).
  - intros other Hother. rewrite named_proxies_lookup by lia.
    rewrite filter_none; [reflexivity|].
    apply Forall_forall. intros j _ Hj. apply Hother.
    apply list_elem_of_lookup. now exists j.
Qed.

Lemma named_proxies_by_name_witness :
  named_penalty_coefficients 2 ["g"; "h"]%string [[1; 2]; [3]]%Q
    !! "h"%string = Some [3]%Q /\
  named_update_counts 2 ["x"; "x"]%string [[1; 2]; [3]] !! "x"%string
    = Some [3].
Proof.
  split.
  - refine (proj1 (named_proxies_by_name ["g"; "h"]%string [[1; 2]; [3]]%Q
                     1 "h"%string [3]%Q _ _ _) _); try reflexivity.
    intros [|[|j]] Hj; (lia || discriminate).
  - refine (proj1 (named_proxies_by_name ["x"; "x"]%string [[1; 2]; [3]]
                     1 "x"%string [3] _ _ _) _); try reflexivity.
    intros [|[|j]] Hj; (lia || discriminate).
Defined.

End SolverFacts.

(** * Properties of the evaluation kernel *)

Module ModelFacts.
Import Model.

(** ** Sums of rationals *)

Lemma sumQ_ext {A : Type} (f g : A -> Q) (l : list A) :
  (forall x, x ∈ l -> (f x == g x)%Q) ->
  (sumQ (map f l) == sumQ (map g l))%Q.
Proof.
  induction l as [|x l IH]; intros H; cbn [map sumQ fold_right];
    [reflexivity|].
  rewrite (H x) by apply list_elem_of_here.
  fold (sumQ (map f l)). fold (sumQ (map g l)).
  rewrite IH; [reflexivity|].
  intros y Hy. apply H. now apply list_elem_of_further.
Qed.

Lemma sumQ_plus {A : Type} (f g : A -> Q) (l : list A) :
  (sumQ (map (fun x => f x + g x) l) == sumQ (map f l) + sumQ (map g l))%Q.
Proof.
  induction l as [|x l IH]; cbn [map sumQ fold_right]; [ring|].
  fold (sumQ (map f l)). fold (sumQ (map g l)).
  fold (sumQ (map (fun x => f x + g x)%Q l)). rewrite IH. ring.
Qed.

Lemma sumQ_perm {A : Type} (f : A -> Q) (l k : list A) :
  l ≡ₚ k -> (sumQ (map f l) == sumQ (map f k))%Q.
Proof.
  induction 1 as [|x l k _ IH|x y l|l k k' _ IH1 _ IH2];
    cbn [map sumQ fold_right].
  - reflexivity.
  - fold (sumQ (map f l)). fold (sumQ (map f k)). now rewrite IH.
  - ring.
  - now rewrite IH1.
Qed.

Lemma sumQ_filter {A : Type} (P : A -> Prop) `{forall x, Decision (P x)}
  (f : A -> Q) (l : list A) :
  (forall x, x ∈ l -> ~ P x -> (f x == 0)%Q) ->
  (sumQ (map f l) == sumQ (map f (filter P l)))%Q.
Proof.
  induction l as [|x l IH]; intros Hz; [reflexivity|].
  rewrite filter_cons. cbn [map sumQ fold_right].
  fold (sumQ (map f l)).
  assert (IH' : (sumQ (map f l) == sumQ (map f (filter P l)))%Q).
  { apply IH. intros y Hy. apply Hz. now apply list_elem_of_further. }
  destruct (decide (P x)) as [Hp|Hn].
  - cbn [map sumQ fold_right]. fold (sumQ (map f (filter P l))).
    now rewrite IH'.
  - rewrite (Hz x (list_elem_of_here _ _) Hn), IH'. ring.
Qed.

(** Two duplicate-free lists carry the same sum when the summand vanishes on
    what they do not share. *)
Lemma sumQ_shared {A : Type} `{EqDecision A} (f : A -> Q) (l k : list A) :
  NoDup l -> NoDup k ->
  (forall x, x ∈ l -> x ∉ k -> (f x == 0)%Q) ->
  (forall x, x ∈ k -> x ∉ l -> (f x == 0)%Q) ->
  (sumQ (map f l) == sumQ (map f k))%Q.
Proof.
  intros Hl Hk Hlk Hkl.
  rewrite (sumQ_filter (fun x => x ∈ k) f l) by exact Hlk.
  rewrite (sumQ_filter (fun x => x ∈ l) f k) by exact Hkl.
  apply sumQ_perm, NoDup_Permutation.
  - now apply NoDup_filter.
  - now apply NoDup_filter.
  - intros x. rewrite !list_elem_of_filter. tauto.
Qed.

(** ** The references of the constraints *)

Section Indexed.

Context {A : Type}.

Lemma elem_of_indexed (h : nat -> nat) (l : list (list A)) (g : Index)
  (c : A) :
  (g, c) ∈ indexed h l <->
  exists i proxy, g.1 = h i /\ l !! i = Some proxy /\ proxy !! g.2 = Some c.
Proof.
  unfold indexed. rewrite list_elem_of_In, in_concat. split.
  - intros (row & Hrow & Hin).
    apply list_elem_of_In in Hrow, Hin.
    apply elem_of_lookup_imap in Hrow as (i & proxy & -> & Hi).
    apply elem_of_lookup_imap in Hin as (j & c' & [= -> ->] & Hj).
    exists i, proxy. cbn. auto.
  - intros (i & proxy & Hg & Hi & Hj). destruct g as [a j]. cbn in *. subst a.
    exists (imap (fun j c => ((h i, j), c)) proxy).
    split; apply list_elem_of_In, elem_of_lookup_imap; eauto.
Qed.

Lemma NoDup_indexed (h : nat -> nat) (l : list (list A)) :
  Inj (=) (=) h -> NoDup (indexed h l).*1.
Proof.
  revert h. induction l as [|proxy l IH]; intros h Hinj; [constructor|].
  unfold indexed. rewrite imap_cons. cbn [concat]. rewrite fmap_app.
  apply NoDup_app. split; [|split].
  - rewrite fmap_imap.
    rewrite (imap_ext _ (fun j _ => (h 0%nat, j))) by reflexivity.
    rewrite imap_seq_0. apply NoDup_fmap_2; [|apply NoDup_seq].
    intros j1 j2 [= ->]. reflexivity.
  - intros g Hg1 Hg2.
    apply list_elem_of_fmap in Hg1 as ([g1 c1] & -> & Hg1).
    apply elem_of_lookup_imap in Hg1 as (j & c & [= -> ->] & _).
    apply list_elem_of_fmap in Hg2 as ([g2 c2] & Heq & Hg2).
    cbn in Heq. subst g2.
    change (((h 0%nat, j), c2) ∈ indexed (h ∘ S) l) in Hg2.
    apply elem_of_indexed in Hg2 as (i & _ & Hh & _). cbn in Hh.
    apply Hinj in Hh. discriminate.
  - apply (IH (h ∘ S)). intros i1 i2 Hh. apply Hinj in Hh. congruence.
Qed.

Lemma elem_of_indexed_id (l : list (list A)) (g : Index) (c : A) :
  (g, c) ∈ indexed id l <-> lookup2 l g = Some c.
Proof.
  rewrite elem_of_indexed. unfold lookup2. split.
  - intros (i & proxy & Hg & Hi & Hj). unfold id in Hg.
    rewrite Hg, Hi. exact Hj.
  - destruct (l !! g.1) as [proxy|] eqn:E; [|discriminate].
    intros Hj. exists g.1, proxy. auto.
Qed.

End Indexed.

Lemma NoDup_fst_filter {A B : Type} (P : A * B -> Prop)
  `{forall x, Decision (P x)} (l : list (A * B)) :
  NoDup l.*1 -> NoDup (filter P l).*1.
Proof.
  induction l as [|x l IH]; intros Hl; [constructor|].
  rewrite fmap_cons in Hl. apply NoDup_cons in Hl as [Hx Hl].
  rewrite filter_cons. destruct (decide (P x)); [|now apply IH].
  rewrite fmap_cons. apply NoDup_cons. split; [|now apply IH].
  intros Hin. apply Hx.
  apply list_elem_of_fmap in Hin as (y & -> & Hy).
  apply list_elem_of_filter in Hy as [_ Hy].
  apply list_elem_of_fmap. eauto.
Qed.

Lemma elem_of_enabled_constraints (m : Model) (g : Index) (c : Constraint) :
  (g, c) ∈ enabled_constraints m <-> enabled_constraint_at m g = Some c.
Proof.
  unfold enabled_constraints, enabled_constraint_at.
  rewrite list_elem_of_filter.
  unfold indexed_constraints.
  rewrite elem_of_indexed_id. cbn [snd]. split.
  - intros [He ->]. now rewrite He.
  - destruct (lookup2 _ g) as [c'|]; [|discriminate].
    destruct (is_enabled c') eqn:He; [|discriminate].
    intros [= ->]. auto.
Qed.

Lemma NoDup_enabled_constraints (m : Model) :
  NoDup (enabled_constraints m).*1.
Proof.
  apply NoDup_fst_filter. unfold indexed_constraints.
  apply NoDup_indexed. intros i j H. exact H.
Qed.

Lemma violation_compat (s : ConstraintSense) (x y : Q) :
  (x == y)%Q -> (violation s x == violation s y)%Q.
Proof.
  intros H. destruct s; cbn.
  - now apply Q.max_compat.
  - now rewrite H.
  - apply Q.max_compat; [reflexivity|]. now rewrite H.
Qed.

Lemma Qltb_compat (x x' y y' : Q) :
  (x == x')%Q -> (y == y')%Q -> Qltb x y = Qltb x' y'.
Proof.
  intros Hx Hy. unfold Qltb. now rewrite Hx, Hy.
Qed.

Lemma Qeq_bool_compat (x x' : Q) :
  (x == x')%Q -> Qeq_bool x 0 = Qeq_bool x' 0.
Proof.
  intros H. apply eq_true_iff_eq. rewrite !Qeq_bool_iff. now rewrite H.
Qed.

Lemma sumQ_zero {A : Type} (f : A -> Q) (l : list A) :
  (forall x, x ∈ l -> (f x == 0)%Q) -> (sumQ (map f l) == 0)%Q.
Proof.
  intros H. rewrite (sumQ_ext f (fun _ => 0%Q) l H).
  induction l as [|x l IH]; cbn [map sumQ fold_right]; [reflexivity|].
  fold (sumQ (map (fun _ : A => 0%Q) l)). rewrite IH; [ring|].
  intros y Hy. apply H. now apply list_elem_of_further.
Qed.

Section Agreement.

Variable objective_improvable : Model -> Move -> bool.
Variable m : Model.
Variable move : Move.
Hypothesis m_consistent : consistent m.
Hypothesis move_valid : valid_move m move.

Lemma delta_empty (e : Expression) : delta m e empty_move = 0%Q.
Proof. reflexivity. Qed.

Lemma empty_unchanged (g : Index) (c : Constraint) :
  (g, c) ∈ enabled_constraints m ->
  (new_violation m c empty_move == violation_value c)%Q.
Proof.
  intros Hin. apply list_elem_of_In in Hin.
  destruct (m_consistent (g, c) Hin) as [Hparity Hcallback].
  cbn [snd] in *. rewrite Hparity.
  unfold new_violation, new_constraint_value, evaluate_expression.
  apply violation_compat.
  destruct (callback (expression c)) as [f|].
  - symmetry. now apply Hcallback.
  - rewrite delta_empty. ring.
Qed.

Lemma unrelated_unchanged (g : Index) (c : Constraint) :
  (g, c) ∈ enabled_constraints m ->
  g ∉ related_constraint_ptrs move ->
  (new_violation m c move == violation_value c)%Q.
Proof.
  intros Hin Hnot. rewrite <- (empty_unchanged g c Hin).
  destruct move_valid as [_ Hv].
  destruct (Hv (g, c)) as [Hlinear Hzero].
  { now apply list_elem_of_In. }
  { cbn [fst]. now rewrite <- list_elem_of_In. }
  cbn [snd] in *.
  unfold new_violation, new_constraint_value, evaluate_expression.
  rewrite Hlinear. apply violation_compat.
  rewrite delta_empty. unfold delta.
  rewrite sumQ_zero; [reflexivity|].
  intros a Ha. rewrite (Hzero a); [ring|]. now apply list_elem_of_In.
Qed.

(** The sum over all enabled constraints splits into the sum before the
    move and the changes at the constraints the move refers to. *)
Lemma weighted_sum (w : Index -> Q) :
  (sumQ (map (fun gc => w gc.1 * new_violation m gc.2 move)
             (enabled_constraints m))
   == sumQ (map (fun gc => w gc.1 * new_violation m gc.2 empty_move)
                (enabled_constraints m))
      + sumQ (map (fun g => w g * violation_diff m move g)
                  (related_constraint_ptrs move)))%Q.
Proof.
  rewrite (sumQ_ext
             (fun gc => w gc.1 * new_violation m gc.2 move)%Q
             (fun gc => w gc.1 * new_violation m gc.2 empty_move
                        + w gc.1 * violation_diff m move gc.1)%Q).
  2:{ intros [g c] Hin. cbn [fst snd]. unfold violation_diff.
      rewrite (proj1 (elem_of_enabled_constraints m g c) Hin).
      rewrite (empty_unchanged g c Hin). ring. }
  rewrite sumQ_plus. apply Qplus_comp; [reflexivity|].
  rewrite <- (map_map fst (fun g => w g * violation_diff m move g)%Q).
  apply sumQ_shared.
  - apply NoDup_enabled_constraints.
  - apply move_valid.
  - intros g Hin Hnot.
    apply list_elem_of_fmap in Hin as ([g' c] & -> & Hin). cbn [fst] in *.
    unfold violation_diff.
    rewrite (proj1 (elem_of_enabled_constraints m g' c) Hin).
    rewrite (unrelated_unchanged g' c Hin Hnot). ring.
  - intros g _ Hnot. unfold violation_diff.
    destruct (enabled_constraint_at m g) as [c|] eqn:E; [|ring].
    exfalso. apply Hnot.
    apply elem_of_enabled_constraints in E.
    apply list_elem_of_fmap. exists (g, c). auto.
Qed.

Lemma constraint_improvable_agrees :
  existsb (fun g => Qltb (violation_diff m move g) 0)
          (related_constraint_ptrs move)
  = existsb (fun gc => Qltb (new_violation m gc.2 move)
                            (violation_value gc.2))
            (enabled_constraints m).
Proof.
  apply eq_true_iff_eq. rewrite !existsb_exists. split.
  - intros (g & Hg & Hlt). unfold violation_diff in Hlt.
    destruct (enabled_constraint_at m g) as [c|] eqn:E; [|discriminate].
    exists (g, c). split.
    + now apply list_elem_of_In, elem_of_enabled_constraints.
    + cbn [snd]. apply IncumbentHolderFacts.Qltb_lt.
      apply IncumbentHolderFacts.Qltb_lt in Hlt. lra.
  - intros ([g c] & Hin & Hlt). cbn [snd] in Hlt.
    apply list_elem_of_In in Hin.
    destruct (decide (g ∈ related_constraint_ptrs move)) as [Hr|Hn].
    + exists g. split; [now apply list_elem_of_In|].
      unfold violation_diff.
      rewrite (proj1 (elem_of_enabled_constraints m g c) Hin).
      apply IncumbentHolderFacts.Qltb_lt.
      apply IncumbentHolderFacts.Qltb_lt in Hlt. lra.
    + exfalso. apply IncumbentHolderFacts.Qltb_lt in Hlt.
      rewrite (unrelated_unchanged g c Hin Hn) in Hlt.
      now apply Qlt_irrefl in Hlt.
Qed.

(** C1. For a model whose caches are up to date, a valid move and any
    penalty coefficients, the overload of [evaluate] that updates
    the score of the empty move returns a score equal field by field to the
    one of the full overload. *)
Theorem evaluate_delta_agrees (local_weights global_weights : list (list Q)) :
  score_eq
    (evaluate_delta objective_improvable m move
       (evaluate objective_improvable m empty_move
          local_weights global_weights)
       local_weights global_weights)
    (evaluate objective_improvable m move local_weights global_weights).
Proof.
  assert (Hobjective :
            (match callback (objective m) with
             | Some f => sign m * f (variable_values m) move
             | None => new_objective m empty_move
                       + sign m * delta m (objective m) move
             end
             == new_objective m move)%Q).
  { unfold new_objective, evaluate_expression.
    destruct (callback (objective m)); [reflexivity|].
    rewrite delta_empty. ring. }
  assert (Htotal :
            (sumQ (map (fun gc => new_violation m gc.2 empty_move)
                       (enabled_constraints m))
             + sumQ (map (violation_diff m move)
                         (related_constraint_ptrs move))
             == sumQ (map (fun gc => new_violation m gc.2 move)
                          (enabled_constraints m)))%Q).
  { pose proof (weighted_sum (fun _ => 1%Q)) as H. cbv beta in H.
    rewrite (sumQ_ext (fun gc => new_violation m gc.2 move)
                      (fun gc => 1 * new_violation m gc.2 move)%Q)
      by (intros; ring).
    rewrite H. apply Qplus_comp; apply sumQ_ext; intros; ring. }
  pose proof (weighted_sum (weight local_weights)) as Hlocal.
  pose proof (weighted_sum (weight global_weights)) as Hglobal.
  unfold score_eq, evaluate_delta, evaluate.
  cbn [SolutionScore.objective total_violation local_penalty global_penalty
       local_augmented_objective global_augmented_objective is_feasible
       is_objective_improvable is_constraint_improvable].
  repeat split.
  - exact Hobjective.
  - exact Htotal.
  - now rewrite Hlocal.
  - now rewrite Hglobal.
  - rewrite Hobjective. now rewrite Hlocal.
  - rewrite Hobjective. now rewrite Hglobal.
  - now apply Qeq_bool_compat.
  - apply constraint_improvable_agrees.
Qed.

End Agreement.

(** [Model::update()] leaves the cached violations up to date. *)
Lemma model_update_consistent (m : Model) : consistent (update m).
Proof.
  intros [g c] Hin. apply list_elem_of_In in Hin.
  apply elem_of_enabled_constraints in Hin.
  unfold enabled_constraint_at, lookup2, update in Hin.
  cbn [constraint_proxies fst snd] in Hin.
  change (@map (list Constraint) (list Constraint))
    with (@fmap list _ (list Constraint) (list Constraint)) in Hin.
  rewrite list_lookup_fmap in Hin.
  destruct (constraint_proxies m !! g.1) as [proxy|]; [|discriminate].
  cbn in Hin.
  change (@map Constraint Constraint)
    with (@fmap list _ Constraint Constraint) in Hin.
  rewrite list_lookup_fmap in Hin.
  destruct (proxy !! g.2) as [c0|]; [|discriminate]. cbn in Hin.
  destruct (is_enabled c0); [|discriminate].
  injection Hin as <-. split; [reflexivity|].
  cbn. unfold expression_value. now intros f ->.
Qed.

Import Examples.

Lemma test_move_valid (n : nat) (value : Z) (minimization : bool) :
  valid_move (test_model minimization) (move_all n value).
Proof.
  split.
  - cbn. apply NoDup_cons. split.
    + intros [H|H]%elem_of_cons; [discriminate|]. now apply not_elem_of_nil in H.
    + apply NoDup_singleton.
  - intros [[i j] c] Hin Hnot. exfalso. apply Hnot.
    apply list_elem_of_In, elem_of_enabled_constraints in Hin.
    unfold enabled_constraint_at, lookup2 in Hin. cbn [fst snd] in *.
    unfold test_model, update in Hin. cbn [constraint_proxies map] in Hin.
    destruct i as [|[|i]]; cbn [lookup list_lookup] in Hin;
      try discriminate;
      (destruct j as [|j]; [|discriminate]); cbn; auto.
Qed.

(** The expected values of the test of [evaluate]. *)
Example evaluate_test :
  test_run true
  = [(46, 6, 600, 60000, 646, 60046, false, false, false);
     (46, 6, 600, 60000, 646, 60046, false, false, false);
     (1, 0, 0, 0, 1, 1, true, true, true);
     (1, 0, 0, 0, 1, 1, true, true, true);
     (11, 1, 100, 10000, 111, 10011, false, false, false);
     (11, 1, 100, 10000, 111, 10011, false, false, false)]%Q /\
  test_run false
  = [(-46, 6, 600, 60000, 554, 59954, false, false, false);
     (-46, 6, 600, 60000, 554, 59954, false, false, false);
     (-1, 0, 0, 0, -1, -1, false, true, true);
     (-1, 0, 0, 0, -1, -1, false, true, true);
     (-11, 1, 100, 10000, 89, 9989, false, false, false);
     (-11, 1, 100, 10000, 89, 9989, false, false, false)]%Q.
Proof. split; vm_compute; reflexivity. Qed.

Lemma evaluate_delta_agrees_witness :
  score_eq
    (evaluate_delta test_objective_improvable (test_model true)
       (move_all 10 0)
       (evaluate test_objective_improvable (test_model true) empty_move
          test_local test_global)
       test_local test_global)
    (evaluate test_objective_improvable (test_model true) (move_all 10 0)
       test_local test_global).
Proof.
  apply evaluate_delta_agrees.
  - apply model_update_consistent.
  - apply test_move_valid.
Defined.

End ModelFacts.

(** * Properties of the command line of the QAP solver *)

Module QapSolverFacts.
Import QapSolver.

Lemma parse_loop_items (items : list Item) :
  forall (fuel : nat) (before : list string) (a   : CommandLine),
    Forall (fun item => match item with
                        | File name => name <> "-p"%string
                        | OptionFile _ => True
                        end) items ->
    (length (concat (map words items)) <= fuel)%nat ->
    parse_loop fuel (before ++ concat (map words items)) (length before) a
    = Some (fold_left read_item items a) /\
    parse_loop (S fuel) (before ++ concat (map words items) ++ ["-p"%string])
               (length before) a
    = None.
Proof.
  induction items as [|item items IH]; intros fuel before a Hitems Hfuel.
  - cbn [map concat fold_left]. rewrite app_nil_r. split.
    + destruct fuel; [reflexivity|]. cbn [parse_loop].
      now rewrite lookup_ge_None_2 by lia.
    + cbn [parse_loop app].
      rewrite list_lookup_middle by reflexivity. cbn.
      now rewrite lookup_ge_None_2 by (rewrite length_app; cbn; lia).
  - apply Forall_cons in Hitems as [Hitem Hitems].
    cbn [map concat] in *. rewrite length_app in Hfuel.
    destruct item as [name|name]; cbn [words app length] in *.
    + destruct fuel as [|fuel]; [lia|].
      destruct (IH fuel (before ++ [name])
                  {| qap_file_name := name;
                     option_file_name := option_file_name a |}
                  Hitems ltac:(lia)) as [IH1 IH2].
      rewrite length_app, <- !app_assoc in IH1, IH2. cbn [length app] in *.
      assert (Hname : (name =? "-p")%string = false)
        by now apply String.eqb_neq.
      split; cbn [parse_loop fold_left read_item];
        rewrite list_lookup_middle by reflexivity; rewrite Hname;
        assumption.
    + destruct fuel as [|[|fuel]]; try lia.
      destruct (IH fuel (before ++ ["-p"%string; name])
                  {| qap_file_name := qap_file_name a;
                     option_file_name := name |}
                  Hitems ltac:(lia)) as [IH1 IH2].
      rewrite length_app, <- !app_assoc in IH1, IH2. cbn [length app] in *.
      assert (Hnext : forall rest : list string,
                 (before ++ "-p"%string :: name :: rest)
                   !! (length before + 1)%nat = Some name).
      { intros rest.
        change (before ++ "-p"%string :: name :: rest)
          with (before ++ ["-p"%string] ++ name :: rest).
        rewrite app_assoc. apply list_lookup_middle.
        rewrite length_app. reflexivity. }
      assert (IH3 : parse_loop (S fuel)
                      (before ++ "-p"%string :: name
                         :: concat (map words items))
                      (length before + 2)
                      {| qap_file_name := qap_file_name a;
                         option_file_name := name |}
                    = Some (fold_left read_item items
                              {| qap_file_name := qap_file_name a;
                                 option_file_name := name |})).
      { destruct (IH (S fuel) (before ++ ["-p"%string; name])
                    {| qap_file_name := qap_file_name a;
                       option_file_name := name |}
                    Hitems ltac:(lia)) as [IH3 _].
        rewrite length_app, <- !app_assoc in IH3. exact IH3. }
      split.
      * change (parse_loop (S (S fuel)) ?l ?i ?x)
          with (match l !! i with
                | None => Some x
                | Some argument =>
                    if String.eqb argument "-p" then
                      match l !! (i + 1)%nat with
                      | None => None
                      | Some name =>
                          parse_loop (S fuel) l (i + 2)
                            {| qap_file_name := qap_file_name x;
                               option_file_name := name |}
                      end
                    else
                      parse_loop (S fuel) l (i + 1)
                        {| qap_file_name := argument;
                           option_file_name := option_file_name x |}
                end).
        rewrite list_lookup_middle by reflexivity. cbn [String.eqb].
        rewrite Hnext. exact IH3.
      * change (parse_loop (S (S (S fuel))) ?l ?i ?x)
          with (match l !! i with
                | None => Some x
                | Some argument =>
                    if String.eqb argument "-p" then
                      match l !! (i + 1)%nat with
                      | None => None
                      | Some name =>
                          parse_loop (S (S fuel)) l (i + 2)
                            {| qap_file_name := qap_file_name x;
                               option_file_name := name |}
                      end
                    else
                      parse_loop (S (S fuel)) l (i + 1)
                        {| qap_file_name := argument;
                           option_file_name := option_file_name x |}
                end).
        rewrite list_lookup_middle by reflexivity. cbn [String.eqb].
        rewrite Hnext.
        destruct (IH (S fuel) (before ++ ["-p"%string; name])
                    {| qap_file_name := qap_file_name a;
                       option_file_name := name |}
                    Hitems ltac:(lia)) as [_ IH4].
        rewrite length_app, <- !app_assoc in IH4. exact IH4.
Qed.
(** X25. What [main] reads from the command line.  Without argument the
    usage is printed.  Otherwise the arguments are read from the left, "-p"
    taking the argument behind it as the name of the option file and any
    other argument being the name of the QAP file; of several names of a
    kind the last one counts, the order of the two kinds does not matter,
    and a name that is not given stays empty (a call with an option file
    alone is not answered with the usage).  A "-p" at the end reads behind
    the end of the arguments. *)
Theorem parse_arguments_items (program : string) (items : list Item) :
  Forall (fun item => match item with
                      | File name => name <> "-p"%string
                      | OptionFile _ => True
                      end) items ->
  parse_arguments [program] = Usage /\
  (items <> [] ->
   parse_arguments (program :: concat (map words items))
   = Parsed (fold_left read_item items
               {| qap_file_name := ""; option_file_name := "" |})) /\
  parse_arguments (program :: concat (map words items) ++ ["-p"%string])
  = OutOfRange.
Proof.
  intros Hitems. split; [reflexivity|].
  destruct (parse_loop_items items (length (concat (map words items)))
              [program] {| qap_file_name := ""; option_file_name := "" |}
              Hitems ltac:(lia)) as [H1 H2].
  split.
  - intros Hne. unfold parse_arguments.
    assert (Hsome : is_Some ((program :: concat (map words items)) !! 1%nat)).
    { destruct items as [|[name|name] items]; [contradiction|..];
        now eexists. }
    destruct Hsome as [x ->]. cbn [length].
    change (program :: concat (map words items))
      with ([program] ++ concat (map words items)).
    destruct (parse_loop_items items (S (length (concat (map words items))))
                [program] {| qap_file_name := ""; option_file_name := "" |}
                Hitems ltac:(lia)) as [H3 _].
    cbn [length] in H3. now rewrite H3.
  - unfold parse_arguments.
    assert (Hsome : is_Some ((program :: concat (map words items)
                                ++ ["-p"%string]) !! 1%nat)).
    { destruct items as [|[name|name] items]; now eexists. }
    destruct Hsome as [x ->]. cbn [length]. rewrite length_app.
    cbn [length].
    replace (S (length (concat (map words items)) + 1))
      with (S (S (length (concat (map words items))))) by lia.
    destruct (parse_loop_items items (S (length (concat (map words items))))
                [program] {| qap_file_name := ""; option_file_name := "" |}
                Hitems ltac:(lia)) as [_ H4].
    cbn [length app] in H4. cbn [app]. now rewrite H4.
Qed.

Lemma parse_arguments_items_witness :
  parse_arguments ["qap_solver"; "-p"; "option.json"; "nug12.dat"]%string
  = Parsed {| qap_file_name := "nug12.dat";
              option_file_name := "option.json" |} /\
  parse_arguments ["qap_solver"; "nug12.dat"; "-p"; "option.json"]%string
  = Parsed {| qap_file_name := "nug12.dat";
              option_file_name := "option.json" |} /\
  parse_arguments ["qap_solver"; "-p"; "option.json"]%string
  = Parsed {| qap_file_name := ""; option_file_name := "option.json" |}.
Proof.
  split; [|split].
  - refine (proj1 (proj2 (parse_arguments_items "qap_solver"
                            [OptionFile "option.json"; File "nug12.dat"] _))
                  _); [repeat constructor|]; discriminate.
  - refine (proj1 (proj2 (parse_arguments_items "qap_solver"
                            [File "nug12.dat"; OptionFile "option.json"] _))
                  _); [repeat constructor|]; discriminate.
  - refine (proj1 (proj2 (parse_arguments_items "qap_solver"
                            [OptionFile "option.json"] _)) _);
      [repeat constructor|]; discriminate.
Defined.

End QapSolverFacts.
